(** * An event store over an ordered key-value engine

  Shallow embedding of the event-store layer of [bloritsch/eventstore]
  (package [eventstore]: [NewId], [BadgerEventStore] and its methods) and
  the properties of its specification.

  The store modelled is the one that keeps a type registry: the envelope
  travels as JSON, the payload inside it as a gob.

  The store is a facade over collaborators that are not part of the
  package: the [oklog/ulid] identifier library, [math/rand],
  [encoding/gob], [encoding/json] and the [badger] key-value engine.
  The identifier arithmetic, the engine's ordered keyspace and what
  [encoding/gob] sends of a value are written out; the byte formats of
  the two codecs, the generator's output and the engine's failures are
  taken as an interface ([Collaborators]). *)

From Stdlib Require Import ZArith Lia List Ascii String Bool Sorted.
From stdpp Require Import base gmap strings list.

Local Open Scope Z_scope.

(** ** Results of Go calls *)

(** A Go [error] value, by its message. *)
Definition error := string.

(** What a call does: it returns, or it panics. *)
Inductive outcome (A : Type) : Type :=
| Returns (a : A)
| Panics (msg : string).
Arguments Returns {A} a.
Arguments Panics {A} msg.

(** ** Byte strings and their order *)

(** Keys are compared byte by byte, as [bytes.Compare] does. *)
Module Key.

Definition lt (a b : string) : Prop := String.compare a b = Lt.
Definition ltb (a b : string) : bool := String.ltb a b.

(** [aggregate + ":"], and [fmt.Sprintf("%s:%s", aggregate, k)]. *)
Definition with_sep (aggregate : string) : string := aggregate +:+ ":".
Definition make (aggregate k : string) : string := aggregate +:+ ":" +:+ k.

(** The separator byte occurs in the name. *)
Fixpoint has_sep (s : string) : bool :=
  match s with
  | EmptyString => false
  | String c s' => if Ascii.eqb c ":" then true else has_sep s'
  end.

End Key.

(** ** Time *)

(** A [time.Time], as its distance from the Unix epoch in nanoseconds. *)
Definition Time := Z.

Module GoTime.

Definition to_uint64 (z : Z) : Z := z mod 2 ^ 64.
Definition to_int64 (z : Z) : Z := (z + 2 ^ 63) mod 2 ^ 64 - 2 ^ 63.

(** [t.Unix()], [t.Nanosecond()] and [t.UnixNano()]; the last one wraps
    when the distance does not fit 64 bits. *)
Definition Unix (t : Time) : Z := t / 1000000000.
Definition Nanosecond (t : Time) : Z := t mod 1000000000.
Definition UnixNano (t : Time) : Z := to_int64 (Unix t * 1000000000 + Nanosecond t).

End GoTime.

(** ** Identifiers (oklog/ulid) *)

Module ulid.

(** A [ULID] is 16 bytes, read here as one big-endian 128-bit number:
    the 48-bit millisecond time, then 80 bits of entropy. *)
Definition ULID := Z.

Definition MaxTime : Z := 281474976710655.

Definition of_parts (ms entropy : Z) : ULID := ms * 2 ^ 80 + entropy.
Definition time_ms (id : ULID) : Z := id / 2 ^ 80.
Definition entropy_of (id : ULID) : Z := id mod 2 ^ 80.

(** [ulid.Timestamp]: [uint64(t.Unix())*1000 + uint64(t.Nanosecond()/1e6)],
    in 64-bit unsigned arithmetic. *)
Definition Timestamp (t : Time) : Z :=
  GoTime.to_uint64
    (GoTime.to_uint64 (GoTime.Unix t) * 1000
     + GoTime.to_uint64 (GoTime.Nanosecond t / 1000000)).

(** Crockford's alphabet. *)
Definition Encoding : string := "0123456789ABCDEFGHJKMNPQRSTVWXYZ".

Definition digit (d : Z) : ascii :=
  match String.get (Z.to_nat d) Encoding with
  | Some c => c
  | None => "0"%char
  end.

(** The [n] low base-32 digits of [x], most significant first. *)
Fixpoint base32 (n : nat) (x : Z) : string :=
  match n with
  | O => EmptyString
  | S n' => String (digit ((x / 32 ^ Z.of_nat n') mod 32)) (base32 n' x)
  end.

(** [id.MarshalText()]: 26 characters; it has no failing case. *)
Definition MarshalText (id : ULID) : string * option error :=
  (base32 26 id, None).

Definition text (id : ULID) : string := fst (MarshalText id).

End ulid.

(** ** Values behind [interface{}] *)

(** A non-nil Go value as the store sees it: through its dynamic type and
    its contents. A struct type is given by the import path of the package
    that declares it, by the name [%T] prints for it, and by its fields in
    the order of the declaration. The types are those a package declares at
    its top level: a path and a name stand for one declaration. *)
#[warnings="-register-all"]
Inductive GoValue : Type :=
| GoInt (n : Z)
| GoString (s : string)
| GoStruct (pkg type : string) (fields : list (string * GoValue)).

(** Induction on values, the fields of a struct included. *)
Fixpoint GoValue_induction (P : GoValue -> Prop)
    (Hint : forall n, P (GoInt n)) (Hstring : forall s, P (GoString s))
    (Hstruct : forall pkg type fields,
       List.Forall (fun f => P (snd f)) fields -> P (GoStruct pkg type fields))
    (v : GoValue) {struct v} : P v :=
  match v with
  | GoInt n => Hint n
  | GoString s => Hstring s
  | GoStruct pkg type fields =>
      Hstruct pkg type fields
        ((fix each (l : list (string * GoValue))
            : List.Forall (fun f => P (snd f)) l :=
            match l with
            | [] => @List.Forall_nil _ _
            | f :: l' =>
                @List.Forall_cons _ _ f l'
                  (match f return P (snd f) with
                   | (name, x) => GoValue_induction P Hint Hstring Hstruct x
                   end)
                  (each l')
            end) fields)
  end.

(** [fmt.Sprintf("%T", t)]. *)
Definition typeName (t : GoValue) : string :=
  match t with
  | GoInt _ => "int"
  | GoString _ => "string"
  | GoStruct _ type _ => type
  end.

Module reflect.

(** The zero value of the dynamic type of [v]. *)
Fixpoint zero_of (v : GoValue) : GoValue :=
  match v with
  | GoInt _ => GoInt 0
  | GoString _ => GoString ""
  | GoStruct pkg type fields =>
      GoStruct pkg type
        (List.map (fun f => match f with (name, x) => (name, zero_of x) end) fields)
  end.

(** A [reflect.Type]: the printed name and the zero value it builds, which
    holds the package and the fields. Two values have the same type when
    these agree. *)
Record Type_ : Type := mkType { String_ : string; Zero : GoValue }.

Definition TypeOf (v : GoValue) : Type_ :=
  {| String_ := typeName v; Zero := zero_of v |}.

(** [reflect.New(typ).Elem().Interface()]; [reflect.New] panics on a nil
    type, which is what a missing map entry yields. *)
Definition New_Elem_Interface (typ : option Type_) : outcome GoValue :=
  match typ with
  | None => Panics "reflect: New(nil)"
  | Some t => Returns (Zero t)
  end.

End reflect.

(** Values and types as keys of finite sets and maps: a value is the tree
    of its parts. *)
Fixpoint to_tree (v : GoValue) : gen_tree (Z + string) :=
  match v with
  | GoInt n => GenLeaf (inl n)
  | GoString s => GenLeaf (inr s)
  | GoStruct pkg type fields =>
      GenNode 0
        (GenLeaf (inr pkg) :: GenLeaf (inr type)
         :: List.map (fun f => match f with
                               | (name, x) =>
                                   GenNode 1 [GenLeaf (inr name); to_tree x]
                               end) fields)
  end.

Fixpoint of_tree (t : gen_tree (Z + string)) : option GoValue :=
  match t with
  | GenLeaf (inl n) => Some (GoInt n)
  | GenLeaf (inr s) => Some (GoString s)
  | GenNode _ (GenLeaf (inr pkg) :: GenLeaf (inr type) :: ts) =>
      match
        (fix each (l : list (gen_tree (Z + string)))
            : option (list (string * GoValue)) :=
           match l with
           | [] => Some []
           | GenNode _ [GenLeaf (inr name); x] :: l' =>
               match of_tree x, each l' with
               | Some v, Some r => Some ((name, v) :: r)
               | _, _ => None
               end
           | _ :: _ => None
           end) ts
      with
      | Some fields => Some (GoStruct pkg type fields)
      | None => None
      end
  | _ => None
  end.

Definition of_to_tree (v : GoValue) : of_tree (to_tree v) = Some v.
Proof.
  induction v as [n|s|pkg type fields IH] using GoValue_induction;
    [reflexivity|reflexivity|].
  simpl.
  match goal with
  | |- match ?e with _ => _ end = _ => assert (He : e = Some fields)
  end.
  { induction IH as [|[name x] l Hx _ IHl]; [reflexivity|].
    simpl in *. rewrite Hx, IHl. reflexivity. }
  rewrite He. reflexivity.
Qed.

#[global] Instance GoValue_eq_dec : EqDecision GoValue.
Proof.
  intros a b. destruct (decide (to_tree a = to_tree b)) as [Heq|Hne].
  - left. apply (f_equal of_tree) in Heq. rewrite !of_to_tree in Heq.
    congruence.
  - right. congruence.
Defined.

#[global] Instance GoValue_countable : Countable GoValue :=
  inj_countable to_tree of_tree of_to_tree.

#[global] Instance Type_eq_dec : EqDecision reflect.Type_.
Proof. solve_decision. Defined.

#[global] Instance Type_countable : Countable reflect.Type_ :=
  inj_countable' (fun t => (reflect.String_ t, reflect.Zero t))
    (fun x => reflect.mkType (fst x) (snd x))
    (fun t => match t with reflect.mkType _ _ => eq_refl end).

(** ** What [encoding/gob] transmits *)

(** [encoding/gob] sends the exported fields of a struct and no others,
    and refuses a struct type that has fields of which none is exported. *)
Module wire.

(** [isExported]: the name begins with an upper-case letter (names are
    taken to be ASCII). *)
Definition exported (name : string) : bool :=
  match name with
  | EmptyString => false
  | String c _ => (65 <=? nat_of_ascii c)%nat && (nat_of_ascii c <=? 90)%nat
  end.

(** The type the encoder gives up on, if any: in the order in which it
    compiles the types, the first struct type (of the value or of a field
    that is sent) with fields none of which is exported. *)
Fixpoint refused (v : GoValue) : option string :=
  match v with
  | GoStruct pkg type fields =>
      match
        (fix each (l : list (string * GoValue)) : option string :=
           match l with
           | [] => None
           | (name, x) :: l' =>
               if exported name then
                 match refused x with
                 | Some t => Some t
                 | None => each l'
                 end
               else each l'
           end) fields
      with
      | Some t => Some t
      | None =>
          match fields with
          | [] => None
          | _ :: _ =>
              if existsb (fun f => exported (fst f)) fields then None
              else Some type
          end
      end
  | _ => None
  end.

(** The value the decoder builds from what was sent for [v]: a new value
    of the same type whose exported fields hold what was sent and whose
    other fields are zero. *)
Fixpoint received (v : GoValue) : GoValue :=
  match v with
  | GoStruct pkg type fields =>
      GoStruct pkg type
        (List.map (fun f => match f with
                            | (name, x) =>
                                (name, if exported name then received x
                                       else reflect.zero_of x)
                            end) fields)
  | _ => v
  end.


(** The name under which [gob.Register] files a type: for a named type
    the import path, a dot and the name in its package. *)
Fixpoint after_dot (s : string) : option string :=
  match s with
  | EmptyString => None
  | String c s' =>
      match after_dot s' with
      | Some r => Some r
      | None => if Ascii.eqb c "." then Some s' else None
      end
  end.

Definition name (v : GoValue) : string :=
  match v with
  | GoStruct pkg type _ =>
      pkg +:+ "." +:+ match after_dot type with Some n => n | None => type end
  | _ => typeName v
  end.

End wire.

(** The stored envelope. *)
Record Record_ : Type := mkRecord {
  Id : ulid.ULID;
  Timestamp : Time;
  Type_ : string;
  Content : string
}.

(** ** The key-value engine (badger) *)

Module badger.

Record Options : Type := mkOptions {
  Dir : string;
  InMemory : bool;
  EncryptionKey : string;
  EncryptionKeyRotationDuration : Z;
  IndexCacheSize : Z
}.

Definition DefaultOptions (path : string) : Options :=
  {| Dir := path; InMemory := false; EncryptionKey := "";
     EncryptionKeyRotationDuration := 864000000000000; IndexCacheSize := 0 |}.

Definition WithInMemory (b : bool) (o : Options) : Options :=
  {| Dir := Dir o; InMemory := b; EncryptionKey := EncryptionKey o;
     EncryptionKeyRotationDuration := EncryptionKeyRotationDuration o;
     IndexCacheSize := IndexCacheSize o |}.

Definition WithEncryptionKey (key : string) (o : Options) : Options :=
  {| Dir := Dir o; InMemory := InMemory o; EncryptionKey := key;
     EncryptionKeyRotationDuration := EncryptionKeyRotationDuration o;
     IndexCacheSize := IndexCacheSize o |}.

Definition WithEncryptionKeyRotationDuration (d : Z) (o : Options) : Options :=
  {| Dir := Dir o; InMemory := InMemory o; EncryptionKey := EncryptionKey o;
     EncryptionKeyRotationDuration := d; IndexCacheSize := IndexCacheSize o |}.

Definition WithIndexCacheSize (n : Z) (o : Options) : Options :=
  {| Dir := Dir o; InMemory := InMemory o; EncryptionKey := EncryptionKey o;
     EncryptionKeyRotationDuration := EncryptionKeyRotationDuration o;
     IndexCacheSize := n |}.

(** The keyspace: entries in strictly ascending key order. *)
Definition entries := list (string * string).

(** An open handle. *)
Record DB : Type := mkDB { opts : Options; data : entries }.

(** [txn.Set(key, value)]: a new key takes its place in the order, an
    existing key has its value replaced. *)
Fixpoint set (key value : string) (l : entries) : entries :=
  match l with
  | [] => [(key, value)]
  | (k, v) :: l' =>
      match String.compare key k with
      | Lt => (key, value) :: (k, v) :: l'
      | Eq => (key, value) :: l'
      | Gt => (k, v) :: set key value l'
      end
  end.

(** [it.Seek(prefix)]: the entries from the first key that is not below
    [prefix]. [it.Rewind()] is the whole list. *)
Fixpoint Seek (prefix : string) (l : entries) : entries :=
  match l with
  | [] => []
  | (k, v) :: l' => if Key.ltb k prefix then Seek prefix l' else l
  end.

(** [it.ValidForPrefix(prefix)] on the entry under the cursor. *)
Definition ValidForPrefix (prefix : string) (item : string * string) : bool :=
  String.prefix prefix (fst item).

(** [for ...; valid; it.Next() { body }] inside a transaction function:
    the body updates the variables it captured ([acc]) and may return an
    error, which ends the loop, or panic. *)
Fixpoint iterate {A : Type} (valid : string * string -> bool)
    (body : string * string -> A -> outcome (A * option error))
    (items : entries) (acc : A) : outcome (A * option error) :=
  match items with
  | [] => Returns (acc, None)
  | item :: rest =>
      if valid item then
        match body item acc with
        | Returns (acc', None) => iterate valid body rest acc'
        | Returns (acc', Some e) => Returns (acc', Some e)
        | Panics msg => Panics msg
        end
      else Returns (acc, None)
  end.

End badger.

(** ** What the store needs from its collaborators *)

(** The parts of the collaborators that the package does not determine:
    the bytes a seeded [math/rand] generator yields, the two wire formats,
    and when the engine reports a failure. *)
Class Collaborators : Type := {
  (** the ten bytes first read from [rand.New(rand.NewSource(seed))], as a
      big-endian number *)
  rand_Read10 : Z -> Z;
  rand_Read10_bytes : forall seed, 0 <= rand_Read10 seed < 2 ^ 80;
  (** [encoding/gob]: the bytes written for an interface value, and what
      bytes decode to; what was written for a value decodes to the value
      as it is received *)
  gob_marshal : GoValue -> string;
  gob_unmarshal : string -> GoValue + error;
  gob_roundtrip :
    forall v, wire.refused v = None ->
      gob_unmarshal (gob_marshal v) = inl (wire.received v);
  (** [encoding/json] on the envelope *)
  json_Marshal : Record_ -> string + error;
  json_Unmarshal : string -> Record_ + error;
  json_roundtrip : forall r b, json_Marshal r = inl b -> json_Unmarshal b = inl r;
  (** failures of the engine: [badger.Open], [txn.Set] with the commit,
      [item.Value], [db.Close] *)
  open_error : badger.Options -> option error;
  set_error : string -> string -> option error;
  value_error : string -> option error;
  close_error : badger.Options -> option error
}.

Module gob.

(** The types [encoding/gob] registers by itself (the basic types; of the
    values modelled here, [int] and [string]). *)
Definition basics : gset reflect.Type_ :=
  {[ reflect.TypeOf (GoInt 0); reflect.TypeOf (GoString "") ]}.

(** A name between double quotes, as [%q] prints it. *)
Definition quoted (s : string) : string :=
  String (ascii_of_nat 34) (s +:+ String (ascii_of_nat 34) EmptyString).

(** [enc.Encode(&content)]: the value travels as an interface value, which
    needs its concrete type in the process-wide registry; then the encoder
    compiles the type. *)
Definition Encode `{Collaborators} (registry : gset reflect.Type_)
    (content : GoValue) : string + error :=
  if decide (reflect.TypeOf content ∈ registry) then
    match wire.refused content with
    | Some type => inr ("gob: type " +:+ type +:+ " has no exported fields")
    | None => inl (gob_marshal content)
    end
  else inr ("gob: type not registered for interface: " +:+ typeName content).

(** [dec.Decode(&v)] with [v] an interface variable: the concrete type
    named on the wire is looked up in the registry and a new value of it,
    decoded, replaces what [v] held. *)
Definition Decode `{Collaborators} (registry : gset reflect.Type_) (c : string)
    (v : GoValue) : GoValue + error :=
  match gob_unmarshal c with
  | inl x =>
      if decide (reflect.TypeOf x ∈ registry) then inl x
      else inr ("gob: name not registered for interface: "
                +:+ quoted (wire.name x))
  | inr e => inr e
  end.

End gob.

(** ** Identifier generation ([idgenerator.go]) *)

(** [NewId]: a generator seeded with [t.UnixNano()] is wrapped by
    [ulid.Monotonic(rnd, 0)] and handed to [ulid.MustNew]. The monotonic
    reader is new on every call, so it has no earlier entropy to step on
    from and reads ten bytes from the generator; [MustNew] panics when the
    millisecond time does not fit 48 bits. *)
Definition NewId `{Collaborators} (t : Time) : outcome ulid.ULID :=
  let source := GoTime.UnixNano t in
  let entropy := rand_Read10 source in
  let ms := ulid.Timestamp t in
  if ms >? ulid.MaxTime then Panics "ulid: time too big"
  else Returns (ulid.of_parts ms entropy).

(** ** The store ([BadgerEventStore]) *)

Record BadgerEventStore : Type := mkStore {
  RootDir : string;
  MemoryOnly : bool;
  EncryptionKey : string;
  EncryptionRotationDuration : Z;
  db : option badger.DB;
  typeRegistery : gmap string reflect.Type_
}.

(** The process around the store: the store object, the registry that
    [encoding/gob] keeps for the whole process, and what the engine has
    persisted under [RootDir]. *)
Record Process : Type := mkProcess {
  store : BadgerEventStore;
  gob_registry : gset reflect.Type_;
  disk : badger.entries
}.

Definition MemoryStore : BadgerEventStore :=
  {| MemoryOnly := true; RootDir := ""; EncryptionKey := "";
     EncryptionRotationDuration := 0; db := None; typeRegistery := ∅ |}.

Definition FileStore (path key : string) (rotationDur : Z) : BadgerEventStore :=
  {| RootDir := path; MemoryOnly := false; EncryptionKey := key;
     EncryptionRotationDuration := rotationDur; db := None;
     typeRegistery := ∅ |}.

(** A process that has just created its store. *)
Definition start (b : BadgerEventStore) (persisted : badger.entries) : Process :=
  {| store := b; gob_registry := gob.basics; disk := persisted |}.

Definition with_db (p : Process) (d : option badger.DB) : Process :=
  {| store :=
       {| RootDir := RootDir (store p); MemoryOnly := MemoryOnly (store p);
          EncryptionKey := EncryptionKey (store p);
          EncryptionRotationDuration := EncryptionRotationDuration (store p);
          db := d; typeRegistery := typeRegistery (store p) |};
     gob_registry := gob_registry p; disk := disk p |}.

Definition with_disk (p : Process) (l : badger.entries) : Process :=
  {| store := store p; gob_registry := gob_registry p; disk := l |}.

(** The options [kvstore] builds. *)
Definition options (b : BadgerEventStore) : badger.Options :=
  let opts := badger.WithInMemory (MemoryOnly b) (badger.DefaultOptions (RootDir b)) in
  if (128 <=? Z.of_nat (String.length (EncryptionKey b))) then
    badger.WithIndexCacheSize 104857600
      (badger.WithEncryptionKeyRotationDuration (EncryptionRotationDuration b)
         (badger.WithEncryptionKey (EncryptionKey b) opts))
  else opts.

(** [badger.Open]: an in-memory engine starts empty, any other starts from
    what is persisted. *)
Definition badger_Open `{Collaborators} (o : badger.Options)
    (persisted : badger.entries) : badger.DB + error :=
  match open_error o with
  | Some e => inr e
  | None =>
      inl {| badger.opts := o;
             badger.data := if badger.InMemory o then [] else persisted |}
  end.

(** [db.Update(func(txn) error { return txn.Set(key, value) })]. *)
Definition badger_Update_Set `{Collaborators} (d : badger.DB) (key value : string)
    : badger.DB + error :=
  match set_error key value with
  | Some e => inr e
  | None => inl {| badger.opts := badger.opts d;
                   badger.data := badger.set key value (badger.data d) |}
  end.

(** [kvstore]: the handle, opened on first use. *)
Definition kvstore `{Collaborators} (p : Process) : Process * (badger.DB + error) :=
  match db (store p) with
  | Some d => (p, inl d)
  | None =>
      match badger_Open (options (store p)) (disk p) with
      | inr err => (p, inr err)
      | inl d => (with_db p (Some d), inl d)
      end
  end.

(** [Append] at clock reading [now]. *)
Definition Append `{Collaborators} (now : Time) (aggregate : string)
    (content : GoValue) (p : Process) : Process * outcome (option error) :=
  match NewId now with
  | Panics msg => (p, Panics msg)
  | Returns id =>
      match gob.Encode (gob_registry p) content with
      | inr err => (p, Returns (Some err))
      | inl c =>
          let record := {| Id := id; Timestamp := now;
                           Type_ := typeName content; Content := c |} in
          match ulid.MarshalText (Id record) with
          | (_, Some err) => (p, Returns (Some err))
          | (k, None) =>
              let key := Key.make aggregate k in
              match json_Marshal record with
              | inr err => (p, Returns (Some err))
              | inl value =>
                  match kvstore p with
                  | (p1, inr err) => (p1, Returns (Some err))
                  | (p1, inl d) =>
                      match badger_Update_Set d key value with
                      | inr err => (p1, Returns (Some err))
                      | inl d' => (with_db p1 (Some d'), Returns None)
                      end
                  end
              end
          end
      end
  end.

(** [Register]: [gob.Register(t)] files the type with [encoding/gob], the
    store's own map takes it under its printed name. *)
Definition Register (t : GoValue) (p : Process) : Process :=
  let name := typeName t in
  {| store :=
       {| RootDir := RootDir (store p); MemoryOnly := MemoryOnly (store p);
          EncryptionKey := EncryptionKey (store p);
          EncryptionRotationDuration := EncryptionRotationDuration (store p);
          db := db (store p);
          typeRegistery := <[name := reflect.TypeOf t]> (typeRegistery (store p)) |};
     gob_registry := gob_registry p ∪ {[ reflect.TypeOf t ]};
     disk := disk p |}.

(** [makeInstance]. *)
Definition makeInstance (b : BadgerEventStore) (name : string) : outcome GoValue :=
  reflect.New_Elem_Interface (typeRegistery b !! name).

(** The function [Read] passes to [item.Value]. *)
Definition decode_item `{Collaborators} (p : Process) (val : string)
    (values : list GoValue) : outcome (list GoValue * option error) :=
  match json_Unmarshal val with
  | inr err => Returns (values, Some err)
  | inl record =>
      match makeInstance (store p) (Type_ record) with
      | Panics msg => Panics msg
      | Returns v =>
          match gob.Decode (gob_registry p) (Content record) v with
          | inr err => Returns (values, Some err)
          | inl v' => Returns (values ++ [v'], None)
          end
      end
  end.

(** [item.Value(fn)]. *)
Definition item_Value `{Collaborators} {A : Type} (item : string * string)
    (fn : string -> A -> outcome (A * option error)) (acc : A)
    : outcome (A * option error) :=
  match value_error (fst item) with
  | Some e => Returns (acc, Some e)
  | None => fn (snd item) acc
  end.

(** [Read]. *)
Definition Read `{Collaborators} (aggregate : string) (p : Process)
    : Process * outcome (list GoValue * option error) :=
  match kvstore p with
  | (p1, inr err) => (p1, Returns ([], Some err))
  | (p1, inl d) =>
      let prefix := Key.with_sep aggregate in
      match
        badger.iterate (badger.ValidForPrefix prefix)
          (fun item values => item_Value item (decode_item p1) values)
          (badger.Seek prefix (badger.data d)) []
      with
      | Panics msg => (p1, Panics msg)
      | Returns (_, Some err) => (p1, Returns ([], Some err))
      | Returns (values, None) => (p1, Returns (values, None))
      end
  end.

(** The loop body of both key listings. *)
Definition collect_key (item : string * string) (keys : list string)
    : outcome (list string * option error) :=
  Returns (keys ++ [fst item], None).

(** [ListKeys]. *)
Definition ListKeys `{Collaborators} (p : Process)
    : Process * outcome (list string * option error) :=
  match kvstore p with
  | (p1, inr err) => (p1, Returns ([], Some err))
  | (p1, inl d) =>
      match badger.iterate (fun _ => true) collect_key (badger.data d) [] with
      | Panics msg => (p1, Panics msg)
      | Returns (_, Some err) => (p1, Returns ([], Some err))
      | Returns (keys, None) => (p1, Returns (keys, None))
      end
  end.

(** [ListKeysForAggregate]. *)
Definition ListKeysForAggregate `{Collaborators} (aggregate : string) (p : Process)
    : Process * outcome (list string * option error) :=
  let prefix := Key.with_sep aggregate in
  match kvstore p with
  | (p1, inr err) => (p1, Returns ([], Some err))
  | (p1, inl d) =>
      match
        badger.iterate (badger.ValidForPrefix prefix) collect_key
          (badger.Seek prefix (badger.data d)) []
      with
      | Panics msg => (p1, Panics msg)
      | Returns (_, Some err) => (p1, Returns ([], Some err))
      | Returns (keys, None) => (p1, Returns (keys, None))
      end
  end.

(** [Close]: a handle that closes without error is dropped; what an engine
    on disk held stays persisted, what an in-memory engine held is gone. *)
Definition Close `{Collaborators} (p : Process) : Process * outcome (option error) :=
  match db (store p) with
  | Some d =>
      match close_error (badger.opts d) with
      | Some err => (p, Returns (Some err))
      | None =>
          (with_db
             (with_disk p (if badger.InMemory (badger.opts d) then disk p
                           else badger.data d))
             None,
           Returns None)
      end
  | None => (p, Returns None)
  end.

(** ** Runs, invariants and assumptions on the collaborators *)

(** One [Append] call: the clock reading it takes, and its arguments. *)
Record Appended : Type := mkAppended {
  at_time : Time;
  to_aggregate : string;
  content_of : GoValue
}.

(** A run of [Append] calls, in order: the process it leaves and what each
    call returned. *)
Fixpoint run `{Collaborators} (events : list Appended) (p : Process)
    : Process * list (outcome (option error)) :=
  match events with
  | [] => (p, [])
  | e :: rest =>
      let (q, r) := Append (at_time e) (to_aggregate e) (content_of e) p in
      let (q', rs) := run rest q in
      (q', r :: rs)
  end.

(** The values a run appends to [aggregate], in order. *)
Definition appended_to (aggregate : string) (events : list Appended) : list GoValue :=
  List.map content_of
    (List.filter (fun e => String.eqb (to_aggregate e) aggregate) events).

Definition keys (l : badger.entries) : list string := List.map fst l.

Definition sorted (l : badger.entries) : Prop := StronglySorted Key.lt (keys l).

(** What the engine holds for the store: the open handle's entries, or
    what the next [badger.Open] would start from. *)
Definition contents (p : Process) : badger.entries :=
  match db (store p) with
  | Some d => badger.data d
  | None => if MemoryOnly (store p) then [] else disk p
  end.

(** The records of an aggregate: the entries whose key carries its prefix. *)
Definition records_of (aggregate : string) (p : Process) : badger.entries :=
  List.filter (badger.ValidForPrefix (Key.with_sep aggregate)) (contents p).

(** States the operations keep to: the engine's order on keys, a handle
    opened with the store's options, and every type of the store's registry
    known to [encoding/gob]. *)
Definition wf (p : Process) : Prop :=
  sorted (disk p)
  /\ (forall d, db (store p) = Some d ->
        sorted (badger.data d) /\ badger.opts d = options (store p))
  /\ (forall name type, typeRegistery (store p) !! name = Some type ->
        type ∈ gob_registry p).

(** The type of [v] went through [Register]: [encoding/gob] knows it, and
    the store's registry has an entry under its printed name (of this type,
    or of a type registered later that prints alike). *)
Definition registered (v : GoValue) (p : Process) : Prop :=
  reflect.TypeOf v ∈ gob_registry p
  /\ is_Some (typeRegistery (store p) !! typeName v).

(** Clock readings whose millisecond count fits the identifier: from the
    epoch up to the year 10889. *)
Definition in_range (t : Time) : Prop := 0 <= t < 281474976710656 * 1000000.

(** The millisecond of a clock reading. *)
Definition millis (t : Time) : Z := t / 1000000.

(** The engine and the envelope codec do not fail. *)
Definition no_faults `{Collaborators} : Prop :=
  (forall o, open_error o = None)
  /\ (forall k v, set_error k v = None)
  /\ (forall k, value_error k = None)
  /\ (forall r, exists b, json_Marshal r = inl b).

(** [encoding/gob] can transmit the value: it refuses none of its types. *)
Definition encodable (v : GoValue) : Prop := wire.refused v = None.

(** The identifier [NewId] returns for a clock reading when it returns. *)
Definition identifier `{Collaborators} (t : Time) : ulid.ULID :=
  ulid.of_parts (ulid.Timestamp t) (rand_Read10 (GoTime.UnixNano t)).

(** ** The operations in parts *)

(** The process once [kvstore] holds a handle on entries [l]. *)
Definition opened (p : Process) (l : badger.entries) : Process :=
  with_db p (Some {| badger.opts := options (store p); badger.data := l |}).

(** The first half of [Append]: the key and the value it is about to
    write, or the error or panic that ends the call before the engine is
    touched. *)
Definition envelope `{Collaborators} (now : Time) (aggregate : string)
    (content : GoValue) (p : Process) : outcome (string * string + error) :=
  match NewId now with
  | Panics msg => Panics msg
  | Returns id =>
      match gob.Encode (gob_registry p) content with
      | inr err => Returns (inr err)
      | inl c =>
          match json_Marshal {| Id := id; Timestamp := now;
                                Type_ := typeName content; Content := c |} with
          | inr err => Returns (inr err)
          | inl value => Returns (inl (Key.make aggregate (ulid.text id), value))
          end
      end
  end.

(** The second half of [Append]: the handle, then the write. *)
Definition write `{Collaborators} (key value : string) (p : Process)
    : Process * option error :=
  match kvstore p with
  | (p1, inr err) => (p1, Some err)
  | (p1, inl d) =>
      match badger_Update_Set d key value with
      | inr err => (p1, Some err)
      | inl d' => (with_db p1 (Some d'), None)
      end
  end.

(** What a transaction sees: the entries of the handle [kvstore] yields. *)
Definition view `{Collaborators} (p : Process) : badger.entries + error :=
  match snd (kvstore p) with
  | inr err => inr err
  | inl d => inl (badger.data d)
  end.

(** The loop of [Read] over the entries it visits. *)
Definition decode_all `{Collaborators} (p : Process) (items : badger.entries)
    : outcome (list GoValue * option error) :=
  badger.iterate (fun _ => true)
    (fun item values => item_Value item (decode_item p) values) items [].

(** What [Read] and the listings return from what their loop left. *)
Definition returned {A : Type} (r : outcome (list A * option error))
    : outcome (list A * option error) :=
  match r with
  | Panics msg => Panics msg
  | Returns (_, Some err) => Returns ([], Some err)
  | Returns (values, None) => Returns (values, None)
  end.

(** A call [Append] can serve: a clock reading in range and a value of a
    type the store registered that [encoding/gob] can transmit. *)
Definition admissible (p : Process) (e : Appended) : Prop :=
  in_range (at_time e)
  /\ registered (content_of e) p
  /\ encodable (content_of e).

(** No two calls of the run give one aggregate the same identifier. *)
Definition distinct `{Collaborators} (events : list Appended) : Prop :=
  NoDup (List.map (fun e => (to_aggregate e, identifier (at_time e))) events).

(** The key a call writes under. *)
Definition key_of `{Collaborators} (e : Appended) : string :=
  Key.make (to_aggregate e) (ulid.text (identifier (at_time e))).

(** The values of a run as [Read] hands them back. *)
Definition read_back (aggregate : string) (events : list Appended)
    : list GoValue :=
  List.map wire.received (appended_to aggregate events).

(** The clock readings of a run fall in strictly increasing milliseconds. *)
Definition ticking (events : list Appended) : Prop :=
  StronglySorted (fun e1 e2 => millis (at_time e1) < millis (at_time e2)) events.

(** The stored entry is the envelope of the value. *)
Definition decodes_to `{Collaborators} (item : string * string) (v : GoValue)
    : Prop :=
  exists r, json_Marshal r = inl (snd item)
            /\ encodable v
            /\ Content r = gob_marshal v
            /\ Type_ r = typeName v.

(** Every key of [l] that carries the prefix of [aggregate] lies below the
    keys that aggregate gets from millisecond [lo] on. *)
Definition below (aggregate : string) (lo : Z) (l : badger.entries) : Prop :=
  forall x, In x (keys l) ->
    String.prefix (Key.with_sep aggregate) x = true ->
    Key.lt x (Key.make aggregate (ulid.text (lo * 2 ^ 80))).

(** Every key of [l] ends in an identifier from before millisecond [lo]. *)
Definition stamped (lo : Z) (l : badger.entries) : Prop :=
  forall x, In x (keys l) ->
    exists b id, x = Key.make b (ulid.text id) /\ 0 <= id < lo * 2 ^ 80.

(** ** An instance of the collaborators *)

(** A generator, two codecs and an engine without failures to run the
    store on: what travels is written as the binary digits of its code. *)
Module Sample.

Fixpoint bits_of_pos (q : positive) : string :=
  match q with
  | xH => EmptyString
  | xO q' => String "0" (bits_of_pos q')
  | xI q' => String "1" (bits_of_pos q')
  end.

Fixpoint pos_of_bits (s : string) : option positive :=
  match s with
  | EmptyString => Some xH
  | String c s' =>
      match pos_of_bits s' with
      | None => None
      | Some q =>
          if Ascii.eqb c "0" then Some (xO q)
          else if Ascii.eqb c "1" then Some (xI q)
          else None
      end
  end.

Definition digits {A : Type} `{Countable A} (a : A) : string :=
  bits_of_pos (encode a).

Definition undigits {A : Type} `{Countable A} (s : string) : option A :=
  match pos_of_bits s with
  | Some q => decode q
  | None => None
  end.

Definition undigits_digits {A : Type} `{Countable A} (a : A) :
  undigits (digits a) = Some a.
Proof.
  assert (Hbits : forall q, pos_of_bits (bits_of_pos q) = Some q).
  { induction q as [q IH|q IH|]; simpl; [rewrite IH..|]; reflexivity. }
  unfold undigits, digits. rewrite Hbits. apply decode_encode.
Qed.

(** The sample gob: the exported part of the value, the names of its
    types included. *)
Definition marshal_value (v : GoValue) : string := digits (wire.received v).

Definition unmarshal_value (s : string) : GoValue + error :=
  match undigits (A := GoValue) s with
  | Some v => inl v
  | None => inr "gob: unexpected data"
  end.

Definition marshal_record (r : Record_) : string + error :=
  inl (digits (Id r, Timestamp r, Type_ r, Content r)).

Definition unmarshal_record (s : string) : Record_ + error :=
  match undigits (A := Z * Z * string * string) s with
  | Some (i, t, ty, c) => inl {| Id := i; Timestamp := t; Type_ := ty; Content := c |}
  | None => inr "json: invalid input"
  end.

Definition generator (seed : Z) : Z :=
  (seed * 6364136223846793005 + 1442695040888963407) mod 2 ^ 80.

#[global, refine] Instance collaborators : Collaborators := {|
  rand_Read10 := generator;
  gob_marshal := marshal_value;
  gob_unmarshal := unmarshal_value;
  json_Marshal := marshal_record;
  json_Unmarshal := unmarshal_record;
  open_error := fun _ => None;
  set_error := fun _ _ => None;
  value_error := fun _ => None;
  close_error := fun _ => None
|}.
Proof.
  - intros seed. unfold generator. apply Z.mod_pos_bound. reflexivity.
  - intros v _. unfold unmarshal_value, marshal_value.
    rewrite undigits_digits. reflexivity.
  - intros [i t ty c] b Hr. unfold marshal_record in Hr. simpl in Hr.
    inversion Hr; subst. unfold unmarshal_record.
    rewrite undigits_digits. reflexivity.
Defined.

(** The payload type of the package's tests. *)
Definition Test (value : Z) : GoValue :=
  GoStruct "github.com/bloritsch/eventstore" "eventstore.Test"
    [("Value"%string, GoInt value)].



End Sample.

(** ** Collaborators that fail *)

(** The sample generator and codecs over an engine whose failures are
    given. *)
Module Faults.

Definition collaborators (on_open : badger.Options -> option error)
    (on_set : string -> string -> option error)
    (on_value : string -> option error)
    (on_close : badger.Options -> option error) : Collaborators :=
  {| rand_Read10 := Sample.generator;
     rand_Read10_bytes := @rand_Read10_bytes Sample.collaborators;
     gob_marshal := Sample.marshal_value;
     gob_unmarshal := Sample.unmarshal_value;
     gob_roundtrip := @gob_roundtrip Sample.collaborators;
     json_Marshal := Sample.marshal_record;
     json_Unmarshal := Sample.unmarshal_record;
     json_roundtrip := @json_roundtrip Sample.collaborators;
     open_error := on_open;
     set_error := on_set;
     value_error := on_value;
     close_error := on_close |}.

(** An engine that cannot be opened, and one that cannot be closed. *)
Definition no_open : Collaborators :=
  collaborators (fun _ => Some "open: directory is locked"%string)
    (fun _ _ => None) (fun _ => None) (fun _ => None).

Definition no_close : Collaborators :=
  collaborators (fun _ => None) (fun _ _ => None) (fun _ => None)
    (fun _ => Some "close: value log is busy"%string).

(** An engine that refuses every write. *)
Definition no_set : Collaborators :=
  collaborators (fun _ => None)
    (fun _ _ => Some "set: transaction conflict"%string)
    (fun _ => None) (fun _ => None).

End Faults.

(** ** Histories *)

(** [Register] for each value of a list, in order. *)
Definition register_all (ts : list GoValue) (p : Process) : Process :=
  fold_left (fun q t => Register t q) ts p.

(** One call of a method of the store, at any arguments and clock reading. *)
Inductive step `{Collaborators} : Process -> Process -> Prop :=
| step_Register (t : GoValue) (p : Process) :
    step p (Register t p)
| step_Append (now : Time) (aggregate : string) (content : GoValue)
    (p : Process) :
    step p (fst (Append now aggregate content p))
| step_Read (aggregate : string) (p : Process) :
    step p (fst (Read aggregate p))
| step_ListKeys (p : Process) :
    step p (fst (ListKeys p))
| step_ListKeysForAggregate (aggregate : string) (p : Process) :
    step p (fst (ListKeysForAggregate aggregate p))
| step_Close (p : Process) :
    step p (fst (Close p)).

(** The states a process gets to from a store made by [MemoryStore] or
    [FileStore], over whatever the engine holds in order under its
    directory. *)
Inductive reachable `{Collaborators} : Process -> Prop :=
| reachable_MemoryStore (persisted : badger.entries) :
    sorted persisted -> reachable (start MemoryStore persisted)
| reachable_FileStore (path key : string) (rotationDur : Z)
    (persisted : badger.entries) :
    sorted persisted ->
    reachable (start (FileStore path key rotationDur) persisted)
| reachable_step (p q : Process) :
    reachable p -> step p q -> reachable q.

(** ** The package's tests ([badgerstore_test.go]) *)

Module reflect_DeepEqual.

(** [reflect.DeepEqual] on two values behind [interface{}]: the same
    dynamic type and equal contents. *)
Fixpoint eqb (a b : GoValue) : bool :=
  match a, b with
  | GoInt n, GoInt m => Z.eqb n m
  | GoString x, GoString y => String.eqb x y
  | GoStruct pa ta fa, GoStruct pb tb fb =>
      String.eqb pa pb && String.eqb ta tb
      && (fix fields (fa fb : list (string * GoValue)) : bool :=
            match fa, fb with
            | [], [] => true
            | (na, va) :: fa', (nb, vb) :: fb' =>
                String.eqb na nb && eqb va vb && fields fa' fb'
            | _, _ => false
            end) fa fb
  | _, _ => false
  end.

End reflect_DeepEqual.

Module Tests.

(** What a test reports through [t.Error] and [t.Errorf]. *)
Inductive failure : Type :=
| Error_ (err : error)
| Failed_append (err : error)
| Incorrect_number (n : nat)
| Unexpected_content (expected received : GoValue)
| Error_keys (ks : list string) (err : option error).

(** The deferred function of both tests: [store.Close()], its error
    reported. *)
Definition deferred_Close `{Collaborators} (p : Process)
    (failures : list failure) : list failure :=
  match snd (Close p) with
  | Returns (Some err) => failures ++ [Error_ err]
  | _ => failures
  end.

(** [TestBadgerEventStore_Append], with the clock reading its [Append]
    takes: the failures it reports, or the panic that ends it (indexing
    [results[0]] on an empty result included). *)
Definition TestBadgerEventStore_Append `{Collaborators} (now : Time)
    : outcome (list failure) :=
  let p0 := Register (Sample.Test 0) (start MemoryStore []) in
  let fact := "test.1"%string in
  let content := Sample.Test 1 in
  match Append now fact content p0 with
  | (_, Panics msg) => Panics msg
  | (p1, Returns err) =>
      let f1 := match err with Some e => [Error_ e] | None => [] end in
      match Read fact p1 with
      | (_, Panics msg) => Panics msg
      | (p2, Returns (_, Some e)) => Returns (deferred_Close p2 (f1 ++ [Error_ e]))
      | (p2, Returns (results, None)) =>
          let f2 := if Nat.eqb (length results) 1 then f1
                    else f1 ++ [Incorrect_number (length results)] in
          match results with
          | [] => Panics "index out of range [0] with length 0"
          | r0 :: _ =>
              let f3 := if reflect_DeepEqual.eqb r0 content then f2
                        else f2 ++ [Unexpected_content content r0] in
              Returns (deferred_Close p2 f3)
          end
      end
  end.

(** One of the two loops of [TestBadgerEventStore_AppendWithMultipleFacts]:
    [Append] of [Test{Value: i}] for each [i], until one returns an error.
    [calls] counts the clock readings taken so far. *)
Fixpoint append_loop `{Collaborators} (clock : nat -> Time) (fact : string)
    (values : list Z) (calls : nat) (p : Process) (failures : list failure)
    : outcome (Process * nat * list failure) :=
  match values with
  | [] => Returns (p, calls, failures)
  | i :: rest =>
      match Append (clock calls) fact (Sample.Test i) p with
      | (_, Panics msg) => Panics msg
      | (q, Returns (Some err)) =>
          Returns (q, S calls, failures ++ [Failed_append err])
      | (q, Returns None) => append_loop clock fact rest (S calls) q failures
      end
  end.

(** [Read] of a fact and the check of the number of its events, with the
    keys of the fact reported when the number is wrong. *)
Definition check_count `{Collaborators} (fact : string) (expected : nat)
    (p : Process) (failures : list failure)
    : outcome (Process * list failure) :=
  match Read fact p with
  | (_, Panics msg) => Panics msg
  | (p1, Returns (results, err)) =>
      let f1 := match err with
                | Some e => failures ++ [Error_ e]
                | None => failures
                end in
      if Nat.eqb (length results) expected then Returns (p1, f1)
      else
        match ListKeysForAggregate fact p1 with
        | (_, Panics msg) => Panics msg
        | (p2, Returns (ks, e)) =>
            Returns (p2, f1 ++ [Error_keys ks e;
                                Incorrect_number (length results)])
        end
  end.

(** What the second test leaves: its failures and the keys it prints. *)
Record report : Type := mkReport {
  failures : list failure;
  printed : list string
}.

(** [TestBadgerEventStore_AppendWithMultipleFacts], with the clock reading
    the n-th [Append] takes. *)
Definition TestBadgerEventStore_AppendWithMultipleFacts `{Collaborators}
    (clock : nat -> Time) : outcome report :=
  let p0 := Register (Sample.Test 0) (start MemoryStore []) in
  match append_loop clock "test.1" [0; 1; 2] 0 p0 [] with
  | Panics msg => Panics msg
  | Returns (p1, calls, f1) =>
      match append_loop clock "test.2" [0; 1; 2; 3; 4; 5; 6; 7; 8] calls p1 f1 with
      | Panics msg => Panics msg
      | Returns (p2, _, f2) =>
          match check_count "test.1" 3 p2 f2 with
          | Panics msg => Panics msg
          | Returns (p3, f3) =>
              match check_count "test.2" 9 p3 f3 with
              | Panics msg => Panics msg
              | Returns (p4, f4) =>
                  match ListKeys p4 with
                  | (_, Panics msg) => Panics msg
                  | (p5, Returns (ks, err)) =>
                      let f5 := match err with
                                | Some e => f4 ++ [Error_ e]
                                | None => f4
                                end in
                      Returns {| failures := deferred_Close p5 f5;
                                 printed := ks |}
                  end
              end
          end
      end
  end.

(** The value of the last call of a loop over [i :: values]. *)
Fixpoint last_value (i : Z) (values : list Z) : Z :=
  match values with
  | [] => i
  | j :: rest => last_value j rest
  end.

(** The calls a loop makes when none of them fails. *)
Fixpoint loop_events (clock : nat -> Time) (fact : string) (values : list Z)
    (calls : nat) : list Appended :=
  match values with
  | [] => []
  | i :: rest =>
      mkAppended (clock calls) fact (Sample.Test i)
      :: loop_events clock fact rest (S calls)
  end.

End Tests.

(** ** The store without a type registry ([badgerstore.go]) *)

(** The variant of the store whose envelope holds the value itself and
    travels as one gob, and whose [Append] sleeps a millisecond after its
    write. It reads the clock of the process, which is part of the state
    here: [time.Now()] is the reading, [time.Sleep] moves it on. *)
Module Legacy.

Record Record_ : Type := mkRecord {
  Id : ulid.ULID;
  Timestamp : Time;
  Content : GoValue
}.

(** The envelope as it is received: [Id] and [Timestamp] as sent, the
    value behind [Content] as [encoding/gob] rebuilds it. *)
Definition received (r : Record_) : Record_ :=
  {| Id := Id r; Timestamp := Timestamp r;
     Content := wire.received (Content r) |}.

(** [encoding/gob] on the envelope, its interface field included: the
    bytes written, and what bytes decode to. *)
Class Codec : Type := {
  gob_marshal_record : Record_ -> string;
  gob_unmarshal_record : string -> Record_ + error;
  gob_record_roundtrip :
    forall r, wire.refused (Content r) = None ->
      gob_unmarshal_record (gob_marshal_record r) = inl (received r)
}.

(** [enc.Encode(record)]: the field [Content] travels as an interface
    value, which needs its concrete type in the registry; then the encoder
    compiles the type. *)
Definition Encode `{Codec} (registry : gset reflect.Type_) (record : Record_)
    : string + error :=
  if decide (reflect.TypeOf (Content record) ∈ registry) then
    match wire.refused (Content record) with
    | Some type => inr ("gob: type " +:+ type +:+ " has no exported fields")
    | None => inl (gob_marshal_record record)
    end
  else inr ("gob: type not registered for interface: "
            +:+ typeName (Content record)).

(** [dec.Decode(&record)]. *)
Definition Decode `{Codec} (registry : gset reflect.Type_) (val : string)
    : Record_ + error :=
  match gob_unmarshal_record val with
  | inl r =>
      if decide (reflect.TypeOf (Content r) ∈ registry) then inl r
      else inr ("gob: name not registered for interface: "
                +:+ gob.quoted (wire.name (Content r)))
  | inr e => inr e
  end.

Record BadgerEventStore : Type := mkStore {
  db : option badger.DB
}.

(** The process: the store, the registry of [encoding/gob], and the
    reading of the wall clock. *)
Record Process : Type := mkProcess {
  store : BadgerEventStore;
  gob_registry : gset reflect.Type_;
  wall : Time
}.

Definition MemoryStore : BadgerEventStore := {| db := None |}.

Definition start (b : BadgerEventStore) (now : Time) : Process :=
  {| store := b; gob_registry := gob.basics; wall := now |}.

Definition with_db (p : Process) (d : option badger.DB) : Process :=
  {| store := {| db := d |}; gob_registry := gob_registry p; wall := wall p |}.

(** Time that passes: by [time.Sleep(d)], or between two calls. *)
Definition elapse (d : Z) (p : Process) : Process :=
  {| store := store p; gob_registry := gob_registry p; wall := wall p + d |}.

(** [Register]. *)
Definition Register (t : GoValue) (p : Process) : Process :=
  {| store := store p;
     gob_registry := gob_registry p ∪ {[ reflect.TypeOf t ]};
     wall := wall p |}.

(** [Record{}], of which [Register] takes the type; its fields are not
    values of the model and are left out. *)
Definition zero_Record : GoValue :=
  GoStruct "github.com/bloritsch/eventstore" "eventstore.Record" [].

(** [kvstore]: on first use it registers the envelope type, then opens an
    in-memory engine. *)
Definition kvstore `{Collaborators} (p : Process)
    : Process * (badger.DB + error) :=
  match db (store p) with
  | Some d => (p, inl d)
  | None =>
      let opts := badger.WithInMemory true (badger.DefaultOptions "") in
      let p' := Register zero_Record p in
      match badger_Open opts [] with
      | inr err => (p', inr err)
      | inl d => (with_db p' (Some d), inl d)
      end
  end.

(** [Append]. *)
Definition Append `{Collaborators} `{Codec} (aggregate : string)
    (content : GoValue) (p : Process) : Process * outcome (option error) :=
  let now := wall p in
  match NewId now with
  | Panics msg => (p, Panics msg)
  | Returns id =>
      let record := {| Id := id; Timestamp := now; Content := content |} in
      match ulid.MarshalText (Id record) with
      | (_, Some err) => (p, Returns (Some err))
      | (k, None) =>
          let key := Key.make aggregate k in
          match Encode (gob_registry p) record with
          | inr err => (p, Returns (Some err))
          | inl value =>
              match kvstore p with
              | (p1, inr err) => (p1, Returns (Some err))
              | (p1, inl d) =>
                  match badger_Update_Set d key value with
                  | inr err => (p1, Returns (Some err))
                  | inl d' =>
                      (elapse 1000000 (with_db p1 (Some d')), Returns None)
                  end
              end
          end
      end
  end.

(** The function [Read] passes to [item.Value]. *)
Definition decode_item `{Codec} (p : Process) (val : string)
    (values : list GoValue) : outcome (list GoValue * option error) :=
  match Decode (gob_registry p) val with
  | inr err => Returns (values, Some err)
  | inl record => Returns (values ++ [Content record], None)
  end.

(** [Read]. *)
Definition Read `{Collaborators} `{Codec} (aggregate : string) (p : Process)
    : Process * outcome (list GoValue * option error) :=
  match kvstore p with
  | (p1, inr err) => (p1, Returns ([], Some err))
  | (p1, inl d) =>
      let prefix := Key.with_sep aggregate in
      match
        badger.iterate (badger.ValidForPrefix prefix)
          (fun item values => item_Value item (decode_item p1) values)
          (badger.Seek prefix (badger.data d)) []
      with
      | Panics msg => (p1, Panics msg)
      | Returns (_, Some err) => (p1, Returns ([], Some err))
      | Returns (values, None) => (p1, Returns (values, None))
      end
  end.

(** [ListKeys]. *)
Definition ListKeys `{Collaborators} (p : Process)
    : Process * outcome (list string * option error) :=
  match kvstore p with
  | (p1, inr err) => (p1, Returns ([], Some err))
  | (p1, inl d) =>
      match badger.iterate (fun _ => true) collect_key (badger.data d) [] with
      | Panics msg => (p1, Panics msg)
      | Returns (_, Some err) => (p1, Returns ([], Some err))
      | Returns (keys, None) => (p1, Returns (keys, None))
      end
  end.

(** [ListKeysForAggregate]; its sleep inside the transaction moves the
    clock on as well. *)
Definition ListKeysForAggregate `{Collaborators} (aggregate : string)
    (p : Process) : Process * outcome (list string * option error) :=
  let prefix := Key.with_sep aggregate in
  match kvstore p with
  | (p1, inr err) => (p1, Returns ([], Some err))
  | (p1, inl d) =>
      match
        badger.iterate (badger.ValidForPrefix prefix) collect_key
          (badger.Seek prefix (badger.data d)) []
      with
      | Panics msg => (p1, Panics msg)
      | Returns (_, Some err) => (elapse 1000000 p1, Returns ([], Some err))
      | Returns (keys, None) => (elapse 1000000 p1, Returns (keys, None))
      end
  end.

(** [Close]. *)
Definition Close `{Collaborators} (p : Process)
    : Process * outcome (option error) :=
  match db (store p) with
  | Some d =>
      match close_error (badger.opts d) with
      | Some err => (p, Returns (Some err))
      | None => (with_db p None, Returns None)
      end
  | None => (p, Returns None)
  end.

(** One call of [Append], after [delay] has passed on the clock. *)
Record Call : Type := mkCall {
  delay : Z;
  to_aggregate : string;
  content_of : GoValue
}.

Fixpoint run `{Collaborators} `{Codec} (calls : list Call) (p : Process)
    : Process * list (outcome (option error)) :=
  match calls with
  | [] => (p, [])
  | c :: rest =>
      let (q, r) := Append (to_aggregate c) (content_of c)
                      (elapse (delay c) p) in
      let (q', rs) := run rest q in
      (q', r :: rs)
  end.

Definition appended_to (aggregate : string) (calls : list Call)
    : list GoValue :=
  List.map content_of
    (List.filter (fun c => String.eqb (to_aggregate c) aggregate) calls).

(** The time a run takes at least: the delays and the sleeps. *)
Definition duration (calls : list Call) : Z :=
  fold_right (fun c t => delay c + 1000000 + t) 0 calls.

(** What the engine holds. *)
Definition contents (p : Process) : badger.entries :=
  match db (store p) with
  | Some d => badger.data d
  | None => []
  end.

Definition records_of (aggregate : string) (p : Process) : badger.entries :=
  List.filter (badger.ValidForPrefix (Key.with_sep aggregate)) (contents p).

Definition decodes_to `{Codec} (item : string * string) (v : GoValue) : Prop :=
  exists r, snd item = gob_marshal_record r /\ Content r = v /\ encodable v.

(** The values of a run as [Read] hands them back. *)
Definition read_back (aggregate : string) (calls : list Call) : list GoValue :=
  List.map wire.received (appended_to aggregate calls).

(** The engine does not fail. *)
Definition no_faults `{Collaborators} : Prop :=
  (forall o, open_error o = None)
  /\ (forall k v, set_error k v = None)
  /\ (forall k, value_error k = None).

(** The state once [kvstore] has run and the handle holds [l]. *)
Definition opened (p : Process) (l : badger.entries) : Process :=
  match db (store p) with
  | Some d =>
      with_db p (Some {| badger.opts := badger.opts d; badger.data := l |})
  | None =>
      with_db (Register zero_Record p)
        (Some {| badger.opts :=
                   badger.WithInMemory true (badger.DefaultOptions "");
                 badger.data := l |})
  end.

(** The sample codec of the envelope. *)
Definition sample_marshal (r : Record_) : string :=
  Sample.digits (Id r, Timestamp r, wire.received (Content r)).

Definition sample_unmarshal (s : string) : Record_ + error :=
  match Sample.undigits (A := Z * Z * GoValue) s with
  | Some (i, t, v) => inl {| Id := i; Timestamp := t; Content := v |}
  | None => inr "gob: unexpected data"
  end.

#[global, refine] Instance sample_codec : Codec := {|
  gob_marshal_record := sample_marshal;
  gob_unmarshal_record := sample_unmarshal
|}.
Proof.
  intros [i t v] _. unfold sample_marshal, sample_unmarshal.
  rewrite Sample.undigits_digits. reflexivity.
Defined.

End Legacy.

(** The store of the package's tests, after [store.Register(Test{})], and
    a clock reading (2021-01-01T00:00:00Z). *)
Definition sample_start : Process :=
  Register (Sample.Test 0) (start MemoryStore []).

Definition sample_clock : Time := 1609459200000000000.

(** The variant's store after [Register(Test{})], its clock at the sample
    reading. *)
Definition legacy_sample_start : Legacy.Process :=
  Legacy.Register (Sample.Test 0) (Legacy.start Legacy.MemoryStore sample_clock).

(** * Properties *)

(** ** The order on keys *)

Lemma app_cons (c : ascii) (p a : string) :
  String c p +:+ a = String c (p +:+ a).
Proof. reflexivity. Qed.

Lemma app_nil_l (a : string) : EmptyString +:+ a = a.
Proof. reflexivity. Qed.

Lemma app_assoc_s (a b c : string) : (a +:+ b) +:+ c = a +:+ (b +:+ c).
Proof.
  induction a as [|x a IH]; [reflexivity|].
  rewrite !app_cons, IH. reflexivity.
Qed.

Lemma ascii_compare_refl (c : ascii) : Ascii.compare c c = Eq.
Proof. unfold Ascii.compare. apply N.compare_refl. Qed.

Lemma compare_refl (s : string) : String.compare s s = Eq.
Proof.
  induction s as [|c s IH]; simpl; [reflexivity|].
  rewrite ascii_compare_refl. exact IH.
Qed.

Lemma lt_irrefl (a : string) : ~ Key.lt a a.
Proof. unfold Key.lt. rewrite compare_refl. discriminate. Qed.

Lemma lt_trans (a b c : string) : Key.lt a b -> Key.lt b c -> Key.lt a c.
Proof.
  unfold Key.lt. revert b c.
  induction a as [|x a IH]; intros [|y b] [|z c]; simpl; try congruence.
  destruct (Ascii.compare x y) eqn:Hxy; try discriminate.
  - apply Ascii.compare_eq_iff in Hxy. subst y.
    destruct (Ascii.compare x z); try congruence. apply IH.
  - intros _. destruct (Ascii.compare y z) eqn:Hyz; try discriminate.
    + apply Ascii.compare_eq_iff in Hyz. subst z. rewrite Hxy. reflexivity.
    + intros _. unfold Ascii.compare in *.
      rewrite N.compare_lt_iff in Hxy, Hyz.
      assert (Hxz : (N_of_ascii x < N_of_ascii z)%N) by lia.
      rewrite <- N.compare_lt_iff in Hxz. rewrite Hxz. reflexivity.
Qed.

Lemma lt_asym (a b : string) : Key.lt a b -> ~ Key.lt b a.
Proof. intros H1 H2. exact (lt_irrefl a (lt_trans _ _ _ H1 H2)). Qed.

Lemma ltb_lt (a b : string) : Key.ltb a b = true <-> Key.lt a b.
Proof.
  unfold Key.ltb, String.ltb, Key.lt.
  destruct (String.compare a b); split; congruence.
Qed.

Lemma compare_app_l (p a b : string) :
  String.compare (p +:+ a) (p +:+ b) = String.compare a b.
Proof.
  induction p as [|c p IH]; [reflexivity|].
  rewrite !app_cons. simpl. rewrite ascii_compare_refl. exact IH.
Qed.

Lemma lt_app_l (p a b : string) : Key.lt a b -> Key.lt (p +:+ a) (p +:+ b).
Proof. unfold Key.lt. rewrite compare_app_l. trivial. Qed.

Lemma prefix_app (p s : string) : String.prefix p (p +:+ s) = true.
Proof.
  induction p as [|c p IH]; [destruct s; reflexivity|].
  rewrite app_cons. simpl. destruct (ascii_dec c c); [exact IH|congruence].
Qed.

Lemma prefix_inv (p k : string) :
  String.prefix p k = true -> exists s, k = p +:+ s.
Proof.
  revert k. induction p as [|c p IH]; intros k Hk.
  - exists k. reflexivity.
  - destruct k as [|x k]; simpl in Hk; [discriminate|].
    destruct (ascii_dec c x) as [->|]; [|discriminate].
    destruct (IH _ Hk) as [s ->]. exists s. reflexivity.
Qed.

(** A key below the prefix does not carry it. *)
Lemma lt_not_prefix (p k : string) : Key.lt k p -> String.prefix p k = false.
Proof.
  intros Hlt. destruct (String.prefix p k) eqn:Hp; [|reflexivity].
  destruct (prefix_inv _ _ Hp) as [s ->]. exfalso.
  unfold Key.lt in Hlt.
  replace p with (p +:+ EmptyString) in Hlt at 2.
  - rewrite compare_app_l in Hlt. destruct s; discriminate.
  - clear. induction p as [|c p IH]; [reflexivity|].
    rewrite app_cons, IH. reflexivity.
Qed.

(** Keys that carry a prefix are contiguous: what lies between the prefix
    and a key that carries it carries it too. *)
Lemma prefix_between (p k0 k1 : string) :
  ~ Key.lt k0 p -> Key.lt k0 k1 -> String.prefix p k1 = true ->
  String.prefix p k0 = true.
Proof.
  unfold Key.lt. revert k0 k1.
  induction p as [|c p IH]; intros k0 k1 Hge Hlt Hp.
  - destruct k0; reflexivity.
  - destruct k1 as [|y k1]; simpl in Hp; [discriminate|].
    destruct (ascii_dec c y) as [<-|]; [|discriminate].
    destruct k0 as [|x k0]; simpl in *; [congruence|].
    destruct (Ascii.compare x c) eqn:Hxc.
    + apply Ascii.compare_eq_iff in Hxc. subst x.
      destruct (ascii_dec c c); [|congruence]. eapply IH; eauto.
    + congruence.
    + discriminate.
Qed.

(** ** The engine's keyspace *)

Lemma sorted_inv (k v : string) (l : badger.entries) :
  sorted ((k, v) :: l) ->
  sorted l /\ (forall x, In x (keys l) -> Key.lt k x).
Proof.
  unfold sorted. simpl. intros Hs. inversion Hs as [|? ? Hl Hall]; subst.
  split; [exact Hl|]. apply List.Forall_forall. exact Hall.
Qed.

Lemma sorted_cons (k v : string) (l : badger.entries) :
  sorted l -> (forall x, In x (keys l) -> Key.lt k x) -> sorted ((k, v) :: l).
Proof.
  unfold sorted. simpl. intros Hl Hall. constructor; [exact Hl|].
  apply List.Forall_forall. exact Hall.
Qed.

Lemma sorted_nil : sorted [].
Proof. unfold sorted. simpl. constructor. Qed.

Lemma keys_set (key value x : string) (l : badger.entries) :
  In x (keys (badger.set key value l)) <-> x = key \/ In x (keys l).
Proof.
  induction l as [|[k v] l IH]; simpl.
  - intuition.
  - destruct (String.compare key k) eqn:Hc; simpl.
    + apply String.compare_eq_iff in Hc. subst k. intuition.
    + intuition.
    + rewrite IH. intuition.
Qed.

Lemma set_sorted (key value : string) (l : badger.entries) :
  sorted l -> sorted (badger.set key value l).
Proof.
  induction l as [|[k v] l IH]; simpl; intros Hs.
  - apply sorted_cons; [exact sorted_nil|]. simpl. tauto.
  - destruct (sorted_inv _ _ _ Hs) as [Hl Hall].
    destruct (String.compare key k) eqn:Hc.
    + apply String.compare_eq_iff in Hc. subst k. apply sorted_cons; assumption.
    + apply sorted_cons; [exact Hs|]. simpl. intros x [<-|Hx]; [exact Hc|].
      eapply lt_trans; [exact Hc|]. apply Hall, Hx.
    + apply sorted_cons; [apply IH, Hl|]. intros x Hx.
      apply keys_set in Hx. destruct Hx as [->|Hx]; [|apply Hall, Hx].
      unfold Key.lt. rewrite String.compare_antisym, Hc. reflexivity.
Qed.

Lemma length_set_new (key value : string) (l : badger.entries) :
  ~ In key (keys l) -> length (badger.set key value l) = S (length l).
Proof.
  induction l as [|[k v] l IH]; simpl; intros Hn; [reflexivity|].
  destruct (String.compare key k) eqn:Hc; simpl.
  - apply String.compare_eq_iff in Hc. subst k. tauto.
  - reflexivity.
  - rewrite IH; [reflexivity|tauto].
Qed.

Lemma In_set (key value : string) (l : badger.entries) :
  In (key, value) (badger.set key value l).
Proof.
  induction l as [|[k v] l IH]; simpl; [tauto|].
  destruct (String.compare key k); simpl; tauto.
Qed.

Lemma In_set_other (key value k v : string) (l : badger.entries) :
  k <> key -> In (k, v) l -> In (k, v) (badger.set key value l).
Proof.
  intros Hne. induction l as [|[k' v'] l IH]; simpl; [tauto|].
  intros [Heq|Hin].
  - inversion Heq; subst. destruct (String.compare key k) eqn:Hc; simpl; try tauto.
    apply String.compare_eq_iff in Hc. congruence.
  - destruct (String.compare key k'); simpl; tauto.
Qed.

(** Writing a key that a filter on keys rejects leaves the filtered
    entries as they were. *)
Lemma filter_set_other (prefix key value : string) (l : badger.entries) :
  String.prefix prefix key = false ->
  List.filter (badger.ValidForPrefix prefix) (badger.set key value l)
  = List.filter (badger.ValidForPrefix prefix) l.
Proof.
  intros Hk. unfold badger.ValidForPrefix.
  induction l as [|[k v] l IH]; simpl; [rewrite Hk; reflexivity|].
  destruct (String.compare key k) eqn:Hc; simpl.
  - apply String.compare_eq_iff in Hc. subst k. rewrite Hk. reflexivity.
  - rewrite Hk. reflexivity.
  - rewrite IH. reflexivity.
Qed.

(** Writing a key that carries the prefix and lies above every key that
    carries it appends to the filtered entries. *)
Lemma filter_set_last (prefix key value : string) (l : badger.entries) :
  sorted l ->
  String.prefix prefix key = true ->
  (forall x, In x (keys l) -> String.prefix prefix x = true -> Key.lt x key) ->
  List.filter (badger.ValidForPrefix prefix) (badger.set key value l)
  = List.filter (badger.ValidForPrefix prefix) l ++ [(key, value)].
Proof.
  intros Hs Hk. unfold badger.ValidForPrefix.
  induction l as [|[k v] l IH]; simpl; intros Hbelow.
  - rewrite Hk. reflexivity.
  - destruct (sorted_inv _ _ _ Hs) as [Hl Hall].
    destruct (String.compare key k) eqn:Hc; simpl.
    + apply String.compare_eq_iff in Hc. subst k. exfalso.
      apply (lt_irrefl key). apply Hbelow; [left; reflexivity|exact Hk].
    + rewrite Hk.
      assert (Hnone : forall x, In x (keys ((k, v) :: l)) ->
                        String.prefix prefix x = false).
      { intros x Hx. destruct (String.prefix prefix x) eqn:Hpx; [|reflexivity].
        exfalso. specialize (Hbelow x Hx Hpx).
        assert (Hkx : Key.lt key x).
        { destruct Hx as [<-|Hx]; [exact Hc|].
          eapply lt_trans; [exact Hc|apply Hall, Hx]. }
        exact (lt_asym _ _ Hkx Hbelow). }
      rewrite (Hnone k) by (left; reflexivity).
      replace (List.filter (fun item => String.prefix prefix (fst item)) l)
        with (@nil (string * string)); [reflexivity|].
      symmetry. clear - Hnone. induction l as [|[k' v'] l IH]; [reflexivity|].
      simpl. rewrite (Hnone k') by (right; left; reflexivity).
      apply IH. intros x [<-|Hx]; apply Hnone; simpl; tauto.
    + rewrite IH; [|exact Hl|intros x Hx; apply Hbelow; right; exact Hx].
      destruct (String.prefix prefix k); reflexivity.
Qed.

(** On an ordered keyspace the cursor loop from [Seek] while
    [ValidForPrefix] visits exactly the entries whose key carries the
    prefix, in key order. *)
Lemma iterate_from_valid {A : Type} (prefix : string)
    (body : string * string -> A -> outcome (A * option error))
    (l : badger.entries) (acc : A) :
  sorted l ->
  (forall x, In x (keys l) -> ~ Key.lt x prefix) ->
  badger.iterate (badger.ValidForPrefix prefix) body l acc
  = badger.iterate (fun _ => true) body
      (List.filter (badger.ValidForPrefix prefix) l) acc.
Proof.
  revert acc. induction l as [|[k v] l IH]; intros acc Hs Hge; [reflexivity|].
  destruct (sorted_inv _ _ _ Hs) as [Hl Hall]. simpl.
  assert (Hge' : forall x, In x (keys l) -> ~ Key.lt x prefix).
  { intros x Hx. apply Hge. right. exact Hx. }
  destruct (badger.ValidForPrefix prefix (k, v)) eqn:Hv; simpl.
  - destruct (body (k, v) acc) as [[acc' [e|]]|msg]; try reflexivity.
    apply IH; assumption.
  - replace (List.filter (badger.ValidForPrefix prefix) l)
      with (@nil (string * string)); [reflexivity|].
    symmetry. clear IH. induction l as [|[k' v'] l IHl]; [reflexivity|].
    simpl. unfold badger.ValidForPrefix at 1. simpl.
    destruct (String.prefix prefix k') eqn:Hp'.
    + exfalso. unfold badger.ValidForPrefix in Hv. simpl in Hv.
      rewrite (prefix_between prefix k k') in Hv; [discriminate| | |exact Hp'].
      * apply Hge. left. reflexivity.
      * apply Hall. left. reflexivity.
    + destruct (sorted_inv _ _ _ Hl) as [Hl' _]. apply IHl.
      * apply sorted_cons; [exact Hl'|].
        intros x Hx. apply Hall. right. exact Hx.
      * intros x Hx. apply Hge. simpl in *. tauto.
      * exact Hl'.
      * intros x Hx. apply Hall. right. exact Hx.
      * intros x Hx. apply Hge'. right. exact Hx.
Qed.

Lemma iterate_scan {A : Type} (prefix : string)
    (body : string * string -> A -> outcome (A * option error))
    (l : badger.entries) (acc : A) :
  sorted l ->
  badger.iterate (badger.ValidForPrefix prefix) body (badger.Seek prefix l) acc
  = badger.iterate (fun _ => true) body
      (List.filter (badger.ValidForPrefix prefix) l) acc.
Proof.
  induction l as [|[k v] l IH]; intros Hs; [reflexivity|].
  destruct (sorted_inv _ _ _ Hs) as [Hl Hall]. simpl.
  destruct (Key.ltb k prefix) eqn:Hlt.
  - apply ltb_lt in Hlt. unfold badger.ValidForPrefix at 2. simpl.
    rewrite (lt_not_prefix _ _ Hlt). apply IH, Hl.
  - apply iterate_from_valid; [exact Hs|].
    assert (Hk : ~ Key.lt k prefix).
    { intros H. apply ltb_lt in H. congruence. }
    intros x [<-|Hx]; [exact Hk|].
    intros Hx'. apply Hk. eapply lt_trans; [apply Hall, Hx|exact Hx'].
Qed.

Lemma iterate_collect (l : badger.entries) (acc : list string) :
  badger.iterate (fun _ => true) collect_key l acc = Returns (acc ++ keys l, None).
Proof.
  revert acc. induction l as [|[k v] l IH]; intros acc; simpl.
  - rewrite app_nil_r. reflexivity.
  - rewrite IH, <- app_assoc. reflexivity.
Qed.

Lemma keys_filter (prefix : string) (l : badger.entries) :
  keys (List.filter (badger.ValidForPrefix prefix) l)
  = List.filter (String.prefix prefix) (keys l).
Proof.
  induction l as [|[k v] l IH]; [reflexivity|]. simpl.
  unfold badger.ValidForPrefix at 1. simpl.
  destruct (String.prefix prefix k); simpl; rewrite IH; reflexivity.
Qed.

(** ** Identifiers *)

Lemma Timestamp_in_range (t : Time) :
  in_range t -> ulid.Timestamp t = millis t.
Proof.
  unfold in_range, ulid.Timestamp, millis, GoTime.to_uint64, GoTime.Unix,
    GoTime.Nanosecond.
  intros Ht.
  assert (H1 : 0 <= t / 1000000000 < 281474976710656)
    by (split; [apply Z.div_pos; lia|apply Z.div_lt_upper_bound; lia]).
  assert (H2 : 0 <= t mod 1000000000 < 1000000000) by (apply Z.mod_pos_bound; lia).
  assert (H3 : 0 <= t mod 1000000000 / 1000000 < 1000)
    by (split; [apply Z.div_pos; lia|apply Z.div_lt_upper_bound; lia]).
  change (2 ^ 64) with 18446744073709551616.
  rewrite (Z.mod_small (t / 1000000000)) by lia.
  rewrite (Z.mod_small (t mod 1000000000 / 1000000)) by lia.
  rewrite Z.mod_small by lia.
  change 1000000000 with (1000000 * 1000) at 2.
  rewrite Z.rem_mul_r by lia.
  replace (t mod 1000000 + 1000000 * ((t / 1000000) mod 1000))
    with ((t / 1000000) mod 1000 * 1000000 + t mod 1000000) by lia.
  rewrite Z.div_add_l by lia.
  rewrite (Z.div_small (t mod 1000000)) by (apply Z.mod_pos_bound; lia).
  change 1000000000 with (1000000 * 1000).
  rewrite <- Z.div_div by lia.
  pose proof (Z.div_mod (t / 1000000) 1000). lia.
Qed.

Lemma millis_bounds (t : Time) :
  in_range t -> 0 <= millis t <= ulid.MaxTime.
Proof.
  unfold in_range, millis, ulid.MaxTime. intros Ht. split.
  - apply Z.div_pos; lia.
  - assert (t / 1000000 < 281474976710656)
      by (apply Z.div_lt_upper_bound; lia).
    lia.
Qed.

(** Inside the range [NewId] returns: the millisecond of the clock reading
    followed by what the freshly seeded generator yields. *)
Lemma NewId_in_range `{Collaborators} (t : Time) :
  in_range t ->
  NewId t = Returns (ulid.of_parts (millis t) (rand_Read10 (GoTime.UnixNano t))).
Proof.
  intros Ht. unfold NewId. cbv zeta.
  rewrite (Timestamp_in_range t Ht).
  pose proof (millis_bounds t Ht) as Hb.
  destruct (millis t >? ulid.MaxTime) eqn:Hgt; [lia|reflexivity].
Qed.

Lemma NewId_bounds `{Collaborators} (t : Time) (id : ulid.ULID) :
  in_range t -> NewId t = Returns id ->
  millis t * 2 ^ 80 <= id < (millis t + 1) * 2 ^ 80 /\ 0 <= id < 32 ^ 26.
Proof.
  intros Ht Hid. rewrite (NewId_in_range t Ht) in Hid.
  inversion Hid as [Heq]. clear Hid. unfold ulid.of_parts.
  pose proof (rand_Read10_bytes (GoTime.UnixNano t)) as He.
  pose proof (millis_bounds t Ht) as Hb. unfold ulid.MaxTime in Hb.
  change (2 ^ 80) with 1208925819614629174706176 in He |- *.
  change (32 ^ 26) with 1361129467683753853853498429727072845824.
  lia.
Qed.

Lemma identifier_in_range `{Collaborators} (t : Time) :
  in_range t -> NewId t = Returns (identifier t).
Proof.
  intros Ht. rewrite (NewId_in_range t Ht). unfold identifier.
  rewrite (Timestamp_in_range t Ht). reflexivity.
Qed.

Lemma digit_lt (d1 d2 : Z) :
  0 <= d1 < d2 -> d2 < 32 ->
  Ascii.compare (ulid.digit d1) (ulid.digit d2) = Lt.
Proof.
  intros H1 H2.
  assert (Htable :
    forallb (fun i => forallb (fun j =>
      if (i <? j)%nat then
        match Ascii.compare (ulid.digit (Z.of_nat i)) (ulid.digit (Z.of_nat j)) with
        | Lt => true | _ => false end
      else true) (seq 0 32)) (seq 0 32) = true) by (vm_compute; reflexivity).
  rewrite forallb_forall in Htable.
  assert (Hrow := Htable (Z.to_nat d1) ltac:(apply in_seq; lia)).
  rewrite forallb_forall in Hrow.
  assert (Hcell := Hrow (Z.to_nat d2) ltac:(apply in_seq; lia)).
  rewrite !Z2Nat.id in Hcell by lia.
  assert (Hlt : (Z.to_nat d1 <? Z.to_nat d2)%nat = true)
    by (apply Nat.ltb_lt; lia).
  rewrite Hlt in Hcell.
  destruct (Ascii.compare (ulid.digit d1) (ulid.digit d2));
    [discriminate|reflexivity|discriminate].
Qed.

Lemma digit_not_sep (d : Z) : Ascii.eqb (ulid.digit d) ":" = false.
Proof.
  unfold ulid.digit. generalize (Z.to_nat d) as n. intros n.
  do 32 (destruct n as [|n]; [reflexivity|]). reflexivity.
Qed.

Lemma base32_length (n : nat) (x : Z) : String.length (ulid.base32 n x) = n.
Proof. induction n as [|n IH]; simpl; [reflexivity|]. rewrite IH. reflexivity. Qed.

Lemma base32_no_sep (n : nat) (x : Z) : Key.has_sep (ulid.base32 n x) = false.
Proof.
  induction n as [|n IH]; simpl; [reflexivity|].
  rewrite digit_not_sep. exact IH.
Qed.

(** Fixed-width base-32 text sorts as the numbers do. *)
Lemma base32_lt (n : nat) (a b : Z) :
  a mod 32 ^ Z.of_nat n < b mod 32 ^ Z.of_nat n ->
  Key.lt (ulid.base32 n a) (ulid.base32 n b).
Proof.
  unfold Key.lt. induction n as [|n IH]; intros Hab.
  - simpl in Hab. rewrite !Z.mod_1_r in Hab. lia.
  - rewrite Nat2Z.inj_succ, Z.pow_succ_r in Hab by lia.
    assert (Hpos : 0 < 32 ^ Z.of_nat n) by (apply Z.pow_pos_nonneg; lia).
    rewrite (Z.mul_comm 32) in Hab.
    rewrite !Z.rem_mul_r in Hab by lia.
    pose proof (Z.mod_pos_bound a (32 ^ Z.of_nat n) Hpos) as Ha.
    pose proof (Z.mod_pos_bound b (32 ^ Z.of_nat n) Hpos) as Hb.
    pose proof (Z.mod_pos_bound (a / 32 ^ Z.of_nat n) 32 ltac:(lia)) as Hda.
    pose proof (Z.mod_pos_bound (b / 32 ^ Z.of_nat n) 32 ltac:(lia)) as Hdb.
    simpl.
    set (da := (a / 32 ^ Z.of_nat n) mod 32) in *.
    set (db := (b / 32 ^ Z.of_nat n) mod 32) in *.
    destruct (Z.lt_trichotomy da db) as [Hlt|[Heq|Hgt]].
    + rewrite digit_lt by lia. reflexivity.
    + rewrite Heq, ascii_compare_refl. apply IH. rewrite Heq in Hab. nia.
    + exfalso. nia.
Qed.

Lemma text_lt (a b : ulid.ULID) :
  0 <= a -> a < b -> b < 32 ^ 26 -> Key.lt (ulid.text a) (ulid.text b).
Proof.
  intros Ha Hab Hb.
  change (Key.lt (ulid.base32 26 a) (ulid.base32 26 b)).
  apply base32_lt. change (Z.of_nat 26) with 26.
  rewrite !Z.mod_small by lia. exact Hab.
Qed.

Lemma text_inj (a b : ulid.ULID) :
  0 <= a < 32 ^ 26 -> 0 <= b < 32 ^ 26 -> ulid.text a = ulid.text b -> a = b.
Proof.
  intros Ha Hb Heq. destruct (Z.lt_trichotomy a b) as [Hlt|[Heq'|Hgt]].
  - exfalso. apply (lt_irrefl (ulid.text b)). rewrite <- Heq at 1.
    apply text_lt; lia.
  - exact Heq'.
  - exfalso. apply (lt_irrefl (ulid.text a)). rewrite Heq at 1.
    apply text_lt; lia.
Qed.

Lemma text_length (id : ulid.ULID) : String.length (ulid.text id) = 26%nat.
Proof. apply base32_length. Qed.

Lemma text_no_sep (id : ulid.ULID) : Key.has_sep (ulid.text id) = false.
Proof. apply base32_no_sep. Qed.

Lemma MarshalText_text (id : ulid.ULID) :
  ulid.MarshalText id = (ulid.text id, None).
Proof. reflexivity. Qed.

Arguments ulid.base32 : simpl never.
Arguments ulid.text : simpl never.
Arguments ulid.MarshalText : simpl never.

(** ** The shape of keys *)

Lemma length_app_s (a b : string) :
  String.length (a +:+ b) = (String.length a + String.length b)%nat.
Proof.
  induction a as [|c a IH]; [reflexivity|].
  rewrite app_cons. simpl. rewrite IH. reflexivity.
Qed.

Lemma make_with_sep (aggregate k : string) :
  Key.make aggregate k = Key.with_sep aggregate +:+ k.
Proof. unfold Key.make, Key.with_sep. rewrite app_assoc_s. reflexivity. Qed.

Lemma prefix_make (aggregate k : string) :
  String.prefix (Key.with_sep aggregate) (Key.make aggregate k) = true.
Proof. rewrite make_with_sep. apply prefix_app. Qed.

Lemma make_lt (aggregate k1 k2 : string) :
  Key.lt k1 k2 -> Key.lt (Key.make aggregate k1) (Key.make aggregate k2).
Proof. rewrite !make_with_sep. apply lt_app_l. Qed.

Lemma prefix_cons (c x : ascii) (p k : string) :
  String.prefix (String c p) (String x k)
  = if ascii_dec c x then String.prefix p k else false.
Proof. reflexivity. Qed.

Lemma has_sep_cons (c : ascii) (s : string) :
  Key.has_sep (String c s) = if Ascii.eqb c ":" then true else Key.has_sep s.
Proof. reflexivity. Qed.

Lemma prefix_sep_has_sep (b u : string) :
  String.prefix (b +:+ ":") u = true -> Key.has_sep u = true.
Proof.
  revert u. induction b as [|c b IH]; intros [|x u]; try discriminate.
  - rewrite app_nil_l, prefix_cons, has_sep_cons.
    destruct (ascii_dec ":" x) as [<-|]; [|discriminate]. reflexivity.
  - rewrite app_cons, prefix_cons, has_sep_cons.
    destruct (ascii_dec c x) as [<-|]; [|discriminate].
    intros Hp. rewrite (IH _ Hp). destruct (Ascii.eqb c ":"); reflexivity.
Qed.

(** A key made for a name without the separator carries the prefix of no
    other name. *)
Lemma prefix_make_other (a b u : string) :
  Key.has_sep b = false -> Key.has_sep u = false ->
  String.prefix (Key.with_sep a) (Key.make b u) = true -> a = b.
Proof.
  unfold Key.with_sep, Key.make. revert b.
  induction a as [|x a IH]; intros [|y b] Hb Hu.
  - reflexivity.
  - change (String.prefix (String ":" EmptyString)
              (String y (b +:+ ":" +:+ u)) = true -> EmptyString = String y b).
    rewrite prefix_cons.
    destruct (ascii_dec ":" y) as [<-|]; [|discriminate].
    rewrite has_sep_cons in Hb. discriminate.
  - change (String.prefix (String x (a +:+ ":")) (String ":" u) = true ->
            String x a = EmptyString).
    rewrite prefix_cons.
    destruct (ascii_dec x ":") as [->|]; [|discriminate].
    intros Hp. rewrite (prefix_sep_has_sep _ _ Hp) in Hu. discriminate.
  - change (String.prefix (String x (a +:+ ":"))
              (String y (b +:+ ":" +:+ u)) = true -> String x a = String y b).
    rewrite prefix_cons.
    destruct (ascii_dec x y) as [<-|]; [|discriminate].
    intros Hp. f_equal. apply IH; [|exact Hu|exact Hp].
    rewrite has_sep_cons in Hb.
    destruct (Ascii.eqb x ":"); [discriminate|exact Hb].
Qed.

(** The last characters of a key name its identifier. *)
Lemma app_inv_same_length (a b x y : string) :
  String.length x = String.length y -> a +:+ x = b +:+ y -> a = b /\ x = y.
Proof.
  revert b. induction a as [|c a IH]; intros [|d b] Hlen Heq.
  - split; [reflexivity|exact Heq].
  - exfalso. rewrite app_nil_l in Heq. subst x.
    rewrite app_cons in Hlen. simpl in Hlen. rewrite length_app_s in Hlen. lia.
  - exfalso. rewrite app_nil_l in Heq. subst y.
    rewrite app_cons in Hlen. simpl in Hlen. rewrite length_app_s in Hlen. lia.
  - rewrite !app_cons in Heq. inversion Heq; subst.
    destruct (IH b Hlen) as [-> ->]; [assumption|]. split; reflexivity.
Qed.

Lemma make_inj (a b : string) (i j : ulid.ULID) :
  Key.make a (ulid.text i) = Key.make b (ulid.text j) ->
  a = b /\ ulid.text i = ulid.text j.
Proof.
  rewrite !make_with_sep. intros Heq.
  apply app_inv_same_length in Heq; [|rewrite !text_length; reflexivity].
  destruct Heq as [Hab Hij]. split; [|exact Hij].
  unfold Key.with_sep in Hab.
  apply app_inv_same_length in Hab; [tauto|reflexivity].
Qed.

(** ** The handle *)

Lemma with_db_same (p : Process) : with_db p (db (store p)) = p.
Proof. destruct p as [[] ? ?]. reflexivity. Qed.

Lemma InMemory_options (b : BadgerEventStore) :
  badger.InMemory (options b) = MemoryOnly b.
Proof.
  unfold options.
  destruct (128 <=? Z.of_nat (String.length (EncryptionKey b))); reflexivity.
Qed.

Lemma view_cases `{Collaborators} (p : Process) :
  view p
  = match db (store p) with
    | Some d => inl (badger.data d)
    | None =>
        match open_error (options (store p)) with
        | Some e => inr e
        | None => inl (contents p)
        end
    end.
Proof.
  unfold view, kvstore, contents, badger_Open.
  destruct (db (store p)) as [d|]; [reflexivity|].
  destruct (open_error (options (store p))); [reflexivity|].
  simpl. rewrite InMemory_options. reflexivity.
Qed.

Lemma view_contents `{Collaborators} (p : Process) (l : badger.entries) :
  view p = inl l -> l = contents p.
Proof.
  rewrite view_cases. unfold contents.
  destruct (db (store p)) as [d|]; [congruence|].
  destruct (open_error (options (store p))); [discriminate|].
  unfold contents. congruence.
Qed.

Lemma view_no_faults `{Collaborators} (p : Process) :
  no_faults -> view p = inl (contents p).
Proof.
  intros [Hopen _]. rewrite view_cases. unfold contents.
  destruct (db (store p)); [reflexivity|]. rewrite Hopen. reflexivity.
Qed.

Lemma kvstore_view `{Collaborators} (p : Process) :
  wf p ->
  kvstore p
  = match view p with
    | inr e => (p, inr e)
    | inl l => (opened p l,
                inl {| badger.opts := options (store p); badger.data := l |})
    end.
Proof.
  intros (_ & Hdb & _). unfold view, kvstore, opened, badger_Open.
  destruct (db (store p)) as [d|] eqn:Hd.
  - destruct (Hdb d eq_refl) as [_ Hopts]. destruct d as [o l].
    simpl in Hopts. subst o. simpl. f_equal.
    rewrite <- Hd. symmetry. apply with_db_same.
  - destruct (open_error (options (store p))); reflexivity.
Qed.

Lemma wf_opened (p : Process) (l : badger.entries) :
  wf p -> sorted l -> wf (opened p l).
Proof.
  intros (Hdisk & Hdb & Hreg) Hl. split; [exact Hdisk|]. split; [|exact Hreg].
  intros d Hd. simpl in Hd. inversion Hd; subst. simpl. split; [exact Hl|reflexivity].
Qed.

Lemma contents_sorted (p : Process) : wf p -> sorted (contents p).
Proof.
  intros (Hdisk & Hdb & _). unfold contents.
  destruct (db (store p)) as [d|]; [apply (Hdb d eq_refl)|].
  destruct (MemoryOnly (store p)); [exact sorted_nil|exact Hdisk].
Qed.

Lemma view_sorted `{Collaborators} (p : Process) (l : badger.entries) :
  wf p -> view p = inl l -> sorted l.
Proof. intros Hwf Hv. rewrite (view_contents _ _ Hv). apply contents_sorted, Hwf. Qed.

Lemma contents_opened (p : Process) (l : badger.entries) :
  contents (opened p l) = l.
Proof. reflexivity. Qed.

Lemma view_opened `{Collaborators} (p : Process) (l : badger.entries) :
  view (opened p l) = inl l.
Proof. reflexivity. Qed.

Lemma opened_opened (p : Process) (l l' : badger.entries) :
  opened (opened p l) l' = opened p l'.
Proof. reflexivity. Qed.

(** ** The operations through the handle *)

Lemma write_view `{Collaborators} (key value : string) (p : Process) :
  wf p ->
  write key value p
  = match view p with
    | inr e => (p, Some e)
    | inl l =>
        match set_error key value with
        | Some e => (opened p l, Some e)
        | None => (opened p (badger.set key value l), None)
        end
    end.
Proof.
  intros Hwf. unfold write. rewrite (kvstore_view p Hwf).
  destruct (view p) as [l|e]; [|reflexivity].
  unfold badger_Update_Set. destruct (set_error key value); reflexivity.
Qed.

Lemma Append_envelope `{Collaborators} (now : Time) (aggregate : string)
    (content : GoValue) (p : Process) :
  Append now aggregate content p
  = match envelope now aggregate content p with
    | Panics msg => (p, Panics msg)
    | Returns (inr err) => (p, Returns (Some err))
    | Returns (inl (key, value)) =>
        (fst (write key value p), Returns (snd (write key value p)))
    end.
Proof.
  unfold Append, envelope, write.
  destruct (NewId now) as [id|msg]; [|reflexivity].
  destruct (gob.Encode (gob_registry p) content) as [c|err]; [|reflexivity].
  cbn [Id]. rewrite MarshalText_text.
  destruct (json_Marshal _) as [value|err]; [|reflexivity].
  destruct (kvstore p) as [p1 [d|err]]; [|reflexivity].
  destruct (badger_Update_Set d _ value); reflexivity.
Qed.

Lemma Read_view `{Collaborators} (aggregate : string) (p : Process) :
  wf p ->
  Read aggregate p
  = match view p with
    | inr e => (p, Returns ([], Some e))
    | inl l =>
        (opened p l,
         returned (decode_all p
           (List.filter (badger.ValidForPrefix (Key.with_sep aggregate)) l)))
    end.
Proof.
  intros Hwf. unfold Read. rewrite (kvstore_view p Hwf).
  destruct (view p) as [l|e] eqn:Hv; [|reflexivity].
  cbn [badger.data]. rewrite iterate_scan by (eapply view_sorted; eauto).
  unfold decode_all, returned.
  change (decode_item (opened p l)) with (decode_item p).
  destruct (badger.iterate _ _ _ _) as [[values [e|]]|msg]; reflexivity.
Qed.

Lemma ListKeys_view `{Collaborators} (p : Process) :
  wf p ->
  ListKeys p
  = match view p with
    | inr e => (p, Returns ([], Some e))
    | inl l => (opened p l, Returns (keys l, None))
    end.
Proof.
  intros Hwf. unfold ListKeys. rewrite (kvstore_view p Hwf).
  destruct (view p) as [l|e]; [|reflexivity].
  cbn [badger.data]. rewrite iterate_collect. reflexivity.
Qed.

Lemma ListKeysForAggregate_view `{Collaborators} (aggregate : string)
    (p : Process) :
  wf p ->
  ListKeysForAggregate aggregate p
  = match view p with
    | inr e => (p, Returns ([], Some e))
    | inl l =>
        (opened p l,
         Returns (List.filter (String.prefix (Key.with_sep aggregate)) (keys l),
                  None))
    end.
Proof.
  intros Hwf. unfold ListKeysForAggregate. cbv zeta.
  rewrite (kvstore_view p Hwf).
  destruct (view p) as [l|e] eqn:Hv; [|reflexivity].
  cbn [badger.data]. rewrite iterate_scan by (eapply view_sorted; eauto).
  rewrite iterate_collect, keys_filter. reflexivity.
Qed.

Lemma envelope_ok `{Collaborators} (now : Time) (aggregate : string)
    (content : GoValue) (p : Process) :
  no_faults -> in_range now -> reflect.TypeOf content ∈ gob_registry p ->
  encodable content ->
  exists value,
    json_Marshal {| Id := identifier now; Timestamp := now;
                    Type_ := typeName content;
                    Content := gob_marshal content |} = inl value
    /\ envelope now aggregate content p
       = Returns (inl (Key.make aggregate (ulid.text (identifier now)), value)).
Proof.
  intros (_ & _ & _ & Hjson) Hnow Hreg Henc.
  pose proof (identifier_in_range now Hnow) as Hid.
  destruct (Hjson {| Id := identifier now; Timestamp := now;
                     Type_ := typeName content;
                     Content := gob_marshal content |}) as [value Hvalue].
  exists value. split; [exact Hvalue|].
  unfold envelope, gob.Encode. rewrite Hid.
  destruct (decide (reflect.TypeOf content ∈ gob_registry p)); [|contradiction].
  unfold encodable in Henc. rewrite Henc, Hvalue. reflexivity.
Qed.

Lemma write_no_faults `{Collaborators} (key value : string) (p : Process) :
  wf p -> no_faults ->
  write key value p = (opened p (badger.set key value (contents p)), None).
Proof.
  intros Hwf Hnf. rewrite (write_view key value p Hwf).
  rewrite (view_no_faults p Hnf). destruct Hnf as (_ & Hset & _).
  rewrite Hset. reflexivity.
Qed.

Lemma wf_write `{Collaborators} (key value : string) (p : Process) :
  wf p -> wf (fst (write key value p)).
Proof.
  intros Hwf. rewrite (write_view key value p Hwf).
  destruct (view p) as [l|e] eqn:Hv; [|exact Hwf].
  pose proof (view_sorted p l Hwf Hv) as Hl.
  destruct (set_error key value); simpl; apply wf_opened; trivial.
  apply set_sorted, Hl.
Qed.

Lemma wf_Append `{Collaborators} (now : Time) (aggregate : string)
    (content : GoValue) (p : Process) :
  wf p -> wf (fst (Append now aggregate content p)).
Proof.
  intros Hwf. rewrite Append_envelope.
  destruct (envelope now aggregate content p) as [[[key value]|err]|msg];
    simpl; trivial.
  apply wf_write, Hwf.
Qed.

Lemma wf_Register (t : GoValue) (p : Process) : wf p -> wf (Register t p).
Proof.
  intros (Hdisk & Hdb & Hreg). split; [exact Hdisk|]. split; [exact Hdb|].
  intros name type Hname. simpl in *.
  apply elem_of_union.
  destruct (decide (typeName t = name)) as [<-|Hne].
  - right. rewrite lookup_insert_eq in Hname. inversion Hname; subst.
    apply elem_of_singleton. reflexivity.
  - left. rewrite lookup_insert_ne in Hname by exact Hne.
    exact (Hreg name type Hname).
Qed.

(** [Register] registers: every value of the type of its argument counts
    as registered from then on. *)
Lemma Register_registers (t v : GoValue) (p : Process) :
  reflect.TypeOf v = reflect.TypeOf t -> registered v (Register t p).
Proof.
  intros Htype. split; simpl.
  - apply elem_of_union. right. apply elem_of_singleton. exact Htype.
  - assert (Hname : typeName v = typeName t)
      by exact (f_equal reflect.String_ Htype).
    rewrite Hname, lookup_insert_eq. eexists. reflexivity.
Qed.


Lemma wf_start (b : BadgerEventStore) (persisted : badger.entries) :
  db b = None -> typeRegistery b = ∅ -> sorted persisted ->
  wf (start b persisted).
Proof.
  intros Hdb Hreg Hs. split; [exact Hs|]. split.
  - intros d Hd. simpl in Hd. congruence.
  - intros name type Hx. simpl in Hx. rewrite Hreg in Hx.
    rewrite lookup_empty in Hx. discriminate.
Qed.

(** ** What [encoding/gob] keeps of a value *)

Lemma zero_of_idem (v : GoValue) :
  reflect.zero_of (reflect.zero_of v) = reflect.zero_of v.
Proof.
  induction v as [n|s|pkg type fields IH] using GoValue_induction;
    [reflexivity|reflexivity|].
  simpl. f_equal. induction IH as [|[name x] l Hx _ IHl]; [reflexivity|].
  simpl in *. rewrite Hx, IHl. reflexivity.
Qed.

Lemma zero_of_received (v : GoValue) :
  reflect.zero_of (wire.received v) = reflect.zero_of v.
Proof.
  induction v as [n|s|pkg type fields IH] using GoValue_induction;
    [reflexivity|reflexivity|].
  simpl. f_equal. induction IH as [|[name x] l Hx _ IHl]; [reflexivity|].
  simpl in *. rewrite IHl. f_equal.
  destruct (wire.exported name); [rewrite Hx|rewrite zero_of_idem]; reflexivity.
Qed.

(** The value received has the type of the value sent. *)
Lemma TypeOf_received (v : GoValue) :
  reflect.TypeOf (wire.received v) = reflect.TypeOf v.
Proof.
  unfold reflect.TypeOf. rewrite zero_of_received.
  destruct v; reflexivity.
Qed.


Lemma iterate_app {A : Type}
    (body : string * string -> A -> outcome (A * option error))
    (l1 l2 : badger.entries) (acc : A) :
  badger.iterate (fun _ => true) body (l1 ++ l2) acc
  = match badger.iterate (fun _ => true) body l1 acc with
    | Returns (acc', None) => badger.iterate (fun _ => true) body l2 acc'
    | r => r
    end.
Proof.
  revert acc. induction l1 as [|item l1 IH]; intros acc; [reflexivity|].
  simpl. destruct (body item acc) as [[acc' [e|]]|msg]; try reflexivity.
  apply IH.
Qed.

(** A record written by [Append] for a value of a registered type decodes
    to that value as it is received. *)
Lemma item_decodes `{Collaborators} (p : Process) (key value : string)
    (r : Record_) (v : GoValue) (values : list GoValue) :
  value_error key = None ->
  json_Marshal r = inl value ->
  encodable v ->
  Content r = gob_marshal v ->
  Type_ r = typeName v ->
  registered v p ->
  item_Value (key, value) (decode_item p) values
  = Returns (values ++ [wire.received v], None).
Proof.
  intros Hval Hjson Henc Hgob Htype [Hreg [t Ht]].
  unfold item_Value, decode_item. simpl.
  rewrite Hval, (json_roundtrip _ _ Hjson). unfold makeInstance.
  rewrite Htype, Ht. simpl. unfold gob.Decode.
  rewrite Hgob, (gob_roundtrip v Henc), TypeOf_received.
  destruct (decide (reflect.TypeOf v ∈ gob_registry p)); [reflexivity|contradiction].
Qed.

Lemma filter_nil_none (prefix : string) (l : badger.entries) :
  List.filter (badger.ValidForPrefix prefix) l = [] ->
  forall x, In x (keys l) -> String.prefix prefix x = false.
Proof.
  induction l as [|[k v] l IH]; simpl; [tauto|].
  unfold badger.ValidForPrefix at 1. simpl.
  destruct (String.prefix prefix k) eqn:Hk; [discriminate|].
  intros Hf x [<-|Hx]; [exact Hk|apply IH; assumption].
Qed.

(** ** One [Append], and [Read] of what was appended *)

(** One [Append] that nothing stops: it writes the envelope of the value
    under the key made of the aggregate and the new identifier. *)
Lemma Append_step `{Collaborators} (now : Time) (aggregate : string)
    (v : GoValue) (p : Process) :
  wf p -> no_faults -> in_range now ->
  reflect.TypeOf v ∈ gob_registry p -> encodable v ->
  exists id value,
    NewId now = Returns id
    /\ id = identifier now
    /\ decodes_to (Key.make aggregate (ulid.text id), value) v
    /\ (exists r, json_Marshal r = inl value /\ Id r = id)
    /\ Append now aggregate v p
       = (opened p (badger.set (Key.make aggregate (ulid.text id)) value
                      (contents p)),
          Returns None).
Proof.
  intros Hwf Hnf Hnow Hgob Henc.
  destruct (envelope_ok now aggregate v p Hnf Hnow Hgob Henc)
    as (value & Hvalue & Henv).
  exists (identifier now), value.
  split; [exact (identifier_in_range now Hnow)|]. split; [reflexivity|].
  split; [|split].
  - eexists. split; [exact Hvalue|]. split; [exact Henc|].
    split; reflexivity.
  - eexists. split; [exact Hvalue|reflexivity].
  - rewrite Append_envelope, Henv, (write_no_faults _ _ p Hwf Hnf). reflexivity.
Qed.

Lemma iterate_decodes `{Collaborators} (p : Process) (items : badger.entries)
    (vs acc : list GoValue) :
  (forall k, value_error k = None) ->
  Forall2 decodes_to items vs ->
  Forall (fun v => registered v p) vs ->
  badger.iterate (fun _ => true)
    (fun item values => item_Value item (decode_item p) values) items acc
  = Returns (acc ++ List.map wire.received vs, None).
Proof.
  intros Hval Hdec. revert acc.
  induction Hdec as [|[k value] v items vs (r & Hj & He & Hg & Ht) _ IH];
    intros acc Hreg.
  - rewrite app_nil_r. reflexivity.
  - inversion Hreg as [|? ? Hr Hrest]; subst. simpl.
    rewrite (item_decodes p k value r v acc (Hval k) Hj He Hg Ht Hr).
    rewrite IH by exact Hrest. rewrite <- app_assoc. reflexivity.
Qed.

(** [Read] on a state whose records of the aggregate are the envelopes of
    given values of registered types. *)
Lemma Read_decodes `{Collaborators} (aggregate : string) (q : Process)
    (vs : list GoValue) :
  wf q -> no_faults ->
  Forall2 decodes_to (records_of aggregate q) vs ->
  Forall (fun v => registered v q) vs ->
  Read aggregate q
  = (opened q (contents q), Returns (List.map wire.received vs, None)).
Proof.
  intros Hwf Hnf Hdec Hreg.
  rewrite (Read_view aggregate q Hwf), (view_no_faults q Hnf).
  fold (records_of aggregate q). unfold decode_all.
  rewrite (iterate_decodes q _ vs []); [reflexivity|apply Hnf|exact Hdec|exact Hreg].
Qed.

(** The records of an aggregate without records, after one entry was
    written under a key of the aggregate. *)
Lemma records_of_first (aggregate k value : string) (p : Process) :
  wf p -> records_of aggregate p = [] ->
  records_of aggregate
    (opened p (badger.set (Key.make aggregate k) value (contents p)))
  = [(Key.make aggregate k, value)].
Proof.
  intros Hwf Hfresh. unfold records_of. rewrite contents_opened.
  rewrite filter_set_last;
    [|apply contents_sorted, Hwf|apply prefix_make|].
  - fold (records_of aggregate p). rewrite Hfresh. reflexivity.
  - intros x Hx Hpx. rewrite (filter_nil_none _ _ Hfresh x Hx) in Hpx.
    discriminate.
Qed.

(** ** Round trip *)


(** The sample collaborators never fail, and the store the package's tests
    build on them is in order. *)
Lemma sample_no_faults : @no_faults Sample.collaborators.
Proof.
  repeat split.
  intros r. eexists. reflexivity.
Qed.

Lemma wf_sample_start : wf sample_start.
Proof.
  apply wf_Register, wf_start; [reflexivity|reflexivity|exact sorted_nil].
Qed.

Lemma sample_clock_in_range : in_range sample_clock.
Proof. unfold in_range, sample_clock. lia. Qed.

Lemma Test_registered (n : Z) : registered (Sample.Test n) sample_start.
Proof. apply Register_registers. reflexivity. Qed.



(** ** Close *)

(** C9: [Close] is idempotent: after a [Close] that returned no error, any
    further [Close] returns no error, does not panic and changes nothing. *)
Theorem Close_idempotent `{Collaborators} (p p1 : Process) :
  Close p = (p1, Returns None) -> Close p1 = (p1, Returns None).
Proof.
  unfold Close. destruct (db (store p)) as [d|] eqn:Hd.
  - destruct (close_error (badger.opts d)); [discriminate|].
    intros Heq. inversion Heq; subst. reflexivity.
  - intros Heq. inversion Heq; subst. rewrite Hd. reflexivity.
Qed.

Lemma Close_idempotent_witness :
  let p := fst (Append sample_clock "test.1" (Sample.Test 1) sample_start) in
  Close (fst (Close p)) = (fst (Close p), Returns None).
Proof.
  intros p. apply (Close_idempotent p (fst (Close p))).
  vm_compute. reflexivity.
Defined.

Lemma Close_cases `{Collaborators} (p p1 : Process) :
  wf p -> Close p = (p1, Returns None) ->
  db (store p1) = None /\ wf p1
  /\ contents p1 = (if MemoryOnly (store p) then [] else contents p)
  /\ options (store p1) = options (store p)
  /\ MemoryOnly (store p1) = MemoryOnly (store p)
  /\ typeRegistery (store p1) = typeRegistery (store p)
  /\ gob_registry p1 = gob_registry p.
Proof.
  intros Hwf. pose proof Hwf as (Hdisk & Hdb & Hreg).
  unfold Close, contents. destruct (db (store p)) as [d|] eqn:Hd.
  - destruct (Hdb d eq_refl) as [Hsorted Hopts].
    destruct (close_error (badger.opts d)); [discriminate|].
    intros Heq. inversion Heq; subst. clear Heq. simpl.
    rewrite Hopts, InMemory_options.
    split; [reflexivity|]. split.
    + split; [|split; [intros d' Hd'; discriminate|exact Hreg]].
      simpl. destruct (MemoryOnly (store p)); assumption.
    + split; [destruct (MemoryOnly (store p)); reflexivity|].
      repeat split; reflexivity.
  - intros Heq. inversion Heq; subst. rewrite Hd.
    split; [reflexivity|]. split; [exact Hwf|].
    split; [destruct (MemoryOnly (store p1)); reflexivity|].
    repeat split; reflexivity.
Qed.

Lemma iterate_ext {A : Type} (valid : string * string -> bool)
    (body1 body2 : string * string -> A -> outcome (A * option error))
    (items : badger.entries) (acc : A) :
  (forall item a, body1 item a = body2 item a) ->
  badger.iterate valid body1 items acc = badger.iterate valid body2 items acc.
Proof.
  intros Hext. revert acc. induction items as [|item items IH]; intros acc;
    [reflexivity|].
  simpl. rewrite Hext. destruct (valid item); [|reflexivity].
  destruct (body2 item acc) as [[acc' [e|]]|msg]; try reflexivity. apply IH.
Qed.

Lemma decode_all_ext `{Collaborators} (p q : Process) (items : badger.entries) :
  typeRegistery (store p) = typeRegistery (store q) ->
  gob_registry p = gob_registry q ->
  decode_all p items = decode_all q items.
Proof.
  intros Hreg Hgob. unfold decode_all. apply iterate_ext.
  intros item a. unfold item_Value, decode_item, makeInstance.
  rewrite Hreg, Hgob. reflexivity.
Qed.

Lemma envelope_ext `{Collaborators} (now : Time) (aggregate : string)
    (content : GoValue) (p q : Process) :
  gob_registry p = gob_registry q ->
  envelope now aggregate content p = envelope now aggregate content q.
Proof. intros Hgob. unfold envelope. rewrite Hgob. reflexivity. Qed.

(** C10: after a [Close] that returned no error the store holds no handle
    and is as a store just created over what the engine persisted, its
    registrations kept. The next [Read], [ListKeys] or
    [ListKeysForAggregate], and the next [Append] that gets as far as the
    engine, has [kvstore] call [badger.Open]: when that fails the call
    returns the engine's error and the store stays without handle; when
    it succeeds the store holds a new handle over what was persisted and
    the call runs on it. No call fails for the store having been closed.
    An in-memory engine persists nothing, so the records appended before
    [Close] are not read after it. *)
Theorem Close_then_reopen `{Collaborators} (p p1 : Process) (now : Time)
    (aggregate : string) (content : GoValue) :
  wf p ->
  Close p = (p1, Returns None) ->
  let kept := if MemoryOnly (store p) then [] else contents p in
  p1 = with_db (with_disk p (if MemoryOnly (store p) then disk p
                             else contents p)) None
  /\ db (store p1) = None
  /\ match open_error (options (store p)) with
     | Some e =>
         Read aggregate p1 = (p1, Returns ([], Some e))
         /\ ListKeys p1 = (p1, Returns ([], Some e))
         /\ ListKeysForAggregate aggregate p1 = (p1, Returns ([], Some e))
         /\ Append now aggregate content p1
            = match envelope now aggregate content p with
              | Panics msg => (p1, Panics msg)
              | Returns (inr err) => (p1, Returns (Some err))
              | Returns (inl _) => (p1, Returns (Some e))
              end
     | None =>
         Read aggregate p1
         = (opened p1 kept,
            returned
              (decode_all p
                 (List.filter (badger.ValidForPrefix (Key.with_sep aggregate))
                    kept)))
         /\ ListKeys p1 = (opened p1 kept, Returns (keys kept, None))
         /\ ListKeysForAggregate aggregate p1
            = (opened p1 kept,
               Returns (List.filter (String.prefix (Key.with_sep aggregate))
                          (keys kept), None))
         /\ Append now aggregate content p1
            = match envelope now aggregate content p with
              | Panics msg => (p1, Panics msg)
              | Returns (inr err) => (p1, Returns (Some err))
              | Returns (inl (key, value)) =>
                  match set_error key value with
                  | Some e => (opened p1 kept, Returns (Some e))
                  | None =>
                      (opened p1 (badger.set key value kept), Returns None)
                  end
              end
     end
  /\ (MemoryOnly (store p) = true ->
      open_error (options (store p)) = None ->
      Read aggregate p1 = (opened p1 [], Returns ([], None))
      /\ ListKeys p1 = (opened p1 [], Returns ([], None))
      /\ ListKeysForAggregate aggregate p1 = (opened p1 [], Returns ([], None))).
Proof.
  intros Hwf Hclose kept.
  destruct (Close_cases p p1 Hwf Hclose)
    as (Hdb1 & Hwf1 & Hcont & Hopts & Hmem & Hreg & Hgob).
  assert (Hview : view p1
                  = match open_error (options (store p)) with
                    | Some e => inr e
                    | None => inl kept
                    end).
  { rewrite view_cases, Hdb1, Hopts, Hcont. reflexivity. }
  assert (Hread : Read aggregate p1
                  = match open_error (options (store p)) with
                    | Some e => (p1, Returns ([], Some e))
                    | None =>
                        (opened p1 kept,
                         returned
                           (decode_all p
                              (List.filter
                                 (badger.ValidForPrefix (Key.with_sep aggregate))
                                 kept)))
                    end).
  { rewrite (Read_view aggregate p1 Hwf1), Hview.
    destruct (open_error (options (store p))); [reflexivity|].
    rewrite (decode_all_ext p1 p _ Hreg Hgob). reflexivity. }
  assert (Hkeys : ListKeys p1
                  = match open_error (options (store p)) with
                    | Some e => (p1, Returns ([], Some e))
                    | None => (opened p1 kept, Returns (keys kept, None))
                    end).
  { rewrite (ListKeys_view p1 Hwf1), Hview.
    destruct (open_error (options (store p))); reflexivity. }
  assert (Hkeys' : ListKeysForAggregate aggregate p1
                   = match open_error (options (store p)) with
                     | Some e => (p1, Returns ([], Some e))
                     | None =>
                         (opened p1 kept,
                          Returns (List.filter
                                     (String.prefix (Key.with_sep aggregate))
                                     (keys kept), None))
                     end).
  { rewrite (ListKeysForAggregate_view aggregate p1 Hwf1), Hview.
    destruct (open_error (options (store p))); reflexivity. }
  split; [|split; [exact Hdb1|split]].
  - revert Hclose. unfold Close. destruct (db (store p)) as [d|] eqn:Hd.
    + destruct Hwf as (_ & Hd' & _). destruct (Hd' d Hd) as [_ Ho].
      rewrite Ho, InMemory_options.
      destruct (close_error (options (store p))); [discriminate|].
      intros Heq. inversion Heq; subst. unfold contents. rewrite Hd.
      destruct (MemoryOnly (store p)); reflexivity.
    + intros Heq. inversion Heq; subst. unfold contents. rewrite Hd.
      destruct p1 as [[] ? ?]. simpl in Hd. subst.
      destruct MemoryOnly0; reflexivity.
  - rewrite Hread, Hkeys, Hkeys', Append_envelope,
      (envelope_ext now aggregate content p1 p Hgob).
    destruct (open_error (options (store p))) as [e|] eqn:Hopen.
    + repeat (split; [reflexivity|]).
      destruct (envelope now aggregate content p) as [[[key value]|err]|msg];
        try reflexivity.
      rewrite (write_view key value p1 Hwf1), Hview. reflexivity.
    + repeat (split; [reflexivity|]).
      destruct (envelope now aggregate content p) as [[[key value]|err]|msg];
        try reflexivity.
      rewrite (write_view key value p1 Hwf1), Hview.
      destruct (set_error key value); reflexivity.
  - intros Hm Hopen. rewrite Hread, Hkeys, Hkeys', Hopen. unfold kept.
    rewrite Hm. repeat split; reflexivity.
Qed.

Lemma Close_then_reopen_witness :
  let p := fst (Append sample_clock "test.1" (Sample.Test 1) sample_start) in
  snd (Read "test.1" p) = Returns ([Sample.Test 1], None)
  /\ Read "test.1" (fst (Close p))
     = (opened (fst (Close p)) [], Returns ([], None)).
Proof.
  intros p. split; [vm_compute; reflexivity|].
  refine (proj1 (proj2 (proj2 (proj2
    (Close_then_reopen p (fst (Close p)) sample_clock "test.1" (Sample.Test 2)
       _ _))) _ _)).
  - apply wf_Append, wf_sample_start.
  - vm_compute. reflexivity.
  - reflexivity.
  - reflexivity.
Defined.

(** ** Identifier order *)

Lemma identifier_bounds `{Collaborators} (t : Time) :
  in_range t ->
  identifier t = ulid.of_parts (millis t) (rand_Read10 (GoTime.UnixNano t))
  /\ millis t * 2 ^ 80 <= identifier t < (millis t + 1) * 2 ^ 80
  /\ 0 <= identifier t < 32 ^ 26.
Proof.
  intros Ht.
  assert (Heq : identifier t
                = ulid.of_parts (millis t) (rand_Read10 (GoTime.UnixNano t))).
  { unfold identifier. rewrite (Timestamp_in_range t Ht). reflexivity. }
  split; [exact Heq|].
  apply (NewId_bounds t _ Ht). rewrite Heq. apply (NewId_in_range t Ht).
Qed.

(** The text of identifiers compares as the identifiers do. *)
Lemma text_compare (a b : ulid.ULID) :
  0 <= a < 32 ^ 26 -> 0 <= b < 32 ^ 26 ->
  String.compare (ulid.text a) (ulid.text b) = (a ?= b).
Proof.
  intros Ha Hb. destruct (Z.compare_spec a b) as [->|Hlt|Hgt].
  - apply compare_refl.
  - apply text_lt; lia.
  - rewrite String.compare_antisym.
    assert (Hba : Key.lt (ulid.text b) (ulid.text a)) by (apply text_lt; lia).
    unfold Key.lt in Hba. rewrite Hba. reflexivity.
Qed.

(** For clock readings in the identifier's range that fall in different
    milliseconds, the earlier reading gets the smaller identifier, in the
    order of the bytes and of the text. *)
Theorem NewId_monotone_across_milliseconds `{Collaborators} (t1 t2 : Time) :
  in_range t1 -> in_range t2 -> millis t1 < millis t2 ->
  exists id1 id2,
    NewId t1 = Returns id1 /\ NewId t2 = Returns id2
    /\ id1 < id2
    /\ Key.lt (ulid.text id1) (ulid.text id2).
Proof.
  intros H1 H2 Hlt.
  exists (identifier t1), (identifier t2).
  split; [apply (identifier_in_range t1 H1)|].
  split; [apply (identifier_in_range t2 H2)|].
  destruct (identifier_bounds t1 H1) as (_ & Hb1 & Hr1).
  destruct (identifier_bounds t2 H2) as (_ & Hb2 & Hr2).
  assert (Hid : identifier t1 < identifier t2).
  { change (2 ^ 80) with 1208925819614629174706176 in Hb1, Hb2. nia. }
  split; [exact Hid|]. apply text_lt; lia.
Qed.

Lemma NewId_monotone_across_milliseconds_witness :
  exists id1 id2,
    NewId sample_clock = Returns id1
    /\ NewId (sample_clock + 1000000) = Returns id2
    /\ id1 < id2
    /\ Key.lt (ulid.text id1) (ulid.text id2).
Proof.
  apply (NewId_monotone_across_milliseconds sample_clock (sample_clock + 1000000)).
  - exact sample_clock_in_range.
  - unfold in_range, sample_clock. lia.
  - reflexivity.
Defined.

(** C3 at its failing inputs: of two clock readings in the identifier's
    range, the later one gets the identifier that sorts first exactly when
    the two fall in one millisecond and the generator seeded with the
    later reading yields the smaller ten bytes. Each call seeds a
    generator of its own, so inside a millisecond the order of the
    identifiers is the order of what unrelated generators yield, not the
    order of the readings. *)
Theorem NewId_order_within_millisecond `{Collaborators} (t1 t2 : Time) :
  in_range t1 -> in_range t2 -> t1 <= t2 ->
  exists id1 id2,
    NewId t1 = Returns id1 /\ NewId t2 = Returns id2
    /\ (Key.lt (ulid.text id2) (ulid.text id1)
        <-> millis t1 = millis t2
            /\ rand_Read10 (GoTime.UnixNano t2)
               < rand_Read10 (GoTime.UnixNano t1)).
Proof.
  intros H1 H2 Hle.
  exists (identifier t1), (identifier t2).
  split; [apply (identifier_in_range t1 H1)|].
  split; [apply (identifier_in_range t2 H2)|].
  destruct (identifier_bounds t1 H1) as (He1 & Hb1 & Hr1).
  destruct (identifier_bounds t2 H2) as (He2 & Hb2 & Hr2).
  assert (Hms : millis t1 <= millis t2)
    by (unfold millis; apply Z.div_le_mono; lia).
  unfold Key.lt. rewrite (text_compare _ _ Hr2 Hr1), Z.compare_lt_iff.
  change (2 ^ 80) with 1208925819614629174706176 in Hb1, Hb2.
  split.
  - intros Hlt. assert (Heq : millis t1 = millis t2) by nia.
    split; [exact Heq|]. rewrite He1, He2, Heq in Hlt.
    unfold ulid.of_parts in Hlt. lia.
  - intros [Heq Hlt]. rewrite He1, He2, Heq. unfold ulid.of_parts. lia.
Qed.

(** With the sample generator: the later of two readings of one
    millisecond gets the identifier that sorts first. *)
Lemma NewId_order_within_millisecond_witness :
  let t1 : Time := sample_clock + 100000 in
  let t2 : Time := sample_clock + 200000 in
  t1 <= t2
  /\ exists id1 id2,
       NewId t1 = Returns id1 /\ NewId t2 = Returns id2
       /\ Key.lt (ulid.text id2) (ulid.text id1).
Proof.
  intros t1 t2. split; [unfold t1, t2; lia|].
  destruct (NewId_order_within_millisecond t1 t2) as (id1 & id2 & Hid1 & Hid2 & Hlt).
  - unfold in_range, t1, sample_clock. lia.
  - unfold in_range, t2, sample_clock. lia.
  - unfold t1, t2. lia.
  - exists id1, id2. split; [exact Hid1|]. split; [exact Hid2|].
    apply Hlt. split; [reflexivity|]. vm_compute. reflexivity.
Defined.

(** Inside one millisecond the order of two identifiers is the order of
    what two unrelated generators yield first. *)
Theorem NewId_same_millisecond `{Collaborators} (t1 t2 : Time) :
  in_range t1 -> in_range t2 -> millis t1 = millis t2 ->
  exists id1 id2,
    NewId t1 = Returns id1 /\ NewId t2 = Returns id2
    /\ (id1 <= id2 <->
        rand_Read10 (GoTime.UnixNano t1) <= rand_Read10 (GoTime.UnixNano t2)).
Proof.
  intros H1 H2 Heq.
  eexists _, _. split; [apply (NewId_in_range t1 H1)|].
  split; [apply (NewId_in_range t2 H2)|].
  unfold ulid.of_parts. rewrite Heq. lia.
Qed.

Lemma NewId_same_millisecond_witness :
  exists id1 id2,
    NewId sample_clock = Returns id1
    /\ NewId (sample_clock + 1) = Returns id2
    /\ (id1 <= id2 <->
        rand_Read10 (GoTime.UnixNano sample_clock)
        <= rand_Read10 (GoTime.UnixNano (sample_clock + 1))).
Proof.
  apply (NewId_same_millisecond sample_clock (sample_clock + 1)).
  - exact sample_clock_in_range.
  - unfold in_range, sample_clock. lia.
  - reflexivity.
Defined.

(** ** Unregistered types *)




(** ** Failing records *)

(** Whatever the record, a type tag without an entry in the store's
    registry makes the function [Read] runs on it panic. *)
Lemma decode_item_unresolved `{Collaborators} (p : Process) (val : string)
    (r : Record_) (values : list GoValue) :
  json_Unmarshal val = inl r ->
  typeRegistery (store p) !! Type_ r = None ->
  decode_item p val values = Panics "reflect: New(nil)".
Proof.
  intros Hjson Hreg. unfold decode_item, makeInstance.
  rewrite Hjson, Hreg. reflexivity.
Qed.

(** The part of C7 the code keeps: when the first record that does not
    decode fails with an error (the engine cannot hand out its value, the
    envelope does not parse, or the payload does not decode), [Read]
    returns that error and no values, although the records before it were
    decoded. *)
Lemma Read_aborts_on_first_error `{Collaborators} (aggregate : string)
    (p : Process) (l good rest : badger.entries) (bad : string * string)
    (values values' : list GoValue) (e : error) :
  wf p -> view p = inl l ->
  List.filter (badger.ValidForPrefix (Key.with_sep aggregate)) l
  = good ++ bad :: rest ->
  decode_all p good = Returns (values, None) ->
  item_Value bad (decode_item p) values = Returns (values', Some e) ->
  snd (Read aggregate p) = Returns ([], Some e).
Proof.
  intros Hwf Hview Hsplit Hgood Hbad.
  rewrite (Read_view aggregate p Hwf), Hview. simpl. rewrite Hsplit.
  unfold decode_all in *. rewrite iterate_app, Hgood. simpl.
  rewrite Hbad. reflexivity.
Qed.

(** C7 at its failing inputs: when the first record of the aggregate that
    does not decode is one whose envelope parses but whose type tag has no
    entry in the store's registry, [Read] panics in [makeInstance]; it
    does not return an error. *)
Theorem Read_unresolved_type_panics `{Collaborators} (aggregate : string)
    (p : Process) (l good rest : badger.entries) (bad : string * string)
    (r : Record_) (values : list GoValue) :
  wf p -> view p = inl l ->
  List.filter (badger.ValidForPrefix (Key.with_sep aggregate)) l
  = good ++ bad :: rest ->
  decode_all p good = Returns (values, None) ->
  value_error (fst bad) = None ->
  json_Unmarshal (snd bad) = inl r ->
  typeRegistery (store p) !! Type_ r = None ->
  snd (Read aggregate p) = Panics "reflect: New(nil)".
Proof.
  intros Hwf Hview Hsplit Hgood Hval Hjson Hreg.
  rewrite (Read_view aggregate p Hwf), Hview. cbn [snd]. rewrite Hsplit.
  unfold decode_all in *. rewrite iterate_app, Hgood.
  cbn [badger.iterate]. unfold item_Value. rewrite Hval.
  rewrite (decode_item_unresolved p (snd bad) r values Hjson Hreg).
  reflexivity.
Qed.

(** A store that never registered anything appends an [int], which
    [encoding/gob] knows by itself; [Read] of that aggregate panics. *)
Lemma Read_unresolved_type_panics_witness :
  let p := fst (Append sample_clock "a" (GoInt 42) (start MemoryStore [])) in
  snd (Append sample_clock "a" (GoInt 42) (start MemoryStore [])) = Returns None
  /\ snd (Read "a" p) = Panics "reflect: New(nil)".
Proof.
  intros p. split; [vm_compute; reflexivity|].
  eapply (Read_unresolved_type_panics "a" p _ [] [] _ _ []).
  - apply wf_Append, wf_start; [reflexivity|reflexivity|exact sorted_nil].
  - vm_compute. reflexivity.
  - vm_compute. reflexivity.
  - reflexivity.
  - reflexivity.
  - vm_compute. reflexivity.
  - vm_compute. reflexivity.
Defined.

(** ** Isolation *)

(** C5, as the code has it: [Append] to an aggregate whose name does not
    contain [':'] leaves what [Read] returns for every other aggregate as
    it was. *)
Theorem Append_isolated `{Collaborators} (now : Time) (a b : string)
    (content : GoValue) (p : Process) :
  wf p -> Key.has_sep a = false -> a <> b ->
  snd (Read b (fst (Append now a content p))) = snd (Read b p).
Proof.
  intros Hwf Ha Hab. rewrite Append_envelope.
  unfold envelope.
  destruct (NewId now) as [id|msg]; [|reflexivity].
  destruct (gob.Encode (gob_registry p) content) as [c|err]; [|reflexivity].
  destruct (json_Marshal _) as [value|err]; [|reflexivity].
  cbn [fst]. rewrite (write_view _ value p Hwf).
  rewrite (Read_view b p Hwf).
  destruct (view p) as [l|e] eqn:Hview.
  - pose proof (view_sorted p l Hwf Hview) as Hl.
    destruct (set_error _ value); cbn [fst].
    + rewrite Read_view by (apply wf_opened; assumption).
      rewrite view_opened. reflexivity.
    + rewrite Read_view by (apply wf_opened; [exact Hwf|apply set_sorted, Hl]).
      rewrite view_opened. cbn [snd]. rewrite filter_set_other; [reflexivity|].
      destruct (String.prefix (Key.with_sep b) (Key.make a (ulid.text id)))
        eqn:Hp; [|reflexivity].
      exfalso. apply Hab. symmetry.
      exact (prefix_make_other b a _ Ha (text_no_sep id) Hp).
  - cbn [fst]. rewrite (Read_view b p Hwf), Hview. reflexivity.
Qed.

Lemma Append_isolated_witness :
  snd (Read "order-2" (fst (Append sample_clock "order" (Sample.Test 1) sample_start)))
  = snd (Read "order-2" sample_start).
Proof.
  apply (Append_isolated sample_clock "order" "order-2" (Sample.Test 1) sample_start).
  - exact wf_sample_start.
  - reflexivity.
  - discriminate.
Defined.

(** The claim of C5 for every pair of names fails when the name appended
    to contains the separator: its key carries the prefix of the name
    before the separator. *)
Lemma Append_isolated_counterexample :
  "order:2"%string <> "order"%string
  /\ snd (Read "order" sample_start) = Returns ([], None)
  /\ snd (Read "order"
            (fst (Append sample_clock "order:2" (Sample.Test 7) sample_start)))
     = Returns ([Sample.Test 7], None).
Proof. split; [discriminate|]. split; vm_compute; reflexivity. Qed.

(** ** Calls that read the same instant *)

(** C4 at a failing input: two [Append] calls that read the same instant
    from the clock store two records with one identifier. *)
Theorem Append_same_instant_same_identifier `{Collaborators} (now : Time)
    (a b : string) (v1 v2 : GoValue) (p : Process) :
  wf p -> no_faults -> in_range now ->
  registered v1 p -> encodable v1 ->
  registered v2 p -> encodable v2 ->
  a <> b ->
  let q := fst (Append now b v2 (fst (Append now a v1 p))) in
  exists id value1 value2 r1 r2,
    Key.make a (ulid.text id) <> Key.make b (ulid.text id)
    /\ In (Key.make a (ulid.text id), value1) (contents q)
    /\ In (Key.make b (ulid.text id), value2) (contents q)
    /\ json_Unmarshal value1 = inl r1 /\ json_Unmarshal value2 = inl r2
    /\ Id r1 = id /\ Id r2 = id.
Proof.
  intros Hwf Hnf Hnow Hr1 He1 Hr2 He2 Hab q. subst q.
  destruct (Append_step now a v1 p Hwf Hnf Hnow (proj1 Hr1) He1)
    as (id & value1 & Hid & _ & _ & (r1 & Hj1 & Hi1) & Happ1).
  rewrite Happ1. cbn [fst].
  set (l1 := badger.set (Key.make a (ulid.text id)) value1 (contents p)).
  assert (Hwf1 : wf (opened p l1)).
  { apply wf_opened; [exact Hwf|]. apply set_sorted, contents_sorted, Hwf. }
  destruct (Append_step now b v2 (opened p l1) Hwf1 Hnf Hnow (proj1 Hr2) He2)
    as (id' & value2 & Hid' & _ & _ & (r2 & Hj2 & Hi2) & Happ2).
  assert (Heq : id' = id) by congruence. rewrite Heq in Hi2, Happ2. clear Heq Hid'.
  rewrite Happ2. cbn [fst]. rewrite contents_opened.
  assert (Hne : Key.make a (ulid.text id) <> Key.make b (ulid.text id)).
  { intros Heq. apply make_inj in Heq. tauto. }
  exists id, value1, value2, r1, r2.
  split; [exact Hne|]. split; [|split; [|split; [|split; [|split]]]].
  - apply In_set_other; [exact Hne|]. apply In_set.
  - apply In_set.
  - apply json_roundtrip, Hj1.
  - apply json_roundtrip, Hj2.
  - exact Hi1.
  - exact Hi2.
Qed.

Lemma sample_Test_admissible (n : Z) (e : Appended) :
  content_of e = Sample.Test n ->
  0 <= at_time e - sample_clock < 1000000000000 ->
  admissible sample_start e.
Proof.
  intros Hc Ht. unfold admissible. rewrite Hc. split; [|split].
  - unfold in_range, sample_clock in *. lia.
  - apply Test_registered.
  - reflexivity.
Qed.

Lemma Append_same_instant_same_identifier_witness :
  let q := fst (Append sample_clock "test.2" (Sample.Test 2)
                  (fst (Append sample_clock "test.1" (Sample.Test 1) sample_start))) in
  exists id value1 value2 r1 r2,
    Key.make "test.1" (ulid.text id) <> Key.make "test.2" (ulid.text id)
    /\ In (Key.make "test.1" (ulid.text id), value1) (contents q)
    /\ In (Key.make "test.2" (ulid.text id), value2) (contents q)
    /\ json_Unmarshal value1 = inl r1 /\ json_Unmarshal value2 = inl r2
    /\ Id r1 = id /\ Id r2 = id.
Proof.
  apply (Append_same_instant_same_identifier sample_clock "test.1" "test.2"
           (Sample.Test 1) (Sample.Test 2) sample_start).
  - exact wf_sample_start.
  - exact sample_no_faults.
  - exact sample_clock_in_range.
  - apply Test_registered.
  - reflexivity.
  - apply Test_registered.
  - reflexivity.
  - discriminate.
Defined.

(** ** Calls inside one millisecond *)

(** An entry written under a key of the aggregate takes its place among
    the records of the aggregate. *)
Lemma set_first (key value : string) (l : badger.entries) :
  (forall x, In x (keys l) -> Key.lt key x) ->
  badger.set key value l = (key, value) :: l.
Proof.
  destruct l as [|[k v] l]; [reflexivity|]. intros Hall. simpl.
  rewrite (Hall k (or_introl eq_refl)). reflexivity.
Qed.

Lemma filter_keys (prefix : string) (l : badger.entries) (x : string) :
  In x (keys (List.filter (badger.ValidForPrefix prefix) l)) -> In x (keys l).
Proof.
  unfold keys. rewrite !in_map_iff. intros (y & Hy & Hin).
  apply filter_In in Hin. exists y. tauto.
Qed.

Lemma filter_set_same (prefix key value : string) (l : badger.entries) :
  sorted l ->
  String.prefix prefix key = true ->
  List.filter (badger.ValidForPrefix prefix) (badger.set key value l)
  = badger.set key value (List.filter (badger.ValidForPrefix prefix) l).
Proof.
  intros Hs Hk.
  assert (Hvk : forall v, badger.ValidForPrefix prefix (key, v) = true)
    by (intros v; exact Hk).
  induction l as [|[k v] l IH].
  - cbn [badger.set List.filter]. rewrite Hvk. reflexivity.
  - destruct (sorted_inv _ _ _ Hs) as [Hl Hall]. specialize (IH Hl).
    cbn [badger.set]. destruct (String.compare key k) eqn:Hc.
    + apply String.compare_eq_iff in Hc. subst k. cbn [List.filter].
      rewrite !Hvk. cbn [badger.set]. rewrite compare_refl. reflexivity.
    + cbn [List.filter]. rewrite Hvk.
      destruct (badger.ValidForPrefix prefix (k, v)).
      * cbn [badger.set]. rewrite Hc. reflexivity.
      * symmetry. apply set_first. intros x Hx. apply filter_keys in Hx.
        eapply lt_trans; [exact Hc|]. apply Hall, Hx.
    + cbn [List.filter].
      destruct (badger.ValidForPrefix prefix (k, v)).
      * cbn [badger.set]. rewrite Hc, IH. reflexivity.
      * exact IH.
Qed.

Lemma make_compare (aggregate : string) (a b : ulid.ULID) :
  0 <= a < 32 ^ 26 -> 0 <= b < 32 ^ 26 ->
  String.compare (Key.make aggregate (ulid.text a))
    (Key.make aggregate (ulid.text b))
  = (a ?= b).
Proof.
  intros Ha Hb. rewrite !make_with_sep, compare_app_l.
  apply text_compare; assumption.
Qed.

(** C2 at its failing inputs: two values appended to an aggregate at clock
    readings of one millisecond come back from [Read] in the order of what
    the two freshly seeded generators yield, not in the order of the
    calls; when the two yield the same (as they do when both calls read
    the same instant) the second value has replaced the first. Both calls
    return no error. *)
Theorem Read_within_millisecond `{Collaborators} (t1 t2 : Time)
    (aggregate : string) (v1 v2 : GoValue) (p : Process) :
  wf p -> no_faults -> in_range t1 -> in_range t2 ->
  registered v1 p -> encodable v1 ->
  registered v2 p -> encodable v2 ->
  records_of aggregate p = [] ->
  millis t1 = millis t2 ->
  let events := [ mkAppended t1 aggregate v1; mkAppended t2 aggregate v2 ] in
  snd (run events p) = [Returns None; Returns None]
  /\ snd (Read aggregate (fst (run events p)))
     = Returns
         (match rand_Read10 (GoTime.UnixNano t1)
                ?= rand_Read10 (GoTime.UnixNano t2) with
          | Lt => [wire.received v1; wire.received v2]
          | Eq => [wire.received v2]
          | Gt => [wire.received v2; wire.received v1]
          end, None).
Proof.
  intros Hwf Hnf Ht1 Ht2 Hr1 He1 Hr2 He2 Hfresh Hms events. unfold events.
  destruct (Append_step t1 aggregate v1 p Hwf Hnf Ht1 (proj1 Hr1) He1)
    as (id1 & value1 & _ & Hid1 & Hdec1 & _ & Happ1).
  set (k1 := Key.make aggregate (ulid.text id1)) in *.
  set (q := opened p (badger.set k1 value1 (contents p))) in *.
  assert (Hs : sorted (contents p)) by (apply contents_sorted, Hwf).
  assert (Hwfq : wf q) by (apply wf_opened; [exact Hwf|apply set_sorted, Hs]).
  destruct (Append_step t2 aggregate v2 q Hwfq Hnf Ht2 (proj1 Hr2) He2)
    as (id2 & value2 & _ & Hid2 & Hdec2 & _ & Happ2).
  set (k2 := Key.make aggregate (ulid.text id2)) in *.
  set (q' := opened q (badger.set k2 value2 (contents q))) in *.
  assert (Hwfq' : wf q').
  { apply wf_opened; [exact Hwfq|]. apply set_sorted, contents_sorted, Hwfq. }
  cbn [run at_time to_aggregate content_of]. rewrite Happ1, Happ2.
  cbn [fst snd]. split; [reflexivity|].
  destruct (identifier_bounds t1 Ht1) as (Hp1 & _ & Hb1).
  destruct (identifier_bounds t2 Ht2) as (Hp2 & _ & Hb2).
  rewrite <- Hid1 in Hp1, Hb1. rewrite <- Hid2 in Hp2, Hb2.
  assert (Hcmp : String.compare k2 k1
                 = (rand_Read10 (GoTime.UnixNano t2)
                      ?= rand_Read10 (GoTime.UnixNano t1))).
  { unfold k1, k2. rewrite (make_compare aggregate _ _ Hb2 Hb1), Hp1, Hp2, Hms.
    unfold ulid.of_parts. apply Z.add_compare_mono_l. }
  assert (Hrec : records_of aggregate q'
                 = match String.compare k2 k1 with
                   | Lt => [(k2, value2); (k1, value1)]
                   | Eq => [(k2, value2)]
                   | Gt => [(k1, value1); (k2, value2)]
                   end).
  { unfold records_of, q'. rewrite contents_opened.
    rewrite filter_set_same;
      [|apply contents_sorted, Hwfq|apply prefix_make].
    fold (records_of aggregate q). unfold q, k1.
    rewrite (records_of_first aggregate _ value1 p Hwf Hfresh).
    reflexivity. }
  assert (Hregs : registered v1 q' /\ registered v2 q') by (split; assumption).
  rewrite Hcmp in Hrec. rewrite (Z.compare_antisym (rand_Read10 (GoTime.UnixNano t2))).
  destruct (rand_Read10 (GoTime.UnixNano t2) ?= rand_Read10 (GoTime.UnixNano t1));
    cbn [CompOpp].
  - rewrite (Read_decodes aggregate q' [v2] Hwfq' Hnf); [reflexivity| |].
    + rewrite Hrec. constructor; [exact Hdec2|constructor].
    + constructor; [apply Hregs|constructor].
  - rewrite (Read_decodes aggregate q' [v2; v1] Hwfq' Hnf); [reflexivity| |].
    + rewrite Hrec. constructor; [exact Hdec2|].
      constructor; [exact Hdec1|constructor].
    + constructor; [apply Hregs|]. constructor; [apply Hregs|constructor].
  - rewrite (Read_decodes aggregate q' [v1; v2] Hwfq' Hnf); [reflexivity| |].
    + rewrite Hrec. constructor; [exact Hdec1|].
      constructor; [exact Hdec2|constructor].
    + constructor; [apply Hregs|]. constructor; [apply Hregs|constructor].
Qed.

(** Two calls that read the same instant: the aggregate keeps the second
    value only. *)
Lemma Read_within_millisecond_witness :
  let events := [ mkAppended sample_clock "test.1" (Sample.Test 0);
                  mkAppended sample_clock "test.1" (Sample.Test 1) ] in
  snd (run events sample_start) = [Returns None; Returns None]
  /\ snd (Read "test.1" (fst (run events sample_start)))
     = Returns ([Sample.Test 1], None).
Proof.
  intros events.
  pose proof (Read_within_millisecond sample_clock sample_clock "test.1"
                (Sample.Test 0) (Sample.Test 1) sample_start
                wf_sample_start sample_no_faults sample_clock_in_range
                sample_clock_in_range (Test_registered 0) eq_refl
                (Test_registered 1) eq_refl eq_refl eq_refl) as Hw.
  cbv zeta in Hw. rewrite Z.compare_refl in Hw. exact Hw.
Defined.

(** With the sample generator: two calls 100 microseconds apart inside
    one millisecond, and [Read] returns the two values against the order
    of the calls. *)
Lemma sample_same_millisecond_inversion :
  let t1 : Time := sample_clock + 100000 in
  let t2 : Time := sample_clock + 200000 in
  let events := [ mkAppended t1 "test.1" (Sample.Test 0);
                  mkAppended t2 "test.1" (Sample.Test 1) ] in
  t1 <= t2 /\ millis t1 = millis t2
  /\ snd (run events sample_start) = [Returns None; Returns None]
  /\ snd (Read "test.1" (fst (run events sample_start)))
     = Returns ([Sample.Test 1; Sample.Test 0], None).
Proof.
  split; [vm_compute; discriminate|]. split; [reflexivity|].
  split; vm_compute; reflexivity.
Qed.

(** In one aggregate the second of two calls at one instant overwrites
    the first: one key is left. *)
Lemma Append_same_instant_overwrites :
  let q := fst (run [ mkAppended sample_clock "test.1" (Sample.Test 0);
                      mkAppended sample_clock "test.1" (Sample.Test 1) ]
                  sample_start) in
  snd (ListKeys q) = Returns (["test.1:01ETXKWW001BJZFD9G3TMK70AF"], None).
Proof. vm_compute. reflexivity. Qed.

(** ** Runs of [Append] *)

Lemma admissible_opened (p : Process) (l : badger.entries)
    (events : list Appended) :
  Forall (admissible p) events -> Forall (admissible (opened p l)) events.
Proof. intros Hall. exact Hall. Qed.

Lemma ticking_inv (e : Appended) (rest : list Appended) :
  ticking (e :: rest) ->
  ticking rest
  /\ Forall (fun e' => millis (at_time e) + 1 <= millis (at_time e')) rest.
Proof.
  unfold ticking. intros Ht. inversion Ht as [|? ? Hrest Hall]; subst.
  split; [exact Hrest|]. eapply List.Forall_impl; [|exact Hall].
  simpl. intros e' He'. lia.
Qed.

Lemma pow_bounds (ms : Z) :
  0 <= ms <= ulid.MaxTime -> 0 <= (ms + 1) * 2 ^ 80 < 32 ^ 26.
Proof.
  unfold ulid.MaxTime. intros Hms.
  change (2 ^ 80) with 1208925819614629174706176.
  change (32 ^ 26) with 1361129467683753853853498429727072845824. lia.
Qed.

(** A run of admissible calls at strictly increasing milliseconds, to
    aggregates named without the separator: every call returns no error,
    and the records of [aggregate] grow at their end by the envelopes of
    the values appended to it, in the order of the calls. *)
Lemma run_records `{Collaborators} (aggregate : string)
    (events : list Appended) :
  forall (p : Process) (lo : Z),
  wf p -> no_faults -> 0 <= lo ->
  Forall (admissible p) events ->
  Forall (fun e => Key.has_sep (to_aggregate e) = false) events ->
  Forall (fun e => lo <= millis (at_time e)) events ->
  ticking events ->
  below aggregate lo (contents p) ->
  snd (run events p) = List.map (fun _ => Returns None) events
  /\ wf (fst (run events p))
  /\ typeRegistery (store (fst (run events p))) = typeRegistery (store p)
  /\ gob_registry (fst (run events p)) = gob_registry p
  /\ exists new,
       records_of aggregate (fst (run events p))
       = records_of aggregate p ++ new
       /\ Forall2 decodes_to new (appended_to aggregate events).
Proof.
  induction events as [|e rest IH]; intros p lo Hwf Hnf Hlo Hadm Hsep Hms Htick Hbelow.
  - simpl. split; [reflexivity|]. split; [exact Hwf|].
    split; [reflexivity|]. split; [reflexivity|].
    exists []. rewrite app_nil_r. split; [reflexivity|constructor].
  - inversion Hadm as [|? ? (Hnow & Hreg & Henc) Hadm']; subst.
    inversion Hsep as [|? ? Hsep_e Hsep']; subst.
    inversion Hms as [|? ? Hms_e Hms']; subst.
    destruct (ticking_inv _ _ Htick) as [Htick' Hnext].
    destruct (Append_step (at_time e) (to_aggregate e) (content_of e) p
                Hwf Hnf Hnow (proj1 Hreg) Henc)
      as (id & value & Hid & _ & Hdec & _ & Happ).
    destruct (NewId_bounds _ _ Hnow Hid) as [Hidb Hidr].
    pose proof (millis_bounds _ Hnow) as Hmb.
    pose proof (pow_bounds _ Hmb) as Hpb.
    assert (Hpow : 0 < 2 ^ 80) by (apply Z.pow_pos_nonneg; lia).
    set (key := Key.make (to_aggregate e) (ulid.text id)) in *.
    set (q := opened p (badger.set key value (contents p))) in *.
    assert (Hs : sorted (contents p)) by (apply contents_sorted, Hwf).
    assert (Hwfq : wf q) by (apply wf_opened; [exact Hwf|apply set_sorted, Hs]).
    assert (Hold : forall x, In x (keys (contents p)) ->
              String.prefix (Key.with_sep aggregate) x = true ->
              Key.lt x (Key.make aggregate (ulid.text id))).
    { intros x Hx Hpx. specialize (Hbelow x Hx Hpx).
      destruct (Z.eq_dec (lo * 2 ^ 80) id) as [<-|Hne]; [exact Hbelow|].
      eapply lt_trans; [exact Hbelow|]. apply make_lt, text_lt; nia. }
    assert (Hbelowq : below aggregate (millis (at_time e) + 1) (contents q)).
    { intros x Hx Hpx. unfold q in Hx. rewrite contents_opened in Hx.
      apply keys_set in Hx. destruct Hx as [->|Hx].
      - unfold key in Hpx |- *.
        pose proof (prefix_make_other _ _ _ Hsep_e (text_no_sep id) Hpx) as <-.
        apply make_lt, text_lt; lia.
      - eapply lt_trans; [apply (Hold x Hx Hpx)|].
        apply make_lt, text_lt; lia. }
    destruct (IH q (millis (at_time e) + 1) Hwfq Hnf ltac:(lia)
                (admissible_opened p _ rest Hadm') Hsep' Hnext Htick' Hbelowq)
      as (Hout & Hwf' & Hreg' & Hgob' & new & Hnew & Hdec').
    simpl run. rewrite Happ. fold q.
    destruct (run rest q) as [q' rs] eqn:Hrun. cbn [fst snd] in *.
    split; [simpl; rewrite Hout; reflexivity|].
    split; [exact Hwf'|]. split; [exact Hreg'|]. split; [exact Hgob'|].
    unfold appended_to. simpl List.filter.
    destruct (String.eqb_spec (to_aggregate e) aggregate) as [Heq|Hne].
    + exists ((key, value) :: new). rewrite Hnew. unfold records_of, q.
      rewrite contents_opened.
      rewrite filter_set_last; [|exact Hs| |].
      * rewrite <- app_assoc. split; [reflexivity|].
        simpl. constructor; [exact Hdec|exact Hdec'].
      * unfold key. rewrite Heq. apply prefix_make.
      * intros x Hx Hpx. unfold key. rewrite Heq. exact (Hold x Hx Hpx).
    + exists new. rewrite Hnew. unfold records_of, q.
      rewrite contents_opened, filter_set_other; [split; [reflexivity|exact Hdec']|].
      destruct (String.prefix (Key.with_sep aggregate) key) eqn:Hp; [|reflexivity].
      exfalso. apply Hne. symmetry.
      exact (prefix_make_other _ _ _ Hsep_e (text_no_sep id) Hp).
Qed.

(** What [NewId] returns, whenever it returns, is the identifier of the
    clock reading, and it fits the 26 characters of its text. *)
Lemma identifier_fits `{Collaborators} (t : Time) (id : ulid.ULID) :
  NewId t = Returns id -> id = identifier t /\ 0 <= identifier t < 32 ^ 26.
Proof.
  unfold NewId, identifier. intros Hid.
  destruct (ulid.Timestamp t >? ulid.MaxTime) eqn:Hms; [discriminate|].
  inversion Hid as [Heq]. split; [reflexivity|].
  rewrite Z.gtb_ltb in Hms. apply Z.ltb_ge in Hms.
  assert (Hlow : 0 <= ulid.Timestamp t).
  { unfold ulid.Timestamp, GoTime.to_uint64. apply Z.mod_pos_bound. lia. }
  pose proof (rand_Read10_bytes (GoTime.UnixNano t)) as He.
  unfold ulid.of_parts, ulid.MaxTime in *.
  change (2 ^ 80) with 1208925819614629174706176 in He |- *.
  change (32 ^ 26) with 1361129467683753853853498429727072845824.
  lia.
Qed.

(** An [Append] that returns no error has written one entry, under the key
    made of the aggregate and the identifier of its clock reading. *)
Lemma Append_returned_nil `{Collaborators} (now : Time) (aggregate : string)
    (content : GoValue) (p : Process) :
  wf p ->
  snd (Append now aggregate content p) = Returns None ->
  0 <= identifier now < 32 ^ 26
  /\ exists value,
       fst (Append now aggregate content p)
       = opened p (badger.set (Key.make aggregate (ulid.text (identifier now)))
                     value (contents p)).
Proof.
  intros Hwf. rewrite Append_envelope. unfold envelope.
  destruct (NewId now) as [id|msg] eqn:Hid; [|discriminate].
  destruct (identifier_fits now id Hid) as [-> Hfits].
  destruct (gob.Encode (gob_registry p) content) as [c|err]; [|discriminate].
  destruct (json_Marshal _) as [value|err]; [|discriminate].
  rewrite (write_view _ value p Hwf).
  destruct (view p) as [l|e] eqn:Hv; [|discriminate].
  destruct (set_error _ value); [discriminate|].
  intros _. split; [exact Hfits|]. exists value.
  rewrite (view_contents p l Hv). reflexivity.
Qed.

(** Calls that do not give one aggregate the same identifier write under
    different keys. *)
Lemma key_of_inj `{Collaborators} (e1 e2 : Appended) :
  0 <= identifier (at_time e1) < 32 ^ 26 ->
  0 <= identifier (at_time e2) < 32 ^ 26 ->
  key_of e1 = key_of e2 ->
  (to_aggregate e1, identifier (at_time e1))
  = (to_aggregate e2, identifier (at_time e2)).
Proof.
  intros H1 H2 Heq. unfold key_of in Heq. apply make_inj in Heq.
  destruct Heq as [Ha Ht]. f_equal; [exact Ha|].
  apply text_inj; [exact H1|exact H2|exact Ht].
Qed.

Lemma distinct_inv `{Collaborators} (e : Appended) (rest : list Appended) :
  0 <= identifier (at_time e) < 32 ^ 26 ->
  Forall (fun e' => 0 <= identifier (at_time e') < 32 ^ 26) rest ->
  distinct (e :: rest) ->
  distinct rest /\ ~ In (key_of e) (List.map key_of rest).
Proof.
  unfold distinct. simpl. intros He Hrest Hnd.
  inversion Hnd as [|? ? Hnotin Hnd']; subst. split; [exact Hnd'|].
  intros Hin. apply Hnotin. apply in_map_iff in Hin.
  destruct Hin as (e' & Heq & Hin'). apply list_elem_of_In, in_map_iff.
  exists e'.
  split; [|exact Hin']. symmetry. apply key_of_inj; [exact He| |congruence].
  rewrite List.Forall_forall in Hrest. apply Hrest, Hin'.
Qed.

(** The calls of a run that all returned no error got identifiers that
    fit. *)
Lemma run_returned_fits `{Collaborators} (events : list Appended) :
  forall p : Process,
  wf p ->
  snd (run events p) = List.map (fun _ => Returns None) events ->
  Forall (fun e => 0 <= identifier (at_time e) < 32 ^ 26) events.
Proof.
  induction events as [|e rest IH]; intros p Hwf Hout; [constructor|].
  simpl in Hout.
  pose proof (wf_Append (at_time e) (to_aggregate e) (content_of e) p Hwf)
    as Hwfq.
  pose proof (Append_returned_nil (at_time e) (to_aggregate e) (content_of e)
                p Hwf) as Hnil.
  destruct (Append (at_time e) (to_aggregate e) (content_of e) p) as [q r].
  specialize (IH q Hwfq).
  destruct (run rest q) as [q' rs]. cbn [fst snd] in *.
  inversion Hout as [[Hr Hrs]]. constructor.
  - apply (Hnil Hr).
  - apply IH, Hrs.
Qed.

(** A run of calls that all returned no error, no two of which give one
    aggregate the same identifier: each call has added its key to those
    the engine holds, and the store holds a handle once a call was
    made. *)
Lemma run_returned_keys `{Collaborators} (events : list Appended) :
  forall p : Process,
  wf p ->
  snd (run events p) = List.map (fun _ => Returns None) events ->
  distinct events ->
  (forall k, In k (List.map key_of events) -> ~ In k (keys (contents p))) ->
  wf (fst (run events p))
  /\ length (contents (fst (run events p)))
     = (length (contents p) + length events)%nat
  /\ (forall k, In k (keys (contents (fst (run events p))))
        <-> In k (keys (contents p)) \/ In k (List.map key_of events))
  /\ (db (store p) <> None \/ events <> [] ->
      db (store (fst (run events p))) <> None).
Proof.
  induction events as [|e rest IH]; intros p Hwf Hout Hdist Hnew.
  - simpl. split; [exact Hwf|]. split; [lia|]. split; [intros k; tauto|].
    intros [Hdb|Hne]; [exact Hdb|congruence].
  - pose proof (run_returned_fits (e :: rest) p Hwf Hout) as Hfits.
    inversion Hfits as [|? ? Hfit Hfits']; subst.
    destruct (distinct_inv e rest Hfit Hfits' Hdist) as [Hdist' Hfirst].
    simpl in Hout. simpl run.
    pose proof (Append_returned_nil (at_time e) (to_aggregate e) (content_of e)
                  p Hwf) as Hnil.
    destruct (Append (at_time e) (to_aggregate e) (content_of e) p)
      as [q r] eqn:Happ.
    destruct (run rest q) as [q' rs] eqn:Hrun. cbn [fst snd] in *.
    inversion Hout as [[Hr Hrs]].
    destruct (Hnil Hr) as (_ & value & Hq). fold (key_of e) in Hq.
    assert (Hs : sorted (contents p)) by (apply contents_sorted, Hwf).
    assert (Hwfq : wf q)
      by (rewrite Hq; apply wf_opened; [exact Hwf|apply set_sorted, Hs]).
    assert (Hnotin : ~ In (key_of e) (keys (contents p)))
      by (apply Hnew; left; reflexivity).
    assert (Hnewq : forall k, In k (List.map key_of rest) ->
                      ~ In k (keys (contents q))).
    { intros k Hk Hin. rewrite Hq, contents_opened in Hin.
      apply keys_set in Hin. destruct Hin as [->|Hin]; [exact (Hfirst Hk)|].
      apply (Hnew k); [right; exact Hk|exact Hin]. }
    specialize (IH q Hwfq). rewrite Hrun in IH. cbn [fst snd] in IH.
    destruct (IH Hrs Hdist' Hnewq) as (Hwf' & Hlen & Hkeys & Hdb).
    split; [exact Hwf'|]. split; [|split].
    + rewrite Hlen, Hq.
      rewrite contents_opened, length_set_new by exact Hnotin. simpl. lia.
    + intros k. rewrite Hkeys, Hq. rewrite contents_opened, keys_set.
      simpl. intuition congruence.
    + intros _. apply Hdb. left. rewrite Hq. simpl. discriminate.
Qed.

(** A run of admissible calls no two of which give one aggregate the same
    identifier: every call returns no error and adds its key to those the
    engine holds. *)
Lemma run_keys `{Collaborators} (events : list Appended) :
  forall p : Process,
  wf p -> no_faults ->
  Forall (admissible p) events ->
  distinct events ->
  (forall k, In k (List.map key_of events) -> ~ In k (keys (contents p))) ->
  snd (run events p) = List.map (fun _ => Returns None) events
  /\ wf (fst (run events p))
  /\ length (contents (fst (run events p)))
     = (length (contents p) + length events)%nat
  /\ (forall k, In k (keys (contents (fst (run events p))))
        <-> In k (keys (contents p)) \/ In k (List.map key_of events)).
Proof.
  induction events as [|e rest IH]; intros p Hwf Hnf Hadm Hdist Hnew.
  - simpl. split; [reflexivity|]. split; [exact Hwf|]. split; [lia|].
    intros k. tauto.
  - inversion Hadm as [|? ? (Hnow & Hreg & Henc) Hadm']; subst.
    assert (Hfits : Forall (fun e' => 0 <= identifier (at_time e') < 32 ^ 26)
                      rest).
    { eapply List.Forall_impl; [|exact Hadm']. intros e' He'.
      apply (identifier_bounds _ (proj1 He')). }
    destruct (distinct_inv e rest (proj2 (proj2 (identifier_bounds _ Hnow)))
                Hfits Hdist) as [Hdist' Hfirst].
    destruct (Append_step (at_time e) (to_aggregate e) (content_of e) p
                Hwf Hnf Hnow (proj1 Hreg) Henc)
      as (id & value & _ & Hid & _ & _ & Happ).
    subst id. fold (key_of e) in Happ.
    set (q := opened p (badger.set (key_of e) value (contents p))) in *.
    assert (Hs : sorted (contents p)) by (apply contents_sorted, Hwf).
    assert (Hwfq : wf q) by (apply wf_opened; [exact Hwf|apply set_sorted, Hs]).
    assert (Hnotin : ~ In (key_of e) (keys (contents p)))
      by (apply Hnew; left; reflexivity).
    assert (Hnewq : forall k, In k (List.map key_of rest) ->
                      ~ In k (keys (contents q))).
    { intros k Hk Hin. unfold q in Hin. rewrite contents_opened in Hin.
      apply keys_set in Hin. destruct Hin as [->|Hin]; [exact (Hfirst Hk)|].
      apply (Hnew k); [right; exact Hk|exact Hin]. }
    destruct (IH q Hwfq Hnf (admissible_opened p _ rest Hadm') Hdist' Hnewq)
      as (Hout & Hwf' & Hlen & Hkeys).
    simpl run. rewrite Happ. fold q.
    destruct (run rest q) as [q' rs] eqn:Hrun. cbn [fst snd] in *.
    split; [simpl; rewrite Hout; reflexivity|]. split; [exact Hwf'|]. split.
    + rewrite Hlen. unfold q.
      rewrite contents_opened, length_set_new by exact Hnotin. simpl. lia.
    + intros k. rewrite Hkeys. unfold q. rewrite contents_opened, keys_set.
      simpl. intuition congruence.
Qed.

(** Calls at strictly increasing milliseconds get different identifiers. *)
Lemma ticking_distinct `{Collaborators} (events : list Appended) :
  Forall (fun e => in_range (at_time e)) events ->
  ticking events -> distinct events.
Proof.
  unfold distinct. induction events as [|e rest IH]; intros Hrange Htick.
  - constructor.
  - inversion Hrange as [|? ? He Hrest]; subst.
    destruct (ticking_inv _ _ Htick) as [Htick' Hnext].
    simpl. constructor; [|apply IH; assumption].
    intros Hin. apply list_elem_of_In, in_map_iff in Hin.
    destruct Hin as (e' & Heq & Hin').
    rewrite List.Forall_forall in Hnext, Hrest.
    specialize (Hnext e' Hin'). specialize (Hrest e' Hin').
    destruct (identifier_bounds _ He) as (_ & Hb & _).
    destruct (identifier_bounds _ Hrest) as (_ & Hb' & _).
    assert (Hid : identifier (at_time e') = identifier (at_time e)) by congruence.
    change (2 ^ 80) with 1208925819614629174706176 in Hb, Hb'. nia.
Qed.

Lemma appended_registered (aggregate : string)
    (events : list Appended) (p : Process) :
  Forall (admissible p) events ->
  Forall (fun v => registered v p) (appended_to aggregate events).
Proof.
  intros Hadm. unfold appended_to.
  induction Hadm as [|e rest (_ & Hreg & _) _ IH]; simpl; [constructor|].
  destruct (String.eqb (to_aggregate e) aggregate); simpl; [|exact IH].
  constructor; [exact Hreg|exact IH].
Qed.

Lemma admissible_millis (events : list Appended) (p : Process) :
  Forall (admissible p) events ->
  Forall (fun e => 0 <= millis (at_time e)) events.
Proof.
  intros Hadm. eapply List.Forall_impl; [|exact Hadm].
  intros e (Hnow & _). apply (millis_bounds _ Hnow).
Qed.

Lemma admissible_in_range (events : list Appended) (p : Process) :
  Forall (admissible p) events ->
  Forall (fun e => in_range (at_time e)) events.
Proof.
  intros Hadm. eapply List.Forall_impl; [|exact Hadm].
  intros e (Hnow & _). exact Hnow.
Qed.

(** ** Ordering *)

(** When the clock moves on by a millisecond or more between any two
    calls, [Read] returns what was appended in the order of the calls: on
    a store where [aggregate] has no records, after a run of [Append]
    calls of values of registered types, to aggregates named without
    [':'], at clock readings in strictly increasing milliseconds, every
    call has returned no error and [Read] of [aggregate] returns the
    values appended to it as [encoding/gob] rebuilds them, in the order
    of the calls, and no error; with nothing appended to it that is the
    empty sequence. *)
Theorem Read_in_append_order `{Collaborators} (events : list Appended)
    (aggregate : string) (p : Process) :
  wf p -> no_faults ->
  records_of aggregate p = [] ->
  Forall (admissible p) events ->
  Forall (fun e => Key.has_sep (to_aggregate e) = false) events ->
  ticking events ->
  snd (run events p) = List.map (fun _ => Returns None) events
  /\ snd (Read aggregate (fst (run events p)))
     = Returns (read_back aggregate events, None).
Proof.
  intros Hwf Hnf Hfresh Hadm Hsep Htick.
  assert (Hbelow : below aggregate 0 (contents p)).
  { intros x Hx Hpx. rewrite (filter_nil_none _ _ Hfresh x Hx) in Hpx.
    discriminate. }
  destruct (run_records aggregate events p 0 Hwf Hnf ltac:(lia) Hadm Hsep
              (admissible_millis events p Hadm) Htick Hbelow)
    as (Hout & Hwf' & Hreg' & Hgob' & new & Hnew & Hdec).
  split; [exact Hout|].
  rewrite (Read_decodes aggregate _ (appended_to aggregate events) Hwf' Hnf).
  - reflexivity.
  - rewrite Hnew, Hfresh. exact Hdec.
  - eapply List.Forall_impl; [|exact (appended_registered aggregate events p Hadm)].
    intros v [Hg Hr]. split; [rewrite Hgob'|rewrite Hreg']; assumption.
Qed.

Lemma Read_in_append_order_witness :
  let events := [ mkAppended sample_clock "test.1" (Sample.Test 0);
                  mkAppended (sample_clock + 1000000) "test.2" (Sample.Test 0);
                  mkAppended (sample_clock + 2000000) "test.1" (Sample.Test 1) ] in
  snd (run events sample_start) = [Returns None; Returns None; Returns None]
  /\ snd (Read "test.1" (fst (run events sample_start)))
     = Returns ([Sample.Test 0; Sample.Test 1], None).
Proof.
  intros events.
  apply (Read_in_append_order events "test.1" sample_start).
  - exact wf_sample_start.
  - exact sample_no_faults.
  - reflexivity.
  - repeat constructor;
      (eapply sample_Test_admissible; [reflexivity|unfold sample_clock; simpl; lia]).
  - repeat constructor.
  - repeat constructor.
Defined.

(** ** Key listings *)

(** In every state [ListKeysForAggregate] returns the keys of [ListKeys]
    that carry the aggregate's prefix, or the same error. *)
Lemma ListKeysForAggregate_filters `{Collaborators} (aggregate : string)
    (p : Process) :
  wf p ->
  snd (ListKeysForAggregate aggregate p)
  = match snd (ListKeys p) with
    | Returns (ks, None) =>
        Returns (List.filter (String.prefix (Key.with_sep aggregate)) ks, None)
    | r => r
    end.
Proof.
  intros Hwf.
  rewrite (ListKeysForAggregate_view aggregate p Hwf), (ListKeys_view p Hwf).
  destruct (view p); reflexivity.
Qed.




(** * Further properties of the code *)

(** ** The registry *)

(** [Register] writes the same two entries however often it is called for
    a type, and calls for types of different names commute. *)
Theorem Register_idempotent_commutes (t u : GoValue) (p : Process) :
  Register t (Register t p) = Register t p
  /\ (typeName t <> typeName u ->
      Register t (Register u p) = Register u (Register t p)).
Proof.
  split.
  - unfold Register. cbn [store typeRegistery gob_registry disk RootDir
      MemoryOnly EncryptionKey EncryptionRotationDuration db].
    rewrite insert_insert_eq. f_equal.
    apply leibniz_equiv. rewrite <- (assoc_L (∪)), (idemp_L (∪)). reflexivity.
  - intros Hne. unfold Register. cbn [store typeRegistery gob_registry disk
      RootDir MemoryOnly EncryptionKey EncryptionRotationDuration db].
    rewrite (insert_insert_ne _ (typeName t) (typeName u)) by exact Hne.
    f_equal. apply leibniz_equiv.
    rewrite <- !(assoc_L (∪)), (comm_L (∪) {[reflect.TypeOf u]}). reflexivity.
Qed.

Lemma Register_idempotent_commutes_witness :
  Register (Sample.Test 1) (Register (GoInt 0) sample_start)
  = Register (GoInt 0) (Register (Sample.Test 1) sample_start).
Proof.
  apply (proj2 (Register_idempotent_commutes (Sample.Test 1) (GoInt 0)
                  sample_start)).
  discriminate.
Defined.

(** After [Register] of a value, [makeInstance] of its type name returns
    the zero value of its type, and what [makeInstance] does for every
    other name is as before. *)
Theorem makeInstance_after_Register (t : GoValue) (p : Process) (name : string) :
  makeInstance (store (Register t p)) (typeName t) = Returns (reflect.zero_of t)
  /\ (name <> typeName t ->
      makeInstance (store (Register t p)) name = makeInstance (store p) name).
Proof.
  unfold makeInstance, Register. cbn [store typeRegistery]. split.
  - rewrite lookup_insert_eq. reflexivity.
  - intros Hne. rewrite lookup_insert_ne by congruence. reflexivity.
Qed.

Lemma makeInstance_after_Register_witness :
  makeInstance (store (Register (Sample.Test 7) sample_start)) "int"
  = makeInstance (store sample_start) "int".
Proof.
  apply (proj2 (makeInstance_after_Register (Sample.Test 7) sample_start "int")).
  discriminate.
Defined.

Lemma typeRegistery_register_all (ts : list GoValue) (p : Process)
    (name : string) :
  is_Some (typeRegistery (store (register_all ts p)) !! name)
  <-> In name (List.map typeName ts)
      \/ is_Some (typeRegistery (store p) !! name).
Proof.
  unfold register_all. revert p.
  induction ts as [|t ts IH]; intros p; simpl.
  - tauto.
  - rewrite IH. unfold Register. cbn [store typeRegistery].
    destruct (decide (typeName t = name)) as [->|Hne].
    + rewrite lookup_insert_eq. split; intros _; [left; left; reflexivity|].
      right. eexists. reflexivity.
    + rewrite lookup_insert_ne by exact Hne. tauto.
Qed.

(** On a store that went through a list of [Register] calls,
    [makeInstance] returns for exactly the names of the types registered
    (then or before), and panics for every other name. *)
Theorem makeInstance_resolves_iff (ts : list GoValue) (p : Process)
    (name : string) :
  ((exists v, makeInstance (store (register_all ts p)) name = Returns v)
   <-> In name (List.map typeName ts)
       \/ is_Some (typeRegistery (store p) !! name))
  /\ (makeInstance (store (register_all ts p)) name = Panics "reflect: New(nil)"
      <-> ~ (In name (List.map typeName ts)
             \/ is_Some (typeRegistery (store p) !! name))).
Proof.
  rewrite <- (typeRegistery_register_all ts p name).
  unfold makeInstance, reflect.New_Elem_Interface.
  destruct (typeRegistery (store (register_all ts p)) !! name) as [ty|].
  - split; split.
    + intros _. eexists. reflexivity.
    + intros _. eexists. reflexivity.
    + discriminate.
    + intros Hn. exfalso. apply Hn. eexists. reflexivity.
  - split; split.
    + intros [v Hv]. discriminate.
    + intros [ty Hty]. discriminate.
    + intros _ [ty Hty]. discriminate.
    + reflexivity.
Qed.

(** ** The handle *)

(** [kvstore] opens the engine once: the handle a first call stored is the
    one every later call returns, with the store unchanged. *)
Theorem kvstore_opens_once `{Collaborators} (p q : Process) (d : badger.DB) :
  kvstore p = (q, inl d) ->
  db (store q) = Some d /\ kvstore q = (q, inl d).
Proof.
  unfold kvstore. destruct (db (store p)) as [d0|] eqn:Hd.
  - intros Heq. inversion Heq; subst. rewrite Hd. split; reflexivity.
  - destruct (badger_Open (options (store p)) (disk p)) as [d1|e];
      [|discriminate].
    intros Heq. inversion Heq; subst. split; reflexivity.
Qed.

Lemma kvstore_opens_once_witness :
  db (store (fst (kvstore sample_start)))
  = Some {| badger.opts := options (store sample_start); badger.data := [] |}
  /\ kvstore (fst (kvstore sample_start))
     = (fst (kvstore sample_start),
        inl {| badger.opts := options (store sample_start); badger.data := [] |}).
Proof.
  apply (kvstore_opens_once sample_start). reflexivity.
Defined.

(** A call of [kvstore] that fails stores no handle and leaves the store
    as it was, so that the next call tries to open again. *)
Theorem kvstore_failure_keeps_store `{Collaborators} (p q : Process) (e : error) :
  kvstore p = (q, inr e) ->
  q = p /\ db (store p) = None /\ open_error (options (store p)) = Some e.
Proof.
  unfold kvstore, badger_Open. destruct (db (store p)) as [d0|]; [discriminate|].
  destruct (open_error (options (store p))) as [e'|]; [|discriminate].
  intros Heq. inversion Heq; subst. repeat split; reflexivity.
Qed.

(** An [EncryptionKey] shorter than 128 bytes is not handed to the engine:
    the handle [kvstore] opens then has the default options for the
    directory, without key, and only [InMemory] set from the store. A key
    of 128 bytes or more is handed over with the rotation duration and an
    index cache of 100 MiB. *)
Theorem kvstore_encryption_threshold `{Collaborators} (p q : Process)
    (d : badger.DB) :
  db (store p) = None ->
  kvstore p = (q, inl d) ->
  (String.length (EncryptionKey (store p)) < 128)%nat ->
  badger.opts d
  = badger.WithInMemory (MemoryOnly (store p))
      (badger.DefaultOptions (RootDir (store p)))
  /\ badger.EncryptionKey (badger.opts d) = EmptyString.
Proof.
  intros Hdb Hkv Hlen. unfold kvstore, badger_Open in Hkv. rewrite Hdb in Hkv.
  destruct (open_error (options (store p))); [discriminate|].
  inversion Hkv; subst. cbn [badger.opts]. unfold options.
  destruct (128 <=? Z.of_nat (String.length (EncryptionKey (store p)))) eqn:Hle.
  - apply Z.leb_le in Hle. lia.
  - split; reflexivity.
Qed.

Lemma kvstore_encryption_threshold_witness :
  let p := start (FileStore "events" "0123456789abcdef0123456789abcdef" 3600) [] in
  badger.EncryptionKey
    (badger.opts {| badger.opts := options (store p); badger.data := [] |})
  = EmptyString.
Proof.
  intros p.
  refine (proj2 (kvstore_encryption_threshold p
                   (with_db p (Some {| badger.opts := options (store p);
                                       badger.data := [] |}))
                   {| badger.opts := options (store p); badger.data := [] |}
                   _ _ _)).
  - reflexivity.
  - reflexivity.
  - vm_compute. lia.
Defined.

Theorem kvstore_encryption_key_used `{Collaborators} (p q : Process)
    (d : badger.DB) :
  db (store p) = None ->
  kvstore p = (q, inl d) ->
  (128 <= String.length (EncryptionKey (store p)))%nat ->
  badger.EncryptionKey (badger.opts d) = EncryptionKey (store p)
  /\ badger.EncryptionKeyRotationDuration (badger.opts d)
     = EncryptionRotationDuration (store p)
  /\ badger.IndexCacheSize (badger.opts d) = 104857600
  /\ badger.InMemory (badger.opts d) = MemoryOnly (store p)
  /\ badger.Dir (badger.opts d) = RootDir (store p).
Proof.
  intros Hdb Hkv Hlen. unfold kvstore, badger_Open in Hkv. rewrite Hdb in Hkv.
  destruct (open_error (options (store p))); [discriminate|].
  inversion Hkv; subst. cbn [badger.opts]. unfold options.
  destruct (128 <=? Z.of_nat (String.length (EncryptionKey (store p)))) eqn:Hle.
  - repeat split; reflexivity.
  - apply Z.leb_gt in Hle. lia.
Qed.

Lemma kvstore_failure_keeps_store_witness :
  @kvstore Faults.no_open sample_start
  = (sample_start, inr "open: directory is locked"%string)
  /\ db (store sample_start) = None.
Proof.
  destruct (@kvstore_failure_keeps_store Faults.no_open sample_start
              sample_start "open: directory is locked" eq_refl)
    as (_ & Hdb & _).
  split; [reflexivity|exact Hdb].
Defined.

Lemma kvstore_encryption_key_used_witness :
  let key :=
    ("0123456789abcdef0123456789abcdef0123456789abcdef0123456789abcdef" +:+
     "0123456789abcdef0123456789abcdef0123456789abcdef0123456789abcdef")%string in
  let p := start (FileStore "events" key 3600) [] in
  badger.EncryptionKey (options (store p)) = key
  /\ badger.EncryptionKeyRotationDuration (options (store p)) = 3600
  /\ badger.IndexCacheSize (options (store p)) = 104857600
  /\ badger.InMemory (options (store p)) = false
  /\ badger.Dir (options (store p)) = "events"%string.
Proof.
  intros key p.
  exact (kvstore_encryption_key_used p
           (with_db p (Some {| badger.opts := options (store p);
                               badger.data := [] |}))
           {| badger.opts := options (store p); badger.data := [] |}
           eq_refl eq_refl ltac:(vm_compute; lia)).
Defined.

(** ** Reading writes nothing *)

(** [Read] changes nothing that is stored or registered: after it the
    engine holds the same entries, the registries are the same, and any
    [Read] that follows returns what it would have returned before, with
    no further change of the store. *)
Theorem Read_changes_nothing `{Collaborators} (a b : string) (p : Process) :
  wf p ->
  contents (fst (Read a p)) = contents p
  /\ disk (fst (Read a p)) = disk p
  /\ typeRegistery (store (fst (Read a p))) = typeRegistery (store p)
  /\ gob_registry (fst (Read a p)) = gob_registry p
  /\ Read b (fst (Read a p)) = (fst (Read a p), snd (Read b p)).
Proof.
  intros Hwf. rewrite (Read_view a p Hwf), (Read_view b p Hwf).
  destruct (view p) as [l|e] eqn:Hv; cbn [fst snd].
  - pose proof (view_sorted p l Hwf Hv) as Hl.
    split; [rewrite contents_opened; apply (view_contents p l Hv)|].
    repeat (split; [reflexivity|]).
    rewrite Read_view by (apply wf_opened; assumption).
    rewrite view_opened. reflexivity.
  - repeat (split; [reflexivity|]).
    rewrite (Read_view b p Hwf), Hv. reflexivity.
Qed.

Lemma Read_changes_nothing_witness :
  let p := fst (Append sample_clock "test.1" (Sample.Test 1) sample_start) in
  contents (fst (Read "test.2" p)) = contents p
  /\ disk (fst (Read "test.2" p)) = disk p
  /\ typeRegistery (store (fst (Read "test.2" p))) = typeRegistery (store p)
  /\ gob_registry (fst (Read "test.2" p)) = gob_registry p
  /\ Read "test.1" (fst (Read "test.2" p))
     = (fst (Read "test.2" p), snd (Read "test.1" p)).
Proof.
  intros p. apply (Read_changes_nothing "test.2" "test.1" p).
  apply wf_Append, wf_sample_start.
Defined.

(** Neither do the two listings: the entries and what [Read] returns are
    the same after [ListKeys] and after [ListKeysForAggregate]. *)
Theorem listings_change_nothing `{Collaborators} (a b : string) (p : Process) :
  wf p ->
  contents (fst (ListKeys p)) = contents p
  /\ snd (Read b (fst (ListKeys p))) = snd (Read b p)
  /\ contents (fst (ListKeysForAggregate a p)) = contents p
  /\ snd (Read b (fst (ListKeysForAggregate a p))) = snd (Read b p).
Proof.
  intros Hwf.
  rewrite (ListKeys_view p Hwf), (ListKeysForAggregate_view a p Hwf),
    (Read_view b p Hwf).
  destruct (view p) as [l|e] eqn:Hv; cbn [fst snd].
  - pose proof (view_sorted p l Hwf Hv) as Hl.
    rewrite contents_opened.
    rewrite Read_view by (apply wf_opened; assumption).
    rewrite view_opened.
    repeat split; try reflexivity; apply (view_contents p l Hv).
  - rewrite (Read_view b p Hwf), Hv. repeat split; reflexivity.
Qed.

Lemma listings_change_nothing_witness :
  let p := fst (Append sample_clock "test.1" (Sample.Test 1) sample_start) in
  contents (fst (ListKeys p)) = contents p
  /\ snd (Read "test.1" (fst (ListKeys p))) = snd (Read "test.1" p)
  /\ contents (fst (ListKeysForAggregate "test.2" p)) = contents p
  /\ snd (Read "test.1" (fst (ListKeysForAggregate "test.2" p)))
     = snd (Read "test.1" p).
Proof.
  intros p. apply (listings_change_nothing "test.2" "test.1" p).
  apply wf_Append, wf_sample_start.
Defined.

Lemma iterate_length `{Collaborators} (p : Process) (items : badger.entries)
    (acc vs : list GoValue) :
  badger.iterate (fun _ => true)
    (fun item values => item_Value item (decode_item p) values) items acc
  = Returns (vs, None) ->
  length vs = (length acc + length items)%nat.
Proof.
  revert acc. induction items as [|item items IH]; intros acc; simpl.
  - intros Heq. inversion Heq; subst. lia.
  - unfold item_Value at 1, decode_item at 1.
    destruct (value_error (fst item)); [discriminate|].
    destruct (json_Unmarshal (snd item)) as [r|e]; [|discriminate].
    destruct (makeInstance (store p) (Type_ r)) as [v|msg]; [|discriminate].
    destruct (gob.Decode (gob_registry p) (Content r) v) as [v'|e];
      [|discriminate].
    intros Heq. apply IH in Heq. rewrite length_app in Heq. simpl in Heq. lia.
Qed.

(** A [Read] that returns no error returns one value for each key that
    [ListKeysForAggregate] lists for the aggregate. *)
Theorem Read_one_value_per_key `{Collaborators} (aggregate : string)
    (p : Process) (values : list GoValue) :
  wf p ->
  snd (Read aggregate p) = Returns (values, None) ->
  exists ks,
    snd (ListKeysForAggregate aggregate p) = Returns (ks, None)
    /\ length values = length ks.
Proof.
  intros Hwf. rewrite (Read_view aggregate p Hwf),
    (ListKeysForAggregate_view aggregate p Hwf).
  destruct (view p) as [l|e]; cbn [snd]; [|discriminate].
  intros Hread. eexists. split; [reflexivity|].
  rewrite <- keys_filter. unfold keys. rewrite length_map.
  unfold returned in Hread.
  destruct (decode_all p _) as [[vs [e|]]|msg] eqn:Hdec; try discriminate.
  inversion Hread; subst. unfold decode_all in Hdec.
  apply iterate_length in Hdec. simpl in Hdec. exact Hdec.
Qed.

Lemma Read_one_value_per_key_witness :
  let p := fst (Append sample_clock "test.1" (Sample.Test 1) sample_start) in
  exists ks,
    snd (ListKeysForAggregate "test.1" p) = Returns (ks, None)
    /\ length [Sample.Test 1] = length ks.
Proof.
  intros p. apply (Read_one_value_per_key "test.1" p [Sample.Test 1]).
  - apply wf_Append, wf_sample_start.
  - vm_compute. reflexivity.
Defined.

(** ** What [Append] writes *)

(** An [Append] that returns an error or panics has written nothing: the
    engine holds the same entries and the registries are unchanged. *)
Theorem Append_failure_writes_nothing `{Collaborators} (now : Time)
    (aggregate : string) (content : GoValue) (p : Process) :
  wf p ->
  snd (Append now aggregate content p) <> Returns None ->
  contents (fst (Append now aggregate content p)) = contents p
  /\ disk (fst (Append now aggregate content p)) = disk p
  /\ typeRegistery (store (fst (Append now aggregate content p)))
     = typeRegistery (store p)
  /\ gob_registry (fst (Append now aggregate content p)) = gob_registry p.
Proof.
  intros Hwf. rewrite Append_envelope.
  destruct (envelope now aggregate content p) as [[[key value]|err]|msg];
    cbn [fst snd]; try (intros _; repeat split; reflexivity).
  rewrite (write_view key value p Hwf).
  destruct (view p) as [l|e] eqn:Hv; cbn [fst snd];
    [|intros _; repeat split; reflexivity].
  destruct (set_error key value); cbn [fst snd]; [|congruence].
  intros _. rewrite contents_opened.
  split; [apply (view_contents p l Hv)|]. repeat split; reflexivity.
Qed.

Lemma Append_failure_writes_nothing_witness :
  let p := fst (Append sample_clock "test.1" (Sample.Test 1) sample_start) in
  contents (fst (@Append Faults.no_set (sample_clock + 1000000) "test.1"
                   (Sample.Test 2) p))
  = contents p.
Proof.
  intros p.
  refine (proj1 (@Append_failure_writes_nothing Faults.no_set
                   (sample_clock + 1000000) "test.1" (Sample.Test 2) p _ _)).
  - apply (@wf_Append Sample.collaborators), wf_sample_start.
  - vm_compute. discriminate.
Defined.



(** ** Keys *)

(** A key names its aggregate and its identifier: two keys made by
    [Append] are equal only for the same aggregate and the same
    identifier. *)
Theorem key_names_aggregate_and_identifier (a b : string) (i j : ulid.ULID) :
  0 <= i < 2 ^ 128 -> 0 <= j < 2 ^ 128 ->
  Key.make a (ulid.text i) = Key.make b (ulid.text j) ->
  a = b /\ i = j.
Proof.
  intros Hi Hj Heq. apply make_inj in Heq. destruct Heq as [Hab Hij].
  split; [exact Hab|].
  change (2 ^ 128) with 340282366920938463463374607431768211456 in Hi, Hj.
  apply text_inj; [| |exact Hij];
    change (32 ^ 26) with 1361129467683753853853498429727072845824; lia.
Qed.

Lemma key_names_aggregate_and_identifier_witness :
  "test.1"%string = "test.1"%string /\ 1945716782496356845637709442357363023 = 1945716782496356845637709442357363023.
Proof.
  apply (key_names_aggregate_and_identifier "test.1" "test.1"
           1945716782496356845637709442357363023
           1945716782496356845637709442357363023).
  - change (2 ^ 128) with 340282366920938463463374607431768211456. lia.
  - change (2 ^ 128) with 340282366920938463463374607431768211456. lia.
  - reflexivity.
Defined.

(** Within one aggregate the keys sort as the identifiers do, which is the
    order in which the engine's cursor visits them. *)
Theorem keys_sort_as_identifiers (a : string) (i j : ulid.ULID) :
  0 <= i < 2 ^ 128 -> 0 <= j < 2 ^ 128 ->
  (Key.lt (Key.make a (ulid.text i)) (Key.make a (ulid.text j)) <-> i < j).
Proof.
  intros Hi Hj.
  change (2 ^ 128) with 340282366920938463463374607431768211456 in Hi, Hj.
  assert (Hup : forall x y, 0 <= x -> x < y ->
                  y < 340282366920938463463374607431768211456 ->
                  Key.lt (Key.make a (ulid.text x)) (Key.make a (ulid.text y))).
  { intros x y Hx Hxy Hy. apply make_lt, text_lt; [lia|lia|].
    change (32 ^ 26) with 1361129467683753853853498429727072845824. lia. }
  split; [|intros Hlt; apply Hup; lia].
  intros Hlt. destruct (Z.lt_trichotomy i j) as [H|[H|H]]; [exact H| |].
  - subst j. exfalso. exact (lt_irrefl _ Hlt).
  - exfalso. apply (lt_asym _ _ Hlt). apply Hup; lia.
Qed.

Lemma keys_sort_as_identifiers_witness :
  Key.lt (Key.make "test.1" (ulid.text 5)) (Key.make "test.1" (ulid.text 33))
  <-> 5 < 33.
Proof.
  apply (keys_sort_as_identifiers "test.1" 5 33);
    change (2 ^ 128) with 340282366920938463463374607431768211456; lia.
Defined.

(** ** Identifiers from clock readings *)

(** Inside the range the identifier [NewId] returns fits 128 bits, its
    leading 48 bits are the millisecond of the clock reading, and its 80
    bits of entropy are the ten bytes first read from a generator seeded
    with the reading's [UnixNano]. *)
Theorem NewId_parts `{Collaborators} (t : Time) :
  in_range t ->
  exists id,
    NewId t = Returns id
    /\ 0 <= id < 2 ^ 128
    /\ ulid.time_ms id = millis t
    /\ ulid.entropy_of id = rand_Read10 (GoTime.UnixNano t).
Proof.
  intros Ht. eexists. split; [apply (NewId_in_range t Ht)|].
  pose proof (rand_Read10_bytes (GoTime.UnixNano t)) as He.
  pose proof (millis_bounds t Ht) as Hb. unfold ulid.MaxTime in Hb.
  set (e := rand_Read10 (GoTime.UnixNano t)) in *.
  unfold ulid.of_parts, ulid.time_ms, ulid.entropy_of.
  change (2 ^ 80) with 1208925819614629174706176 in *.
  change (2 ^ 128) with 340282366920938463463374607431768211456.
  split; [lia|]. split.
  - rewrite Z.div_add_l by lia. rewrite Z.div_small by lia. lia.
  - rewrite Z.add_comm, Z.mod_add by lia. apply Z.mod_small. lia.
Qed.

Lemma NewId_parts_witness :
  exists id,
    NewId sample_clock = Returns id
    /\ 0 <= id < 2 ^ 128
    /\ ulid.time_ms id = millis sample_clock
    /\ ulid.entropy_of id = rand_Read10 (GoTime.UnixNano sample_clock).
Proof. apply (NewId_parts sample_clock). exact sample_clock_in_range. Defined.

Lemma Timestamp_after_epoch (t : Time) :
  0 <= t < 18446744073709551 * 1000000000 -> ulid.Timestamp t = millis t.
Proof.
  unfold ulid.Timestamp, millis, GoTime.to_uint64, GoTime.Unix,
    GoTime.Nanosecond.
  intros Ht.
  assert (H1 : 0 <= t / 1000000000 < 18446744073709551)
    by (split; [apply Z.div_pos; lia|apply Z.div_lt_upper_bound; lia]).
  assert (H2 : 0 <= t mod 1000000000 < 1000000000) by (apply Z.mod_pos_bound; lia).
  assert (H3 : 0 <= t mod 1000000000 / 1000000 < 1000)
    by (split; [apply Z.div_pos; lia|apply Z.div_lt_upper_bound; lia]).
  change (2 ^ 64) with 18446744073709551616.
  rewrite (Z.mod_small (t / 1000000000)) by lia.
  rewrite (Z.mod_small (t mod 1000000000 / 1000000)) by lia.
  rewrite Z.mod_small by lia.
  change 1000000000 with (1000000 * 1000) at 2.
  rewrite Z.rem_mul_r by lia.
  replace (t mod 1000000 + 1000000 * ((t / 1000000) mod 1000))
    with ((t / 1000000) mod 1000 * 1000000 + t mod 1000000) by lia.
  rewrite Z.div_add_l by lia.
  rewrite (Z.div_small (t mod 1000000)) by (apply Z.mod_pos_bound; lia).
  change 1000000000 with (1000000 * 1000).
  rewrite <- Z.div_div by lia.
  pose proof (Z.div_mod (t / 1000000) 1000). lia.
Qed.

Lemma Timestamp_before_epoch (t : Time) :
  - 1000000000000000000000000 <= t < 0 -> ulid.MaxTime < ulid.Timestamp t.
Proof.
  unfold ulid.Timestamp, ulid.MaxTime, GoTime.to_uint64, GoTime.Unix,
    GoTime.Nanosecond.
  intros Ht.
  assert (H1 : - 1000000000000000 <= t / 1000000000 < 0).
  { split; [apply Z.div_le_lower_bound; lia|apply Z.div_lt_upper_bound; lia]. }
  assert (H2 : 0 <= t mod 1000000000 < 1000000000) by (apply Z.mod_pos_bound; lia).
  assert (H3 : 0 <= t mod 1000000000 / 1000000 < 1000)
    by (split; [apply Z.div_pos; lia|apply Z.div_lt_upper_bound; lia]).
  set (u := t / 1000000000) in *.
  set (m := t mod 1000000000 / 1000000) in *.
  change (2 ^ 64) with 18446744073709551616.
  assert (Hu : u mod 18446744073709551616 = u + 18446744073709551616).
  { rewrite <- (Z.mod_add u 1 18446744073709551616) by lia.
    rewrite Z.mod_small; lia. }
  rewrite Hu, (Z.mod_small m) by lia.
  replace ((u + 18446744073709551616) * 1000 + m)
    with (u * 1000 + m + 18446744073709551616 + 999 * 18446744073709551616)
    by lia.
  rewrite Z.mod_add by lia. rewrite Z.mod_small by lia. lia.
Qed.

(** The millisecond count is computed in 64 bits: a reading far enough
    in the future wraps to a small one. *)
Lemma Timestamp_wraps :
  ulid.Timestamp (18446744073709552 * 1000000000) = 384.
Proof. vm_compute. reflexivity. Qed.

(** Between 10^15 seconds before the Unix epoch and 18446744073709551
    seconds after it, where the count of milliseconds fits 64 bits,
    [NewId] returns exactly for the clock readings from the epoch up to
    the last millisecond that fits 48 bits; for the other readings of
    that stretch it panics, and so does [Append], which then leaves the
    process as it was. Past that stretch the count wraps around and
    [NewId] returns again: at second 18446744073709552 with millisecond
    384. *)
Theorem NewId_returns_iff_in_range `{Collaborators} (t : Time)
    (aggregate : string) (content : GoValue) (p : Process) :
  - 1000000000000000000000000 <= t < 18446744073709551 * 1000000000 ->
  ((exists id, NewId t = Returns id) <-> in_range t)
  /\ (~ in_range t ->
      NewId t = Panics "ulid: time too big"
      /\ Append t aggregate content p = (p, Panics "ulid: time too big"))
  /\ (exists id,
        NewId (18446744073709552 * 1000000000) = Returns id
        /\ ~ in_range (18446744073709552 * 1000000000)
        /\ ulid.time_ms id = 384).
Proof.
  intros Ht.
  assert (Hout : ~ in_range t -> NewId t = Panics "ulid: time too big").
  { intros Hn. unfold NewId. cbv zeta.
    destruct (Z_lt_dec t 0) as [Hneg|Hpos].
    - pose proof (Timestamp_before_epoch t ltac:(lia)) as Hts.
      destruct (ulid.Timestamp t >? ulid.MaxTime) eqn:Hgt; [reflexivity|lia].
    - rewrite (Timestamp_after_epoch t ltac:(lia)).
      assert (Hms : 281474976710656 <= millis t).
      { unfold millis. apply Z.div_le_lower_bound; [lia|].
        unfold in_range in Hn. lia. }
      unfold ulid.MaxTime.
      destruct (millis t >? 281474976710655) eqn:Hgt; [reflexivity|lia]. }
  split; [split|split].
  - intros [id Hid]. destruct (Z_lt_dec t 0) as [Hneg|Hpos].
    + rewrite Hout in Hid; [discriminate|]. unfold in_range. lia.
    + destruct (Z_lt_dec t (281474976710656 * 1000000)) as [Hlt|Hge].
      * unfold in_range. lia.
      * rewrite Hout in Hid; [discriminate|]. unfold in_range. lia.
  - intros Hin. eexists. apply (NewId_in_range t Hin).
  - intros Hn. split; [exact (Hout Hn)|].
    unfold Append. rewrite (Hout Hn). reflexivity.
  - unfold NewId. cbv zeta. rewrite Timestamp_wraps.
    change (384 >? ulid.MaxTime) with false. cbv iota.
    eexists. split; [reflexivity|]. split; [unfold in_range; lia|].
    pose proof (rand_Read10_bytes
                  (GoTime.UnixNano (18446744073709552 * 1000000000))) as He.
    unfold ulid.of_parts, ulid.time_ms.
    change (2 ^ 80) with 1208925819614629174706176 in *.
    rewrite Z.div_add_l by lia. rewrite Z.div_small by lia. lia.
Qed.

Lemma NewId_returns_iff_in_range_witness :
  NewId (-1) = Panics "ulid: time too big"
  /\ Append (-1) "test.1" (Sample.Test 1) sample_start
     = (sample_start, Panics "ulid: time too big").
Proof.
  apply (proj1 (proj2 (NewId_returns_iff_in_range (-1) "test.1" (Sample.Test 1)
                         sample_start ltac:(lia)))).
  unfold in_range. lia.
Defined.

(** ** Close and the engine's directory *)

(** A store on disk keeps its records over [Close]: once the engine is
    opened again, [Read] and [ListKeys] return what they returned before
    the store was closed. *)
Theorem Close_keeps_records_on_disk `{Collaborators} (p p1 : Process)
    (aggregate : string) :
  wf p ->
  MemoryOnly (store p) = false ->
  Close p = (p1, Returns None) ->
  open_error (options (store p)) = None ->
  snd (Read aggregate p1) = snd (Read aggregate p)
  /\ snd (ListKeys p1) = snd (ListKeys p).
Proof.
  intros Hwf Hmem Hclose Hopen.
  destruct (Close_cases p p1 Hwf Hclose)
    as (Hdb1 & Hwf1 & Hcont & Hopts & _ & Hreg & Hgob).
  rewrite Hmem in Hcont.
  assert (Hv1 : view p1 = inl (contents p)).
  { rewrite view_cases, Hdb1, Hopts, Hopen, Hcont. reflexivity. }
  assert (Hv : view p = inl (contents p)).
  { rewrite view_cases. unfold contents.
    destruct (db (store p)); [reflexivity|]. rewrite Hopen. reflexivity. }
  rewrite (Read_view aggregate p1 Hwf1), (Read_view aggregate p Hwf),
    (ListKeys_view p1 Hwf1), (ListKeys_view p Hwf), Hv1, Hv. cbn [snd].
  rewrite (decode_all_ext p1 p _ Hreg Hgob). split; reflexivity.
Qed.

Lemma Close_keeps_records_on_disk_witness :
  let p := fst (Append sample_clock "test.1" (Sample.Test 1)
                  (Register (Sample.Test 0)
                     (start (FileStore "events" "" 0) []))) in
  snd (Read "test.1" p) = Returns ([Sample.Test 1], None)
  /\ snd (Read "test.1" (fst (Close p))) = snd (Read "test.1" p).
Proof.
  intros p. split; [vm_compute; reflexivity|].
  refine (proj1 (Close_keeps_records_on_disk p (fst (Close p)) "test.1"
                   _ _ _ _)).
  - apply wf_Append, wf_Register, wf_start;
      [reflexivity|reflexivity|exact sorted_nil].
  - reflexivity.
  - vm_compute. reflexivity.
  - reflexivity.
Defined.

(** [Close] never panics; it returns no error exactly when the store holds
    no handle afterwards, and when it returns an error it has changed
    nothing, handle included. *)
Theorem Close_returns_nil_iff_no_handle `{Collaborators} (p : Process) :
  (exists r, snd (Close p) = Returns r)
  /\ (snd (Close p) = Returns None <-> db (store (fst (Close p))) = None)
  /\ (snd (Close p) <> Returns None -> fst (Close p) = p).
Proof.
  unfold Close. destruct (db (store p)) as [d|] eqn:Hd.
  - destruct (close_error (badger.opts d)) as [e|]; cbn [fst snd].
    + split; [eexists; reflexivity|]. split; [|reflexivity].
      rewrite Hd. split; discriminate.
    + split; [eexists; reflexivity|]. split; [|congruence].
      split; reflexivity.
  - cbn [fst snd]. split; [eexists; reflexivity|]. split; [|reflexivity].
    rewrite Hd. split; reflexivity.
Qed.

(** ** What every history keeps *)

Lemma wf_Read `{Collaborators} (aggregate : string) (p : Process) :
  wf p -> wf (fst (Read aggregate p)).
Proof.
  intros Hwf. rewrite (Read_view aggregate p Hwf).
  destruct (view p) as [l|e] eqn:Hv; [|exact Hwf].
  apply wf_opened; [exact Hwf|exact (view_sorted p l Hwf Hv)].
Qed.

Lemma wf_ListKeys `{Collaborators} (p : Process) :
  wf p -> wf (fst (ListKeys p)).
Proof.
  intros Hwf. rewrite (ListKeys_view p Hwf).
  destruct (view p) as [l|e] eqn:Hv; [|exact Hwf].
  apply wf_opened; [exact Hwf|exact (view_sorted p l Hwf Hv)].
Qed.

Lemma wf_ListKeysForAggregate `{Collaborators} (aggregate : string)
    (p : Process) :
  wf p -> wf (fst (ListKeysForAggregate aggregate p)).
Proof.
  intros Hwf. rewrite (ListKeysForAggregate_view aggregate p Hwf).
  destruct (view p) as [l|e] eqn:Hv; [|exact Hwf].
  apply wf_opened; [exact Hwf|exact (view_sorted p l Hwf Hv)].
Qed.

Lemma wf_Close `{Collaborators} (p : Process) : wf p -> wf (fst (Close p)).
Proof.
  intros Hwf. destruct (Close p) as [q [[e|]|msg]] eqn:Hclose; cbn [fst].
  - unfold Close in Hclose. destruct (db (store p)) as [d|].
    + destruct (close_error (badger.opts d)); inversion Hclose; subst.
      exact Hwf.
    + inversion Hclose.
  - apply (Close_cases p q Hwf Hclose).
  - unfold Close in Hclose. destruct (db (store p)) as [d|];
      [destruct (close_error (badger.opts d))|]; discriminate.
Qed.

Lemma reachable_wf `{Collaborators} (p : Process) : reachable p -> wf p.
Proof.
  induction 1 as [persisted Hs|path key dur persisted Hs|p q _ IH Hstep].
  - apply wf_start; [reflexivity|reflexivity|exact Hs].
  - apply wf_start; [reflexivity|reflexivity|exact Hs].
  - destruct Hstep.
    + apply wf_Register, IH.
    + apply wf_Append, IH.
    + apply wf_Read, IH.
    + apply wf_ListKeys, IH.
    + apply wf_ListKeysForAggregate, IH.
    + apply wf_Close, IH.
Qed.

Lemma step_gob_registry `{Collaborators} (p q : Process) :
  wf p -> step p q -> gob_registry p ⊆ gob_registry q.
Proof.
  intros Hwf Hstep. destruct Hstep.
  - unfold Register. cbn [gob_registry]. apply union_subseteq_l.
  - rewrite Append_envelope.
    destruct (envelope now aggregate content p) as [[[key value]|err]|msg];
      cbn [fst]; try reflexivity.
    rewrite (write_view key value p Hwf).
    destruct (view p); [destruct (set_error key value)|]; reflexivity.
  - rewrite (Read_view aggregate p Hwf). destruct (view p); reflexivity.
  - rewrite (ListKeys_view p Hwf). destruct (view p); reflexivity.
  - rewrite (ListKeysForAggregate_view aggregate p Hwf).
    destruct (view p); reflexivity.
  - unfold Close. destruct (db (store p)) as [d|]; [|reflexivity].
    destruct (close_error (badger.opts d)); reflexivity.
Qed.

Lemma sample_reachable :
  reachable (fst (Append sample_clock "test.1" (Sample.Test 1) sample_start)).
Proof.
  eapply reachable_step; [|apply step_Append].
  eapply reachable_step; [|apply step_Register].
  apply reachable_MemoryStore. exact sorted_nil.
Qed.

(** In every state a store gets to, each type in the store's own registry
    is also registered with [encoding/gob], whose registry still holds
    the basic types; and a handle the store holds was opened with the
    options its fields give. *)
Theorem registries_in_step `{Collaborators} (p : Process) :
  reachable p ->
  (forall name type, typeRegistery (store p) !! name = Some type ->
     type ∈ gob_registry p)
  /\ gob.basics ⊆ gob_registry p
  /\ (forall d, db (store p) = Some d -> badger.opts d = options (store p)).
Proof.
  intros Hreach. pose proof (reachable_wf p Hreach) as (_ & Hdb & Hreg).
  split; [exact Hreg|]. split; [|intros d Hd; apply (Hdb d Hd)].
  clear Hdb Hreg.
  induction Hreach as [persisted Hs|path key dur persisted Hs|p q Hr IH Hstep].
  - reflexivity.
  - reflexivity.
  - etransitivity; [exact IH|].
    apply step_gob_registry; [apply reachable_wf, Hr|exact Hstep].
Qed.

Lemma registries_in_step_witness :
  let p := fst (Append sample_clock "test.1" (Sample.Test 1) sample_start) in
  (forall name type, typeRegistery (store p) !! name = Some type ->
     type ∈ gob_registry p)
  /\ gob.basics ⊆ gob_registry p
  /\ (forall d, db (store p) = Some d -> badger.opts d = options (store p)).
Proof. intros p. apply (registries_in_step p). exact sample_reachable. Defined.

Lemma sorted_NoDup (ks : list string) : StronglySorted Key.lt ks -> NoDup ks.
Proof.
  induction 1 as [|k ks _ IH Hall]; constructor; [|exact IH].
  intros Hin. rewrite List.Forall_forall in Hall.
  apply list_elem_of_In in Hin. exact (lt_irrefl k (Hall k Hin)).
Qed.

(** In every state a store gets to, the keys [ListKeys] returns are in
    strictly ascending byte order, hence without repetition. *)
Theorem ListKeys_ascending `{Collaborators} (p : Process) (ks : list string)
    (err : option error) :
  reachable p ->
  snd (ListKeys p) = Returns (ks, err) ->
  StronglySorted Key.lt ks /\ NoDup ks.
Proof.
  intros Hreach. pose proof (reachable_wf p Hreach) as Hwf.
  rewrite (ListKeys_view p Hwf).
  destruct (view p) as [l|e] eqn:Hv; cbn [snd]; intros Heq;
    inversion Heq; subst.
  - pose proof (view_sorted p l Hwf Hv) as Hl.
    split; [exact Hl|apply sorted_NoDup, Hl].
  - split; constructor.
Qed.

Lemma ListKeys_ascending_witness :
  let p := fst (Append sample_clock "test.1" (Sample.Test 1) sample_start) in
  StronglySorted Key.lt ["test.1:01ETXKWW001BJZFD9G3TMK70AF"]
  /\ NoDup ["test.1:01ETXKWW001BJZFD9G3TMK70AF"].
Proof.
  intros p.
  apply (ListKeys_ascending p ["test.1:01ETXKWW001BJZFD9G3TMK70AF"] None).
  - exact sample_reachable.
  - vm_compute. reflexivity.
Defined.

(** ** Records that do not decode *)

(** A directory that holds an entry which is no envelope, behind a record
    the store appended: [Read] returns the codec's error and no value. *)
Lemma Read_aborts_on_first_error_witness :
  let p := fst (Append sample_clock "test.1" (Sample.Test 1)
                  (Register (Sample.Test 0)
                     (start (FileStore "events" "" 0)
                        [("test.1:ZZ"%string, "no envelope"%string)]))) in
  keys (contents p) = ["test.1:01ETXKWW001BJZFD9G3TMK70AF"; "test.1:ZZ"]
  /\ snd (Read "test.1" p) = Returns ([], Some "json: invalid input"%string).
Proof.
  intros p. split; [vm_compute; reflexivity|].
  eapply (Read_aborts_on_first_error "test.1" p _ [_] [] _ _ _ _).
  - apply wf_Append, wf_Register, wf_start; [reflexivity|reflexivity|].
    apply sorted_cons; [exact sorted_nil|]. intros x [].
  - vm_compute. reflexivity.
  - vm_compute. reflexivity.
  - vm_compute. reflexivity.
  - vm_compute. reflexivity.
Defined.

Lemma ListKeysForAggregate_filters_witness :
  let p := fst (Append sample_clock "test.1" (Sample.Test 1) sample_start) in
  snd (ListKeysForAggregate "test.2" p)
  = match snd (ListKeys p) with
    | Returns (ks, None) =>
        Returns (List.filter (String.prefix (Key.with_sep "test.2")) ks, None)
    | r => r
    end.
Proof.
  intros p. apply (ListKeysForAggregate_filters "test.2" p).
  apply wf_Append, wf_sample_start.
Defined.

(** ** The package's tests *)

Lemma close_no_fault `{Collaborators} (p : Process) :
  (forall o, close_error o = None) -> snd (Close p) = Returns None.
Proof.
  intros Hclose. unfold Close. destruct (db (store p)) as [d|]; [|reflexivity].
  rewrite Hclose. reflexivity.
Qed.

(** [TestBadgerEventStore_Append] reports nothing: with collaborators that
    do not fail and a clock reading in the identifier's range, the test
    ends without failure and without panic. *)
Theorem TestBadgerEventStore_Append_passes `{Collaborators} (now : Time) :
  no_faults -> (forall o, close_error o = None) ->
  in_range now ->
  Tests.TestBadgerEventStore_Append now = Returns [].
Proof.
  intros Hnf Hclose Hnow.
  assert (Hwf : wf sample_start) by exact wf_sample_start.
  pose proof (Test_registered 1) as Hreg.
  destruct (Append_step now "test.1" (Sample.Test 1) sample_start
              Hwf Hnf Hnow (proj1 Hreg) eq_refl)
    as (id & value & Hid & _ & Hdec & _ & Happ).
  change (contents sample_start) with (@nil (string * string)) in Happ.
  change (badger.set (Key.make "test.1" (ulid.text id)) value [])
    with [(Key.make "test.1" (ulid.text id), value)] in Happ.
  set (q := opened sample_start [(Key.make "test.1" (ulid.text id), value)]) in *.
  assert (Hwfq : wf q).
  { apply wf_opened; [exact Hwf|]. apply sorted_cons; [exact sorted_nil|].
    intros x []. }
  assert (Hrec : records_of "test.1" q
                 = [(Key.make "test.1" (ulid.text id), value)]).
  { unfold records_of, q. rewrite contents_opened. cbn [List.filter].
    unfold badger.ValidForPrefix. cbn [fst]. rewrite prefix_make. reflexivity. }
  assert (Hread : Read "test.1" q
                  = (opened q (contents q), Returns ([Sample.Test 1], None))).
  { apply (Read_decodes "test.1" q [Sample.Test 1] Hwfq Hnf).
    - rewrite Hrec. constructor; [exact Hdec|constructor].
    - constructor; [exact Hreg|constructor]. }
  unfold Tests.TestBadgerEventStore_Append. cbv zeta.
  change (Register (Sample.Test 0) (start MemoryStore [])) with sample_start.
  rewrite Happ, Hread. cbn [length Nat.eqb app].
  change (reflect_DeepEqual.eqb (Sample.Test 1) (Sample.Test 1)) with true.
  cbv iota. unfold Tests.deferred_Close. rewrite (close_no_fault _ Hclose).
  reflexivity.
Qed.

Lemma TestBadgerEventStore_Append_passes_witness :
  Tests.TestBadgerEventStore_Append sample_clock = Returns [].
Proof.
  apply (TestBadgerEventStore_Append_passes sample_clock).
  - exact sample_no_faults.
  - reflexivity.
  - exact sample_clock_in_range.
Defined.

Lemma run_app `{Collaborators} (e1 e2 : list Appended) (p : Process) :
  run (e1 ++ e2) p
  = (fst (run e2 (fst (run e1 p))),
     snd (run e1 p) ++ snd (run e2 (fst (run e1 p)))).
Proof.
  revert p. induction e1 as [|e e1 IH]; intros p.
  - simpl. destruct (run e2 p). reflexivity.
  - simpl.
    destruct (Append (at_time e) (to_aggregate e) (content_of e) p) as [q r].
    rewrite IH. destruct (run e1 q) as [q1 rs1]. reflexivity.
Qed.

Lemma run_length `{Collaborators} (events : list Appended) (p : Process) :
  length (snd (run events p)) = length events.
Proof.
  revert p. induction events as [|e events IH]; intros p; [reflexivity|].
  simpl. destruct (Append (at_time e) (to_aggregate e) (content_of e) p)
    as [q r].
  specialize (IH q). destruct (run events q) as [q' rs]. simpl in *.
  rewrite IH. reflexivity.
Qed.

(** A loop of the test none of whose calls fails makes the run of its
    calls. *)
Lemma append_loop_run `{Collaborators} (clock : nat -> Time) (fact : string)
    (values : list Z) :
  forall (calls : nat) (p : Process) (failures : list Tests.failure),
  snd (run (Tests.loop_events clock fact values calls) p)
  = List.map (fun _ => Returns None) (Tests.loop_events clock fact values calls) ->
  Tests.append_loop clock fact values calls p failures
  = Returns (fst (run (Tests.loop_events clock fact values calls) p),
             (calls + length values)%nat, failures).
Proof.
  induction values as [|i rest IH]; intros calls p failures Hout.
  - simpl. rewrite Nat.add_0_r. reflexivity.
  - simpl in Hout |- *.
    destruct (Append (clock calls) fact (Sample.Test i) p) as [q r] eqn:Happ.
    destruct (run (Tests.loop_events clock fact rest (S calls)) q)
      as [q' rs] eqn:Hrun.
    cbn [fst snd] in *. inversion Hout as [[Hr Hrs]]. subst r.
    rewrite (IH (S calls) q failures) by (rewrite Hrun; exact Hrs).
    rewrite Hrun. cbn [fst].
    replace (S calls + length rest)%nat with (calls + S (length rest))%nat by lia.
    reflexivity.
Qed.

(** [TestBadgerEventStore_AppendWithMultipleFacts] reports nothing when
    its twelve [Append] calls read the clock in strictly increasing
    milliseconds: it finds three events for the first fact and nine for
    the second, and prints twelve keys. *)
Theorem TestBadgerEventStore_AppendWithMultipleFacts_passes `{Collaborators}
    (clock : nat -> Time) :
  no_faults -> (forall o, close_error o = None) ->
  (forall k, (k < 12)%nat -> in_range (clock k)) ->
  (forall i j, (i < j < 12)%nat -> millis (clock i) < millis (clock j)) ->
  exists ks,
    Tests.TestBadgerEventStore_AppendWithMultipleFacts clock
    = Returns {| Tests.failures := []; Tests.printed := ks |}
    /\ length ks = 12%nat.
Proof.
  intros Hnf Hclose Hrange Hclock.
  set (ev1 := Tests.loop_events clock "test.1" [0; 1; 2] 0).
  set (ev2 := Tests.loop_events clock "test.2" [0; 1; 2; 3; 4; 5; 6; 7; 8] 3).
  assert (Hadm : Forall (admissible sample_start) (ev1 ++ ev2)).
  { repeat constructor; cbn [at_time content_of];
      solve [apply Hrange; lia | apply Test_registered | reflexivity]. }
  assert (Hsep : Forall (fun e => Key.has_sep (to_aggregate e) = false)
                   (ev1 ++ ev2)) by (repeat constructor).
  assert (Htick : ticking (ev1 ++ ev2)).
  { unfold ticking. repeat constructor; cbn [at_time]; apply Hclock; lia. }
  assert (Hbelow : forall a, below a 0 (contents sample_start)).
  { intros a x []. }
  destruct (run_records "test.1" (ev1 ++ ev2) sample_start 0 wf_sample_start
              Hnf ltac:(lia) Hadm Hsep (admissible_millis _ _ Hadm) Htick
              (Hbelow _))
    as (Hout & Hwf & Hreg & Hgob & new1 & Hnew1 & Hdec1).
  destruct (run_records "test.2" (ev1 ++ ev2) sample_start 0 wf_sample_start
              Hnf ltac:(lia) Hadm Hsep (admissible_millis _ _ Hadm) Htick
              (Hbelow _))
    as (_ & _ & _ & _ & new2 & Hnew2 & Hdec2).
  destruct (run_keys (ev1 ++ ev2) sample_start wf_sample_start Hnf Hadm
              (ticking_distinct _ (admissible_in_range _ _ Hadm) Htick)
              ltac:(intros k _ []))
    as (_ & _ & Hlen & _).
  rewrite run_app in Hout, Hwf, Hreg, Hgob, Hnew1, Hnew2, Hlen.
  cbn [fst snd] in *.
  rewrite List.map_app in Hout.
  apply app_inj_1 in Hout; [|rewrite length_map; apply run_length].
  destruct Hout as [Hout1 Hout2].
  set (p1 := fst (run ev1 sample_start)) in *.
  set (p2 := fst (run ev2 p1)) in *.
  pose proof (append_loop_run clock "test.1" [0; 1; 2] 0 sample_start []
                Hout1) as Hloop1.
  pose proof (append_loop_run clock "test.2" [0; 1; 2; 3; 4; 5; 6; 7; 8] 3
                p1 [] Hout2) as Hloop2.
  fold ev1 in Hloop1. fold p1 in Hloop1. fold ev2 in Hloop2. fold p2 in Hloop2.
  assert (Hregd : forall vs, Forall (fun v => exists n, v = Sample.Test n) vs ->
            Forall (fun v => registered v p2) vs).
  { intros vs Hvs. eapply List.Forall_impl; [|exact Hvs].
    intros v [n ->]. destruct (Test_registered n) as [Hg Hr].
    split; [rewrite Hgob|rewrite Hreg]; assumption. }
  assert (Hread1 : Read "test.1" p2
            = (opened p2 (contents p2),
               Returns ([Sample.Test 0; Sample.Test 1; Sample.Test 2], None))).
  { apply (Read_decodes "test.1" p2
             [Sample.Test 0; Sample.Test 1; Sample.Test 2] Hwf Hnf).
    - rewrite Hnew1. exact Hdec1.
    - apply Hregd. repeat constructor; eexists; reflexivity. }
  set (p3 := opened p2 (contents p2)) in *.
  assert (Hwf3 : wf p3)
    by (apply wf_opened; [exact Hwf|apply contents_sorted, Hwf]).
  assert (Hread2 : Read "test.2" p3
            = (opened p3 (contents p3),
               Returns (List.map Sample.Test [0; 1; 2; 3; 4; 5; 6; 7; 8], None))).
  { apply (Read_decodes "test.2" p3
             (List.map Sample.Test [0; 1; 2; 3; 4; 5; 6; 7; 8]) Hwf3 Hnf).
    - change (records_of "test.2" p3) with (records_of "test.2" p2).
      rewrite Hnew2. exact Hdec2.
    - apply (Hregd (List.map Sample.Test [0; 1; 2; 3; 4; 5; 6; 7; 8])).
      repeat constructor; eexists; reflexivity. }
  exists (keys (contents p2)). split.
  - unfold Tests.TestBadgerEventStore_AppendWithMultipleFacts. cbv zeta.
    change (Register (Sample.Test 0) (start MemoryStore [])) with sample_start.
    rewrite Hloop1. cbn [Nat.add length]. rewrite Hloop2.
    unfold Tests.check_count. rewrite Hread1. cbn [length Nat.eqb].
    fold p3. rewrite Hread2. cbn [length Nat.eqb List.map].
    change (opened p3 (contents p3)) with p3.
    rewrite (ListKeys_view p3 Hwf3), (view_no_faults p3 Hnf).
    unfold Tests.deferred_Close. rewrite (close_no_fault _ Hclose).
    reflexivity.
  - unfold keys. rewrite length_map, Hlen. reflexivity.
Qed.

Lemma TestBadgerEventStore_AppendWithMultipleFacts_passes_witness :
  exists ks,
    Tests.TestBadgerEventStore_AppendWithMultipleFacts
      (fun k => sample_clock + Z.of_nat k * 1000000)
    = Returns {| Tests.failures := []; Tests.printed := ks |}
    /\ length ks = 12%nat.
Proof.
  apply (TestBadgerEventStore_AppendWithMultipleFacts_passes
           (fun k => sample_clock + Z.of_nat k * 1000000)).
  - exact sample_no_faults.
  - reflexivity.
  - intros k Hk. unfold in_range, sample_clock. lia.
  - intros i j Hij. unfold millis. rewrite !Z.div_add by lia. lia.
Defined.

Lemma set_set (key v v' : string) (l : badger.entries) :
  badger.set key v' (badger.set key v l) = badger.set key v' l.
Proof.
  induction l as [|[k w] l IH]; simpl.
  - rewrite compare_refl. reflexivity.
  - destruct (String.compare key k) eqn:Hc; simpl.
    + rewrite compare_refl. reflexivity.
    + rewrite compare_refl. reflexivity.
    + rewrite Hc, IH. reflexivity.
Qed.

(** A loop of the test on a clock that stands still leaves one entry for
    its fact: every call writes under the key of the first. *)
Lemma frozen_loop `{Collaborators} (clock : nat -> Time) (now : Time)
    (fact : string) (id : ulid.ULID) (values : list Z) :
  forall (i : Z) (calls : nat) (p : Process) (failures : list Tests.failure),
  wf p -> no_faults -> in_range now ->
  NewId now = Returns id ->
  (forall k, clock k = now) ->
  gob_registry p = gob_registry sample_start ->
  exists value,
    Tests.append_loop clock fact (i :: values) calls p failures
    = Returns (opened p (badger.set (Key.make fact (ulid.text id)) value
                           (contents p)),
               (calls + S (length values))%nat, failures)
    /\ decodes_to (Key.make fact (ulid.text id), value)
         (Sample.Test (Tests.last_value i values)).
Proof.
  induction values as [|j rest IH];
    intros i calls p failures Hwf Hnf Hnow Hid Hclock Hreg.
  - assert (Hr : reflect.TypeOf (Sample.Test i) ∈ gob_registry p)
      by (rewrite Hreg; apply Test_registered).
    destruct (Append_step now fact (Sample.Test i) p Hwf Hnf Hnow Hr eq_refl)
      as (id' & value & Hid' & _ & Hdec & _ & Happ).
    assert (id' = id) by congruence. subst id'.
    exists value. split; [|exact Hdec].
    simpl. rewrite Hclock, Happ. rewrite Nat.add_1_r. reflexivity.
  - assert (Hr : reflect.TypeOf (Sample.Test i) ∈ gob_registry p)
      by (rewrite Hreg; apply Test_registered).
    destruct (Append_step now fact (Sample.Test i) p Hwf Hnf Hnow Hr eq_refl)
      as (id' & v0 & Hid' & _ & _ & _ & Happ).
    assert (id' = id) by congruence. subst id'.
    set (q := opened p (badger.set (Key.make fact (ulid.text id)) v0 (contents p))).
    assert (Hwfq : wf q).
    { apply wf_opened; [exact Hwf|]. apply set_sorted, contents_sorted, Hwf. }
    destruct (IH j (S calls) q failures Hwfq Hnf Hnow Hid Hclock Hreg)
      as (value & Hloop & Hdec).
    exists value. split; [|exact Hdec].
    change (Tests.append_loop clock fact (i :: j :: rest) calls p failures)
      with (match Append (clock calls) fact (Sample.Test i) p with
            | (_, Panics msg) => Panics msg
            | (q0, Returns (Some err)) =>
                Returns (q0, S calls, failures ++ [Tests.Failed_append err])
            | (q0, Returns None) =>
                Tests.append_loop clock fact (j :: rest) (S calls) q0 failures
            end).
    rewrite Hclock, Happ. fold q. rewrite Hloop.
    unfold q. rewrite contents_opened, set_set, opened_opened.
    replace (S calls + S (length rest))%nat
      with (calls + S (length (j :: rest)))%nat by (simpl; lia).
    reflexivity.
Qed.

(** On a clock that stands still
    [TestBadgerEventStore_AppendWithMultipleFacts] fails: every [Append]
    returns no error, but each fact is left with one event, the last one
    appended to it, and the test reports the keys and the wrong number of
    events for both facts. *)
Theorem TestBadgerEventStore_AppendWithMultipleFacts_frozen_clock
    `{Collaborators} (clock : nat -> Time) (now : Time) :
  no_faults -> (forall o, close_error o = None) ->
  in_range now ->
  (forall k, clock k = now) ->
  exists id,
    NewId now = Returns id
    /\ Tests.TestBadgerEventStore_AppendWithMultipleFacts clock
       = Returns
           {| Tests.failures :=
                [ Tests.Error_keys [Key.make "test.1" (ulid.text id)] None;
                  Tests.Incorrect_number 1;
                  Tests.Error_keys [Key.make "test.2" (ulid.text id)] None;
                  Tests.Incorrect_number 1 ];
              Tests.printed := [ Key.make "test.1" (ulid.text id);
                                 Key.make "test.2" (ulid.text id) ] |}.
Proof.
  intros Hnf Hclose Hnow Hclock.
  exists (identifier now).
  pose proof (identifier_in_range now Hnow) as Hid.
  set (id := identifier now) in *.
  split; [exact Hid|].
  set (k1 := Key.make "test.1" (ulid.text id)).
  set (k2 := Key.make "test.2" (ulid.text id)).
  destruct (frozen_loop clock now "test.1" id [1; 2] 0 0%nat sample_start []
              wf_sample_start Hnf Hnow Hid Hclock eq_refl)
    as (v1 & Hloop1 & Hdec1).
  change (contents sample_start) with (@nil (string * string)) in Hloop1.
  change (badger.set (Key.make "test.1" (ulid.text id)) v1 [])
    with [(k1, v1)] in Hloop1.
  set (p1 := opened sample_start [(k1, v1)]) in *.
  assert (Hwf1 : wf p1).
  { apply wf_opened; [exact wf_sample_start|].
    apply sorted_cons; [exact sorted_nil|]. intros x []. }
  destruct (frozen_loop clock now "test.2" id [1; 2; 3; 4; 5; 6; 7; 8] 0 3%nat
              p1 [] Hwf1 Hnf Hnow Hid Hclock eq_refl)
    as (v2 & Hloop2 & Hdec2).
  assert (Hgt : String.compare k2 k1 = Gt) by reflexivity.
  assert (Hlt : Key.lt k1 k2) by reflexivity.
  assert (Hset : badger.set (Key.make "test.2" (ulid.text id)) v2 (contents p1)
                 = [(k1, v1); (k2, v2)]).
  { unfold p1. rewrite contents_opened. fold k2.
    change (badger.set k2 v2 [(k1, v1)])
      with (match String.compare k2 k1 with
            | Lt => [(k2, v2); (k1, v1)]
            | Eq => [(k2, v2)]
            | Gt => (k1, v1) :: badger.set k2 v2 []
            end).
    rewrite Hgt. reflexivity. }
  rewrite Hset in Hloop2. unfold p1 in Hloop2. rewrite opened_opened in Hloop2.
  fold p1 in Hloop2.
  set (p2 := opened sample_start [(k1, v1); (k2, v2)]) in *.
  assert (Hwf2 : wf p2).
  { apply wf_opened; [exact wf_sample_start|].
    apply sorted_cons; [apply sorted_cons; [exact sorted_nil|intros x []]|].
    intros x [<-|[]]. exact Hlt. }
  assert (Hp11 : String.prefix (Key.with_sep "test.1") k1 = true)
    by apply prefix_make.
  assert (Hp22 : String.prefix (Key.with_sep "test.2") k2 = true)
    by apply prefix_make.
  assert (Hp12 : String.prefix (Key.with_sep "test.1") k2 = false)
    by reflexivity.
  assert (Hp21 : String.prefix (Key.with_sep "test.2") k1 = false)
    by reflexivity.
  assert (Hrec1 : records_of "test.1" p2 = [(k1, v1)]).
  { unfold records_of, p2. rewrite contents_opened. cbn [List.filter].
    unfold badger.ValidForPrefix. cbn [fst]. rewrite Hp11, Hp12. reflexivity. }
  assert (Hrec2 : records_of "test.2" p2 = [(k2, v2)]).
  { unfold records_of, p2. rewrite contents_opened. cbn [List.filter].
    unfold badger.ValidForPrefix. cbn [fst]. rewrite Hp21, Hp22. reflexivity. }
  assert (Hread1 : Read "test.1" p2
                   = (opened p2 (contents p2), Returns ([Sample.Test 2], None))).
  { apply (Read_decodes "test.1" p2 [Sample.Test 2] Hwf2 Hnf).
    - rewrite Hrec1. constructor; [exact Hdec1|constructor].
    - constructor; [apply (Test_registered 2)|constructor]. }
  assert (Hread2 : Read "test.2" p2
                   = (opened p2 (contents p2), Returns ([Sample.Test 8], None))).
  { apply (Read_decodes "test.2" p2 [Sample.Test 8] Hwf2 Hnf).
    - rewrite Hrec2. constructor; [exact Hdec2|constructor].
    - constructor; [apply (Test_registered 8)|constructor]. }
  change (opened p2 (contents p2)) with p2 in Hread1, Hread2.
  assert (Hkeys1 : ListKeysForAggregate "test.1" p2
                   = (p2, Returns ([k1], None))).
  { rewrite (ListKeysForAggregate_view "test.1" p2 Hwf2),
      (view_no_faults p2 Hnf).
    change (contents p2) with [(k1, v1); (k2, v2)].
    change (keys [(k1, v1); (k2, v2)]) with [k1; k2].
    change (List.filter (String.prefix (Key.with_sep "test.1")) [k1; k2])
      with ((if String.prefix (Key.with_sep "test.1") k1 then [k1] else [])
            ++ (if String.prefix (Key.with_sep "test.1") k2 then [k2] else [])).
    rewrite Hp11, Hp12. reflexivity. }
  assert (Hkeys2 : ListKeysForAggregate "test.2" p2
                   = (p2, Returns ([k2], None))).
  { rewrite (ListKeysForAggregate_view "test.2" p2 Hwf2),
      (view_no_faults p2 Hnf).
    change (contents p2) with [(k1, v1); (k2, v2)].
    change (keys [(k1, v1); (k2, v2)]) with [k1; k2].
    change (List.filter (String.prefix (Key.with_sep "test.2")) [k1; k2])
      with ((if String.prefix (Key.with_sep "test.2") k1 then [k1] else [])
            ++ (if String.prefix (Key.with_sep "test.2") k2 then [k2] else [])).
    rewrite Hp21, Hp22. reflexivity. }
  unfold Tests.TestBadgerEventStore_AppendWithMultipleFacts. cbv zeta.
  change (Register (Sample.Test 0) (start MemoryStore [])) with sample_start.
  rewrite Hloop1. cbn [Nat.add length]. rewrite Hloop2.
  unfold Tests.check_count. rewrite Hread1. cbn [length Nat.eqb].
  rewrite Hkeys1. rewrite Hread2. cbn [length Nat.eqb]. rewrite Hkeys2.
  rewrite (ListKeys_view p2 Hwf2), (view_no_faults p2 Hnf).
  unfold Tests.deferred_Close. rewrite (close_no_fault _ Hclose).
  reflexivity.
Qed.

Lemma TestBadgerEventStore_AppendWithMultipleFacts_frozen_clock_witness :
  exists id,
    NewId sample_clock = Returns id
    /\ Tests.TestBadgerEventStore_AppendWithMultipleFacts (fun _ => sample_clock)
       = Returns
           {| Tests.failures :=
                [ Tests.Error_keys [Key.make "test.1" (ulid.text id)] None;
                  Tests.Incorrect_number 1;
                  Tests.Error_keys [Key.make "test.2" (ulid.text id)] None;
                  Tests.Incorrect_number 1 ];
              Tests.printed := [ Key.make "test.1" (ulid.text id);
                                 Key.make "test.2" (ulid.text id) ] |}.
Proof.
  apply (TestBadgerEventStore_AppendWithMultipleFacts_frozen_clock
           (fun _ => sample_clock) sample_clock).
  - exact sample_no_faults.
  - reflexivity.
  - exact sample_clock_in_range.
  - reflexivity.
Defined.

(** * The store without a type registry *)

Lemma Legacy_kvstore `{Collaborators} (p : Legacy.Process) :
  Legacy.no_faults ->
  exists d,
    Legacy.kvstore p = (Legacy.opened p (Legacy.contents p), inl d)
    /\ badger.data d = Legacy.contents p
    /\ forall l,
         Legacy.with_db (Legacy.opened p (Legacy.contents p))
           (Some {| badger.opts := badger.opts d; badger.data := l |})
         = Legacy.opened p l.
Proof.
  intros (Hopen & _). unfold Legacy.kvstore, Legacy.opened, Legacy.contents.
  destruct p as [[[d|]] g w]; cbn [Legacy.db Legacy.store].
  - exists d. destruct d as [o l]. repeat split; reflexivity.
  - unfold badger_Open. rewrite Hopen. eexists. repeat split; reflexivity.
Qed.

Lemma Legacy_opened_facts (p : Legacy.Process) (l : badger.entries) :
  Legacy.contents (Legacy.opened p l) = l
  /\ Legacy.wall (Legacy.opened p l) = Legacy.wall p
  /\ Legacy.gob_registry p ⊆ Legacy.gob_registry (Legacy.opened p l).
Proof.
  unfold Legacy.opened. destruct (Legacy.db (Legacy.store p)); cbn.
  - repeat split; reflexivity.
  - split; [reflexivity|]. split; [reflexivity|]. apply union_subseteq_l.
Qed.

(** One [Append] of the variant that nothing stops. *)
Lemma Legacy_Append_step `{Collaborators} `{Legacy.Codec} (aggregate : string)
    (v : GoValue) (p : Legacy.Process) :
  Legacy.no_faults -> in_range (Legacy.wall p) ->
  reflect.TypeOf v ∈ Legacy.gob_registry p -> encodable v ->
  exists id value,
    NewId (Legacy.wall p) = Returns id
    /\ Legacy.decodes_to (Key.make aggregate (ulid.text id), value) v
    /\ Legacy.Append aggregate v p
       = (Legacy.elapse 1000000
            (Legacy.opened p
               (badger.set (Key.make aggregate (ulid.text id)) value
                  (Legacy.contents p))),
          Returns None).
Proof.
  intros Hnf Hnow Hreg Henc.
  pose proof (NewId_in_range _ Hnow) as Hid.
  set (id := ulid.of_parts _ _) in Hid.
  destruct (Legacy_kvstore p Hnf) as (d & Hkv & Hdata & Hwith).
  exists id, (Legacy.gob_marshal_record
                {| Legacy.Id := id; Legacy.Timestamp := Legacy.wall p;
                   Legacy.Content := v |}).
  split; [exact Hid|]. split.
  - eexists. split; [reflexivity|]. split; [reflexivity|exact Henc].
  - unfold Legacy.Append. cbv zeta. rewrite Hid. cbn [Legacy.Id].
    rewrite MarshalText_text. unfold Legacy.Encode. cbn [Legacy.Content].
    destruct (decide (reflect.TypeOf v ∈ Legacy.gob_registry p)); [|contradiction].
    unfold encodable in Henc. rewrite Henc, Hkv. unfold badger_Update_Set.
    destruct Hnf as (_ & Hset & _). rewrite Hset, Hwith, Hdata. reflexivity.
Qed.

Lemma Legacy_Read_spec `{Collaborators} `{Legacy.Codec} (aggregate : string)
    (p : Legacy.Process) :
  Legacy.no_faults -> sorted (Legacy.contents p) ->
  Legacy.Read aggregate p
  = (Legacy.opened p (Legacy.contents p),
     returned
       (badger.iterate (fun _ => true)
          (fun item values =>
             item_Value item
               (Legacy.decode_item (Legacy.opened p (Legacy.contents p))) values)
          (Legacy.records_of aggregate p) [])).
Proof.
  intros Hnf Hs. destruct (Legacy_kvstore p Hnf) as (d & Hkv & Hdata & _).
  unfold Legacy.Read. rewrite Hkv. cbv zeta. rewrite Hdata.
  rewrite iterate_scan by exact Hs. unfold Legacy.records_of, returned.
  destruct (badger.iterate _ _ _ _) as [[values [e|]]|msg]; reflexivity.
Qed.

Lemma Legacy_iterate_decodes `{Collaborators} `{Legacy.Codec}
    (q : Legacy.Process) (items : badger.entries) (vs acc : list GoValue) :
  (forall k, value_error k = None) ->
  Forall2 Legacy.decodes_to items vs ->
  Forall (fun v => reflect.TypeOf v ∈ Legacy.gob_registry q) vs ->
  badger.iterate (fun _ => true)
    (fun item values => item_Value item (Legacy.decode_item q) values) items acc
  = Returns (acc ++ List.map wire.received vs, None).
Proof.
  intros Hval Hdec. revert acc.
  induction Hdec as [|[k value] v items vs (r & Hm & Hc & He) _ IH];
    intros acc Hreg.
  - rewrite app_nil_r. reflexivity.
  - inversion Hreg as [|? ? Hr Hrest]; subst. simpl.
    unfold item_Value at 1. cbn [fst snd]. rewrite Hval.
    unfold Legacy.decode_item at 1, Legacy.Decode. cbn [snd] in Hm.
    rewrite Hm, (Legacy.gob_record_roundtrip r He).
    cbn [Legacy.Content Legacy.received]. rewrite TypeOf_received.
    destruct (decide (reflect.TypeOf (Legacy.Content r) ∈ Legacy.gob_registry q));
      [|contradiction].
    rewrite IH by exact Hrest. rewrite <- app_assoc. reflexivity.
Qed.

Lemma below_mono (aggregate : string) (lo lo' : Z) (l : badger.entries) :
  0 <= lo <= lo' -> lo' <= 281474976710656 ->
  below aggregate lo l -> below aggregate lo' l.
Proof.
  intros Hlo Hhi Hb x Hx Hpx. specialize (Hb x Hx Hpx).
  destruct (Z.eq_dec lo lo') as [<-|Hne]; [exact Hb|].
  eapply lt_trans; [exact Hb|]. apply make_lt, text_lt.
  - change (2 ^ 80) with 1208925819614629174706176. lia.
  - change (2 ^ 80) with 1208925819614629174706176. lia.
  - change (2 ^ 80) with 1208925819614629174706176.
    change (32 ^ 26) with 1361129467683753853853498429727072845824. lia.
Qed.

Lemma stamped_mono (lo lo' : Z) (l : badger.entries) :
  lo <= lo' -> stamped lo l -> stamped lo' l.
Proof.
  intros Hlo Hst x Hx. destruct (Hst x Hx) as (b & id & Heq & Hid).
  exists b, id. split; [exact Heq|].
  change (2 ^ 80) with 1208925819614629174706176 in *. lia.
Qed.

Lemma duration_nonneg (calls : list Legacy.Call) :
  Forall (fun c => 0 <= Legacy.delay c) calls -> 0 <= Legacy.duration calls.
Proof.
  induction 1 as [|c calls Hc _ IH]; simpl; lia.
Qed.

Lemma millis_mono (t d : Z) : 0 <= d -> millis t <= millis (t + d).
Proof. intros Hd. unfold millis. apply Z.div_le_mono; lia. Qed.

Lemma millis_sleep (t : Z) : millis (t + 1000000) = millis t + 1.
Proof.
  unfold millis. replace (t + 1000000) with (t + 1 * 1000000) by lia.
  apply Z.div_add. lia.
Qed.

(** One call of a run: the delay, then [Append] with its sleep. *)
Lemma Legacy_call `{Collaborators} `{Legacy.Codec} (aggregate : string)
    (v : GoValue) (d : Z) (p : Legacy.Process) :
  Legacy.no_faults -> sorted (Legacy.contents p) ->
  0 <= Legacy.wall p -> 0 <= d ->
  Legacy.wall p + d + 1000000 <= 281474976710656 * 1000000 ->
  reflect.TypeOf v ∈ Legacy.gob_registry p -> encodable v ->
  exists id value q,
    Legacy.Append aggregate v (Legacy.elapse d p) = (q, Returns None)
    /\ Legacy.contents q
       = badger.set (Key.make aggregate (ulid.text id)) value (Legacy.contents p)
    /\ sorted (Legacy.contents q)
    /\ Legacy.wall q = Legacy.wall p + d + 1000000
    /\ Legacy.gob_registry p ⊆ Legacy.gob_registry q
    /\ Legacy.decodes_to (Key.make aggregate (ulid.text id), value) v
    /\ millis (Legacy.wall p + d) * 2 ^ 80 <= id
       < (millis (Legacy.wall p + d) + 1) * 2 ^ 80
    /\ 0 <= id < 32 ^ 26.
Proof.
  intros Hnf Hs Hw Hd Hend Hreg Henc.
  assert (Hnow : in_range (Legacy.wall (Legacy.elapse d p))).
  { unfold in_range. cbn [Legacy.wall Legacy.elapse]. lia. }
  destruct (Legacy_Append_step aggregate v (Legacy.elapse d p) Hnf Hnow Hreg Henc)
    as (id & value & Hid & Hdec & Happ).
  destruct (NewId_bounds _ _ Hnow Hid) as [Hb Hr].
  cbn [Legacy.wall Legacy.elapse] in Hb.
  change (Legacy.contents (Legacy.elapse d p)) with (Legacy.contents p) in Happ.
  eexists id, value, _. split; [exact Happ|].
  destruct (Legacy_opened_facts (Legacy.elapse d p)
              (badger.set (Key.make aggregate (ulid.text id)) value
                 (Legacy.contents p))) as (Hc & Hwall & Hgob).
  change (Legacy.contents (Legacy.elapse 1000000 ?x)) with (Legacy.contents x).
  rewrite Hc. split; [reflexivity|]. split; [apply set_sorted, Hs|].
  split; [cbn [Legacy.wall Legacy.elapse]; rewrite Hwall;
          cbn [Legacy.wall Legacy.elapse]; reflexivity|].
  split; [exact Hgob|]. split; [exact Hdec|]. split; [exact Hb|exact Hr].
Qed.

(** A run of the variant on a clock that does not go back: every call
    returns no error, and the records of [aggregate] grow at their end by
    the envelopes of the values appended to it, in the order of the
    calls. *)
Lemma Legacy_run_records `{Collaborators} `{Legacy.Codec} (aggregate : string)
    (calls : list Legacy.Call) :
  forall p : Legacy.Process,
  Legacy.no_faults -> sorted (Legacy.contents p) ->
  0 <= Legacy.wall p ->
  Legacy.wall p + Legacy.duration calls <= 281474976710656 * 1000000 ->
  Forall (fun c => 0 <= Legacy.delay c) calls ->
  Forall (fun c => Key.has_sep (Legacy.to_aggregate c) = false) calls ->
  Forall (fun c => reflect.TypeOf (Legacy.content_of c) ∈ Legacy.gob_registry p) calls ->
  Forall (fun c => encodable (Legacy.content_of c)) calls ->
  below aggregate (millis (Legacy.wall p)) (Legacy.contents p) ->
  snd (Legacy.run calls p) = List.map (fun _ => Returns None) calls
  /\ sorted (Legacy.contents (fst (Legacy.run calls p)))
  /\ Legacy.gob_registry p ⊆ Legacy.gob_registry (fst (Legacy.run calls p))
  /\ exists new,
       Legacy.records_of aggregate (fst (Legacy.run calls p))
       = Legacy.records_of aggregate p ++ new
       /\ Forall2 Legacy.decodes_to new (Legacy.appended_to aggregate calls).
Proof.
  induction calls as [|c rest IH];
    intros p Hnf Hs Hw Hend Hdel Hsep Hreg Henc Hbelow.
  - simpl. split; [reflexivity|]. split; [exact Hs|]. split; [reflexivity|].
    exists []. rewrite app_nil_r. split; [reflexivity|constructor].
  - inversion Hdel as [|? ? Hd Hdel']; subst.
    inversion Hsep as [|? ? Hsep_c Hsep']; subst.
    inversion Hreg as [|? ? Hreg_c Hreg']; subst.
    inversion Henc as [|? ? Henc_c Henc']; subst.
    pose proof (duration_nonneg rest Hdel') as Hdur.
    simpl Legacy.duration in Hend.
    destruct (Legacy_call (Legacy.to_aggregate c) (Legacy.content_of c)
                (Legacy.delay c) p Hnf Hs Hw Hd ltac:(lia) Hreg_c Henc_c)
      as (id & value & q & Happ & Hcq & Hsq & Hwq & Hgq & Hdec & Hid & Hidr).
    set (now := Legacy.wall p + Legacy.delay c) in *.
    set (key := Key.make (Legacy.to_aggregate c) (ulid.text id)) in *.
    assert (Hms : 0 <= millis (Legacy.wall p) <= millis now).
    { split; [unfold millis; apply Z.div_pos; lia|apply millis_mono, Hd]. }
    assert (Hmb : millis now + 1 <= 281474976710656).
    { assert (Hin : in_range now) by (unfold in_range, now; lia).
      pose proof (millis_bounds _ Hin) as Hb. unfold ulid.MaxTime in Hb. lia. }
    assert (Hbnow : below aggregate (millis now) (Legacy.contents p))
      by (apply (below_mono _ (millis (Legacy.wall p))); [lia|lia|exact Hbelow]).
    assert (Hpow : 0 < 2 ^ 80) by (apply Z.pow_pos_nonneg; lia).
    assert (Hold : forall x, In x (keys (Legacy.contents p)) ->
              String.prefix (Key.with_sep aggregate) x = true ->
              Key.lt x (Key.make aggregate (ulid.text id))).
    { intros x Hx Hpx. specialize (Hbnow x Hx Hpx).
      destruct (Z.eq_dec (millis now * 2 ^ 80) id) as [<-|Hne]; [exact Hbnow|].
      eapply lt_trans; [exact Hbnow|]. apply make_lt, text_lt; nia. }
    assert (Hbq : below aggregate (millis (Legacy.wall q)) (Legacy.contents q)).
    { rewrite Hwq. fold now. rewrite millis_sleep, Hcq.
      pose proof (pow_bounds (millis now) ltac:(unfold ulid.MaxTime; lia)) as Hpb.
      intros x Hx Hpx. apply keys_set in Hx. destruct Hx as [->|Hx].
      - unfold key in Hpx |- *.
        pose proof (prefix_make_other _ _ _ Hsep_c (text_no_sep id) Hpx) as <-.
        apply make_lt, text_lt; lia.
      - eapply lt_trans; [apply (Hold x Hx Hpx)|].
        apply make_lt, text_lt; lia. }
    assert (Hreg_q : Forall (fun c0 => reflect.TypeOf (Legacy.content_of c0)
                                       ∈ Legacy.gob_registry q) rest).
    { eapply List.Forall_impl; [|exact Hreg']. intros c0 Hc0. apply Hgq, Hc0. }
    destruct (IH q Hnf Hsq ltac:(lia) ltac:(lia) Hdel' Hsep' Hreg_q Henc' Hbq)
      as (Hout & Hs' & Hg' & new & Hnew & Hdec').
    simpl Legacy.run. rewrite Happ.
    destruct (Legacy.run rest q) as [q' rs] eqn:Hrun. cbn [fst snd] in *.
    split; [simpl; rewrite Hout; reflexivity|].
    split; [exact Hs'|]. split; [etransitivity; eassumption|].
    unfold Legacy.appended_to. simpl List.filter.
    destruct (String.eqb_spec (Legacy.to_aggregate c) aggregate) as [Heq|Hne].
    + exists ((key, value) :: new). rewrite Hnew. unfold Legacy.records_of.
      rewrite Hcq. rewrite filter_set_last; [|exact Hs| |].
      * rewrite <- app_assoc. split; [reflexivity|].
        simpl. constructor; [exact Hdec|exact Hdec'].
      * unfold key. rewrite Heq. apply prefix_make.
      * intros x Hx Hpx. unfold key. rewrite Heq. exact (Hold x Hx Hpx).
    + exists new. rewrite Hnew. unfold Legacy.records_of.
      rewrite Hcq, filter_set_other; [split; [reflexivity|exact Hdec']|].
      destruct (String.prefix (Key.with_sep aggregate) key) eqn:Hp; [|reflexivity].
      exfalso. apply Hne. symmetry.
      exact (prefix_make_other _ _ _ Hsep_c (text_no_sep id) Hp).
Qed.

(** Such a run adds one key for each of its calls. *)
Lemma Legacy_run_keys `{Collaborators} `{Legacy.Codec}
    (calls : list Legacy.Call) :
  forall p : Legacy.Process,
  Legacy.no_faults -> sorted (Legacy.contents p) ->
  0 <= Legacy.wall p ->
  Legacy.wall p + Legacy.duration calls <= 281474976710656 * 1000000 ->
  Forall (fun c => 0 <= Legacy.delay c) calls ->
  Forall (fun c => reflect.TypeOf (Legacy.content_of c) ∈ Legacy.gob_registry p) calls ->
  Forall (fun c => encodable (Legacy.content_of c)) calls ->
  stamped (millis (Legacy.wall p)) (Legacy.contents p) ->
  snd (Legacy.run calls p) = List.map (fun _ => Returns None) calls
  /\ sorted (Legacy.contents (fst (Legacy.run calls p)))
  /\ length (Legacy.contents (fst (Legacy.run calls p)))
     = (length (Legacy.contents p) + length calls)%nat.
Proof.
  induction calls as [|c rest IH];
    intros p Hnf Hs Hw Hend Hdel Hreg Henc Hst.
  - simpl. split; [reflexivity|]. split; [exact Hs|]. lia.
  - inversion Hdel as [|? ? Hd Hdel']; subst.
    inversion Hreg as [|? ? Hreg_c Hreg']; subst.
    inversion Henc as [|? ? Henc_c Henc']; subst.
    pose proof (duration_nonneg rest Hdel') as Hdur.
    simpl Legacy.duration in Hend.
    destruct (Legacy_call (Legacy.to_aggregate c) (Legacy.content_of c)
                (Legacy.delay c) p Hnf Hs Hw Hd ltac:(lia) Hreg_c Henc_c)
      as (id & value & q & Happ & Hcq & Hsq & Hwq & Hgq & _ & Hid & Hidr).
    set (now := Legacy.wall p + Legacy.delay c) in *.
    set (key := Key.make (Legacy.to_aggregate c) (ulid.text id)) in *.
    assert (Hms : millis (Legacy.wall p) <= millis now)
      by (apply millis_mono, Hd).
    assert (Hpow : 0 < 2 ^ 80) by (apply Z.pow_pos_nonneg; lia).
    assert (Hstn : stamped (millis now) (Legacy.contents p))
      by (apply (stamped_mono (millis (Legacy.wall p))); assumption).
    assert (Hnew : ~ In key (keys (Legacy.contents p))).
    { intros Hin. destruct (Hstn key Hin) as (b & id0 & Heq & Hid0).
      unfold key in Heq. apply make_inj in Heq. destruct Heq as [_ Heq].
      apply text_inj in Heq; nia. }
    assert (Hstq : stamped (millis (Legacy.wall q)) (Legacy.contents q)).
    { rewrite Hwq. fold now. rewrite millis_sleep, Hcq.
      intros x Hx. apply keys_set in Hx. destruct Hx as [->|Hx].
      - exists (Legacy.to_aggregate c), id. split; [reflexivity|lia].
      - destruct (Hstn x Hx) as (b & id0 & Heq & Hid0).
        exists b, id0. split; [exact Heq|nia]. }
    assert (Hreg_q : Forall (fun c0 => reflect.TypeOf (Legacy.content_of c0)
                                       ∈ Legacy.gob_registry q) rest).
    { eapply List.Forall_impl; [|exact Hreg']. intros c0 Hc0. apply Hgq, Hc0. }
    destruct (IH q Hnf Hsq ltac:(lia) ltac:(lia) Hdel' Hreg_q Henc' Hstq)
      as (Hout & Hs' & Hlen).
    simpl Legacy.run. rewrite Happ.
    destruct (Legacy.run rest q) as [q' rs] eqn:Hrun. cbn [fst snd] in *.
    split; [simpl; rewrite Hout; reflexivity|]. split; [exact Hs'|].
    rewrite Hlen, Hcq, length_set_new by exact Hnew. simpl. lia.
Qed.

Lemma Legacy_appended_registered (aggregate : string)
    (calls : list Legacy.Call) (g g' : gset reflect.Type_) :
  g ⊆ g' ->
  Forall (fun c => reflect.TypeOf (Legacy.content_of c) ∈ g) calls ->
  Forall (fun v => reflect.TypeOf v ∈ g') (Legacy.appended_to aggregate calls).
Proof.
  intros Hsub Hall. unfold Legacy.appended_to.
  induction Hall as [|c rest Hc _ IH]; simpl; [constructor|].
  destruct (String.eqb (Legacy.to_aggregate c) aggregate); simpl; [|exact IH].
  constructor; [apply Hsub, Hc|exact IH].
Qed.

(** The variant with the sleep, on a clock that does not go back: after a
    run of [Append] calls of values of registered types to aggregates
    named without [':'], whatever time passes between the calls, none
    included, every call has returned no error and [Read] returns the
    values appended to the aggregate, as [encoding/gob] rebuilds them, in
    the order of the calls. The millisecond each [Append] sleeps after its
    write puts the next identifier in a later millisecond. *)
Theorem Legacy_Read_in_append_order `{Collaborators} `{Legacy.Codec}
    (calls : list Legacy.Call) (aggregate : string) (p : Legacy.Process) :
  Legacy.no_faults -> sorted (Legacy.contents p) ->
  Legacy.records_of aggregate p = [] ->
  0 <= Legacy.wall p ->
  Legacy.wall p + Legacy.duration calls <= 281474976710656 * 1000000 ->
  Forall (fun c => 0 <= Legacy.delay c) calls ->
  Forall (fun c => Key.has_sep (Legacy.to_aggregate c) = false) calls ->
  Forall (fun c => reflect.TypeOf (Legacy.content_of c) ∈ Legacy.gob_registry p) calls ->
  Forall (fun c => encodable (Legacy.content_of c)) calls ->
  snd (Legacy.run calls p) = List.map (fun _ => Returns None) calls
  /\ snd (Legacy.Read aggregate (fst (Legacy.run calls p)))
     = Returns (Legacy.read_back aggregate calls, None).
Proof.
  intros Hnf Hs Hfresh Hw Hend Hdel Hsep Hreg Henc.
  assert (Hbelow : below aggregate (millis (Legacy.wall p)) (Legacy.contents p)).
  { intros x Hx Hpx. rewrite (filter_nil_none _ _ Hfresh x Hx) in Hpx.
    discriminate. }
  destruct (Legacy_run_records aggregate calls p Hnf Hs Hw Hend Hdel Hsep Hreg
              Henc Hbelow)
    as (Hout & Hs' & Hg' & new & Hnew & Hdec).
  split; [exact Hout|].
  rewrite (Legacy_Read_spec aggregate _ Hnf Hs'). cbn [snd].
  rewrite Hnew, Hfresh. simpl app.
  rewrite (Legacy_iterate_decodes _ new (Legacy.appended_to aggregate calls) []).
  - reflexivity.
  - apply Hnf.
  - exact Hdec.
  - apply (Legacy_appended_registered aggregate calls (Legacy.gob_registry p));
      [|exact Hreg].
    etransitivity; [exact Hg'|]. apply Legacy_opened_facts.
Qed.

Lemma legacy_Test_registered (n : Z) :
  reflect.TypeOf (Sample.Test n) ∈ Legacy.gob_registry legacy_sample_start.
Proof.
  unfold legacy_sample_start, Legacy.Register. cbn [Legacy.gob_registry].
  apply elem_of_union. right. apply elem_of_singleton. reflexivity.
Qed.

Lemma legacy_Test_encodable (n : Z) : encodable (Sample.Test n).
Proof. reflexivity. Qed.

Lemma legacy_sample_no_faults : @Legacy.no_faults Sample.collaborators.
Proof. repeat split. Qed.

Lemma Legacy_Read_in_append_order_witness :
  let calls := [ Legacy.mkCall 0 "test.1" (Sample.Test 0);
                 Legacy.mkCall 0 "test.2" (Sample.Test 0);
                 Legacy.mkCall 0 "test.1" (Sample.Test 1) ] in
  snd (Legacy.run calls legacy_sample_start)
  = [Returns None; Returns None; Returns None]
  /\ snd (Legacy.Read "test.1" (fst (Legacy.run calls legacy_sample_start)))
     = Returns ([Sample.Test 0; Sample.Test 1], None).
Proof.
  intros calls.
  apply (Legacy_Read_in_append_order calls "test.1" legacy_sample_start).
  - exact legacy_sample_no_faults.
  - exact sorted_nil.
  - reflexivity.
  - unfold legacy_sample_start, sample_clock. simpl. lia.
  - unfold legacy_sample_start, sample_clock. simpl. lia.
  - repeat constructor; simpl; lia.
  - repeat constructor.
  - repeat constructor; apply legacy_Test_registered.
  - repeat constructor; apply legacy_Test_encodable.
Defined.

(** In the variant every [Append] of such a run gets a key of its own:
    [ListKeys] returns as many keys as there were calls. *)
Theorem Legacy_ListKeys_counts `{Collaborators} `{Legacy.Codec}
    (calls : list Legacy.Call) (p : Legacy.Process) :
  Legacy.no_faults ->
  Legacy.contents p = [] ->
  0 <= Legacy.wall p ->
  Legacy.wall p + Legacy.duration calls <= 281474976710656 * 1000000 ->
  Forall (fun c => 0 <= Legacy.delay c) calls ->
  Forall (fun c => reflect.TypeOf (Legacy.content_of c) ∈ Legacy.gob_registry p) calls ->
  Forall (fun c => encodable (Legacy.content_of c)) calls ->
  snd (Legacy.run calls p) = List.map (fun _ => Returns None) calls
  /\ exists ks,
       snd (Legacy.ListKeys (fst (Legacy.run calls p))) = Returns (ks, None)
       /\ length ks = length calls
       /\ NoDup ks.
Proof.
  intros Hnf Hempty Hw Hend Hdel Hreg Henc.
  assert (Hs : sorted (Legacy.contents p)) by (rewrite Hempty; exact sorted_nil).
  assert (Hst : stamped (millis (Legacy.wall p)) (Legacy.contents p)).
  { intros x Hx. rewrite Hempty in Hx. destruct Hx. }
  destruct (Legacy_run_keys calls p Hnf Hs Hw Hend Hdel Hreg Henc Hst)
    as (Hout & Hs' & Hlen).
  split; [exact Hout|].
  destruct (Legacy_kvstore (fst (Legacy.run calls p)) Hnf)
    as (d & Hkv & Hdata & _).
  exists (keys (Legacy.contents (fst (Legacy.run calls p)))).
  unfold Legacy.ListKeys. rewrite Hkv, Hdata, iterate_collect. cbn [snd app].
  split; [reflexivity|]. split.
  - unfold keys. rewrite length_map, Hlen, Hempty. reflexivity.
  - apply sorted_NoDup, Hs'.
Qed.

Lemma Legacy_ListKeys_counts_witness :
  let calls := [ Legacy.mkCall 0 "test.1" (Sample.Test 0);
                 Legacy.mkCall 0 "test.1" (Sample.Test 1) ] in
  snd (Legacy.run calls legacy_sample_start) = [Returns None; Returns None]
  /\ exists ks,
       snd (Legacy.ListKeys (fst (Legacy.run calls legacy_sample_start)))
       = Returns (ks, None)
       /\ length ks = 2%nat /\ NoDup ks.
Proof.
  intros calls.
  apply (Legacy_ListKeys_counts calls legacy_sample_start).
  - exact legacy_sample_no_faults.
  - reflexivity.
  - unfold legacy_sample_start, sample_clock. simpl. lia.
  - unfold legacy_sample_start, sample_clock. simpl. lia.
  - repeat constructor; simpl; lia.
  - repeat constructor; apply legacy_Test_registered.
  - repeat constructor; apply legacy_Test_encodable.
Defined.

Lemma iterate_returns {A : Type} (valid : string * string -> bool)
    (body : string * string -> A -> outcome (A * option error))
    (items : badger.entries) (acc : A) :
  (forall item a, exists r, body item a = Returns r) ->
  exists r, badger.iterate valid body items acc = Returns r.
Proof.
  intros Hbody. revert acc. induction items as [|item items IH]; intros acc.
  - eexists. reflexivity.
  - simpl. destruct (valid item); [|eexists; reflexivity].
    destruct (Hbody item acc) as [[acc' [e|]] Hr]; rewrite Hr.
    + eexists. reflexivity.
    + apply IH.
Qed.

(** [Read] of the variant never panics: whatever the engine holds and
    whatever is registered, it returns, and when it returns an error it
    returns no values with it. *)
Theorem Legacy_Read_never_panics `{Collaborators} `{Legacy.Codec}
    (aggregate : string) (p : Legacy.Process) :
  exists values err,
    snd (Legacy.Read aggregate p) = Returns (values, err)
    /\ (err <> None -> values = []).
Proof.
  unfold Legacy.Read. destruct (Legacy.kvstore p) as [p1 [d|e]]; cbv zeta.
  - destruct (iterate_returns
                (badger.ValidForPrefix (Key.with_sep aggregate))
                (fun item values => item_Value item (Legacy.decode_item p1) values)
                (badger.Seek (Key.with_sep aggregate) (badger.data d)) [])
      as [[values [e|]] Hr].
    + intros item a. unfold item_Value, Legacy.decode_item.
      destruct (value_error (fst item)); [eexists; reflexivity|].
      destruct (Legacy.Decode (Legacy.gob_registry p1) (snd item));
        eexists; reflexivity.
    + rewrite Hr. exists [], (Some e). split; [reflexivity|reflexivity].
    + rewrite Hr. exists values, None. split; [reflexivity|congruence].
  - exists [], (Some e). split; reflexivity.
Qed.
